(** * Guided Sudoku solver: a shallow embedding of [main.py] and its properties

    The grid is the Python [list[list[Cell]]]: a list of rows, each a list of
    cells, read with stdpp's list lookup and written in place with [alter].
    The program only ever indexes with [range(9)] values; on a grid that is
    not 9x9 Python raises [IndexError], so every statement below is about
    well-formed grids ([wf_grid]), where lookups never leave the lists. *)

From Stdlib Require Import String Ascii.
From stdpp Require Import base numbers list.
From Stdlib Require Import ZArith List Lia Bool DecimalString Sorted.
Import ListNotations.

Local Open Scope nat_scope.

(** ** Cells and grids *)

Record Cell := mkCell {
  value : option Z;
  given : bool;
  candidates : list Z
}.

Abbreviation grid := (list (list Cell)).
Abbreviation pos := (nat * nat)%type.

(** [Cell(None, False)]: what an index outside the lists reads as in this
    model (never reached on a well-formed grid). *)
Definition blank : Cell := mkCell None false [].

Definition cell (cells : grid) (p : pos) : Cell :=
  match cells !! p.1 with
  | Some row => match row !! p.2 with Some x => x | None => blank end
  | None => blank
  end.

(** In-place mutation of the cell object at [cells[r][c]]. *)
Definition upd (cells : grid) (p : pos) (f : Cell -> Cell) : grid :=
  alter (alter f p.2) p.1 cells.

Definition set_value (v : option Z) (x : Cell) : Cell :=
  mkCell v (given x) (candidates x).
Definition set_candidates (l : list Z) (x : Cell) : Cell :=
  mkCell (value x) (given x) l.

Definition wf_grid (cells : grid) : Prop :=
  length cells = 9 /\ Forall (fun row => length row = 9) cells.

Definition wf_gridb (cells : grid) : bool :=
  (length cells =? 9) && forallb (fun row => length row =? 9) cells.

Definition isNone {A} (o : option A) : bool :=
  match o with None => true | Some _ => false end.

Definition unset (cells : grid) (p : pos) : bool := isNone (value (cell cells p)).

(** Python's [range(a, b)] and the row-major double loop
    [for i in range(9): for j in range(9)]. *)
Definition range (a b : nat) : list nat := seq a (b - a).

Definition box (r0 r1 c0 c1 : nat) : list pos :=
  flat_map (fun i => map (fun j => (i, j)) (range c0 c1)) (range r0 r1).

Definition all_positions : list pos := box 0 9 0 9.

Definition digits : list Z := map Z.of_nat (range 1 10).

(** [x in l] on a list of ints. *)
Definition mem (x : Z) (l : list Z) : bool := existsb (Z.eqb x) l.

(** ** Constraint checker *)

(** [cells[r][c].value or 0] *)
Definition value_or0 (x : Cell) : Z :=
  match value x with
  | Some v => if (v =? 0)%Z then 0%Z else v
  | None => 0%Z
  end.

Definition is_valid (cells : grid) (num : Z) (p : pos) : bool :=
  let '(r, c) := p in
  if existsb (fun j => (value_or0 (cell cells (r, j)) =? num)%Z) (range 0 9)
  then false
  else if existsb (fun i => (value_or0 (cell cells (i, c)) =? num)%Z) (range 0 9)
  then false
  else
    let br := (r / 3) * 3 in
    let bc := (c / 3) * 3 in
    if existsb (fun i =>
         existsb (fun j => (value_or0 (cell cells (i, j)) =? num)%Z)
                 (range bc (bc + 3)))
       (range br (br + 3))
    then false
    else true.

(** ** Backtracking solver *)

Definition find_empty (cells : grid) : option pos :=
  List.find (unset cells) all_positions.

(** The [for num in range(1, 10)] loop of [solve], with the recursive call
    abstracted as [rec]; [None] means the recursion ran out of fuel. *)
Fixpoint solve_loop (rec : grid -> option (bool * grid)) (p : pos)
    (nums : list Z) (cells : grid) : option (bool * grid) :=
  match nums with
  | [] => Some (false, cells)
  | num :: rest =>
      if is_valid cells num p then
        match rec (upd cells p (set_value (Some num))) with
        | None => None
        | Some (true, cells') => Some (true, cells')
        | Some (false, cells') =>
            solve_loop rec p rest (upd cells' p (set_value None))
        end
      else solve_loop rec p rest cells
  end.

Fixpoint solve_fuel (fuel : nat) (cells : grid) : option (bool * grid) :=
  match fuel with
  | O => None
  | S fuel' =>
      match find_empty cells with
      | None => Some (true, cells)
      | Some p => solve_loop (solve_fuel fuel') p digits cells
      end
  end.

(** Every recursive call fills one more of the 81 cells, so 82 levels are
    always enough (lemma [solve_total]). *)
Definition solve (cells : grid) : option (bool * grid) := solve_fuel 82 cells.

(** ** Puzzle text *)

(** A Python [str] is a sequence of Unicode code points: a character is
    modelled by its code point, a text by the list of its characters, so
    that [len] is [length] and [enumerate] counts list positions. *)
Definition char : Type := N.
Definition text : Type := list char.

(** The text of a literal written with ASCII characters only (one byte per
    character); the sample puzzles are given this way. *)
Definition text_of (s : string) : text := map N_of_ascii (list_ascii_of_string s).

(** The characters ["|"], ["."], ["0"], ["1"] and ["9"]. *)
Definition bar : char := 124%N.
Definition dot : char := 46%N.
Definition zero : char := 48%N.
Definition one : char := 49%N.
Definition nine : char := 57%N.

Inductive parse_error := InvalidLength (n : nat) | InvalidCharacter (idx : nat).

(** [puzzle.replace("|", "")] *)
Definition strip_bars (puzzle : text) : text :=
  List.filter (fun ch => negb (ch =? bar)%N) puzzle.

(** One character of the puzzle: a clue ([ch in "123456789"], with value
    [int(ch)]), an empty cell ([ch in ".0"]), or an error. *)
Definition parse_char (ch : char) : option Cell :=
  if ((one <=? ch) && (ch <=? nine))%N
  then Some (mkCell (Some (Z.of_N ch - Z.of_N zero)%Z) true [])
  else if ((ch =? dot) || (ch =? zero))%N then Some blank
  else None.

Fixpoint parse_from (idx : nat) (chars : text) : parse_error + list Cell :=
  match chars with
  | [] => inr []
  | ch :: rest =>
      match parse_char ch with
      | None => inl (InvalidCharacter idx)
      | Some x =>
          match parse_from (S idx) rest with
          | inl e => inl e
          | inr xs => inr (x :: xs)
          end
      end
  end.

(** Index [idx] goes to row [idx / 9], column [idx % 9]. *)
Definition rows_of (xs : list Cell) : grid :=
  map (fun r => firstn 9 (skipn (9 * r) xs)) (range 0 9).

(** The grid that [sudoku] builds from the puzzle text before solving. *)
Definition sudoku_cells (puzzle : text) : parse_error + grid :=
  let chars := strip_bars puzzle in
  if negb (length chars =? 81) then inl (InvalidLength (length chars))
  else match parse_from 0 chars with
       | inl e => inl e
       | inr xs => inr (rows_of xs)
       end.

(** The grid of a puzzle literal known to be well formed. *)
Definition grid_of (puzzle : string) : grid :=
  match sudoku_cells (text_of puzzle) with inr g => g | inl _ => [] end.

(** ** Strategy set *)

(** The abstract base class [Strategy]: a name and one [apply] pass that
    returns the changed flag and the (mutated) grid. *)
Record Strategy := mkStrategy {
  name : string;
  apply : grid -> bool * grid
}.

(** Nested [for i in range(r0, r1): for j in range(c0, c1)] loop threading
    an accumulator. *)
Definition for_box {A} (r0 r1 c0 c1 : nat) (body : A -> pos -> A) (init : A) : A :=
  fold_left (fun acc i => fold_left (fun acc j => body acc (i, j)) (range c0 c1) acc)
            (range r0 r1) init.

(** [range(0, 9, 3)] *)
Definition block_starts : list nat := [0; 3; 6].

(** The fill of a deduced cell: [value = n; given = False; candidates.clear()]. *)
Definition fill (cells : grid) (p : pos) (n : Z) : grid :=
  upd cells p (fun _ => mkCell (Some n) false []).

(** [unset and n in cell.candidates] *)
Definition wants (cells : grid) (n : Z) (p : pos) : bool :=
  unset cells p && mem n (candidates (cell cells p)).

Module SingleCandidateStrategy.

Definition name : string := "single-candidate".

(** Note: the value is set but the candidate list is left as it is. *)
Definition visit (acc : bool * grid) (p : pos) : bool * grid :=
  let '(changed, cells) := acc in
  let x := cell cells p in
  if isNone (value x) && (length (candidates x) =? 1)
  then (true, upd cells p
                (fun x => mkCell (Some (hd 0%Z (candidates x))) false (candidates x)))
  else (changed, cells).

Definition apply (cells : grid) : bool * grid :=
  for_box 0 9 0 9 visit (false, cells).

End SingleCandidateStrategy.

Module SubgridSingleStrategy.

Definition name : string := "subgrid-single".

Definition visit (br bc : nat) (acc : bool * grid) (n : Z) : bool * grid :=
  let '(changed, cells) := acc in
  let positions := List.filter (wants cells n) (box br (br + 3) bc (bc + 3)) in
  match positions with
  | [p] => (true, fill cells p n)
  | _ => (changed, cells)
  end.

Definition apply (cells : grid) : bool * grid :=
  fold_left (fun acc br =>
    fold_left (fun acc bc => fold_left (visit br bc) digits acc) block_starts acc)
    block_starts (false, cells).

End SubgridSingleStrategy.

Module RowSingleStrategy.

Definition name : string := "row-single".

Definition visit (r : nat) (acc : bool * grid) (n : Z) : bool * grid :=
  let '(changed, cells) := acc in
  let positions := List.filter (fun c => wants cells n (r, c)) (range 0 9) in
  match positions with
  | [c0] => (true, fill cells (r, c0) n)
  | _ => (changed, cells)
  end.

Definition apply (cells : grid) : bool * grid :=
  fold_left (fun acc r => fold_left (visit r) digits acc) (range 0 9) (false, cells).

End RowSingleStrategy.

Module ColumnSingleStrategy.

Definition name : string := "column-single".

Definition visit (c : nat) (acc : bool * grid) (n : Z) : bool * grid :=
  let '(changed, cells) := acc in
  let positions := List.filter (fun r => wants cells n (r, c)) (range 0 9) in
  match positions with
  | [r0] => (true, fill cells (r0, c) n)
  | _ => (changed, cells)
  end.

Definition apply (cells : grid) : bool * grid :=
  fold_left (fun acc c => fold_left (visit c) digits acc) (range 0 9) (false, cells).

End ColumnSingleStrategy.

(** *** Naked pairs and triplets: shared pieces *)

(** [set(l1) == set(l2)] *)
Definition set_eqb (l1 l2 : list Z) : bool :=
  forallb (fun x => mem x l2) l1 && forallb (fun x => mem x l1) l2.

(** [l1 != l2] is [negb (list_eqb l1 l2)]. *)
Fixpoint list_eqb (l1 l2 : list Z) : bool :=
  match l1, l2 with
  | [], [] => true
  | x :: l1', y :: l2' => (x =? y)%Z && list_eqb l1' l2'
  | _, _ => false
  end.

(** The nested index scan [for idx1 ...: for idx2 in range(idx1 + 1, ...)]
    with its two [break]s: the first two entries with equal candidate sets. *)
Fixpoint first_pair {A} (pairs : list (A * list Z)) : option (A * A * list Z) :=
  match pairs with
  | [] => None
  | (i1, cand1) :: rest =>
      match List.find (fun e => set_eqb cand1 (snd e)) rest with
      | Some (i2, _) => Some (i1, i2, cand1)
      | None => first_pair rest
      end
  end.

(** [itertools.combinations(l, k)], in its order. *)
Fixpoint combinations {A} (k : nat) (l : list A) : list (list A) :=
  match l with
  | [] => match k with O => [[]] | S _ => [] end
  | x :: xs =>
      match k with
      | O => [[]]
      | S k' => map (cons x) (combinations k' xs) ++ combinations k xs
      end
  end.

(** The union of the candidate lists, as a duplicate-free list (Python
    builds a [set] from them). *)
Definition union_of (cands : list (list Z)) : list Z :=
  nodup Z.eq_dec (concat cands).

(** The first combination of three entries whose candidates span three
    numbers; returns the entries' indexes and the union. *)
Definition first_triplet {A} (entries : list (A * list Z)) : option (list A * list Z) :=
  match List.find (fun combo => length (union_of (map snd combo)) =? 3)
                  (combinations 3 entries) with
  | Some combo => Some (map fst combo, union_of (map snd combo))
  | None => None
  end.

(** One step of the elimination loops: unless the cell is one of the
    pair/triplet ([skip]) or resolved, filter [gone] out of its candidates
    and raise the flag when the list changed. *)
Definition eliminate (gone : list Z) (skip : bool) (acc : bool * grid) (p : pos)
  : bool * grid :=
  let '(changed, cells) := acc in
  if negb skip && unset cells p then
    let before := candidates (cell cells p) in
    let after := List.filter (fun n => negb (mem n gone)) before in
    (if negb (list_eqb after before) then true else changed,
     upd cells p (set_candidates after))
  else (changed, cells).

Definition pos_eqb (p q : pos) : bool := (p.1 =? q.1) && (p.2 =? q.2).

Definition mem_pos (q : pos) (l : list pos) : bool := existsb (pos_eqb q) l.

Fixpoint distinct (l : list pos) : bool :=
  match l with
  | [] => true
  | p :: l' => negb (mem_pos p l') && distinct l'
  end.

Definition two_or_three (cells : grid) (p : pos) : bool :=
  unset cells p &&
  ((2 <=? length (candidates (cell cells p))) && (length (candidates (cell cells p)) <=? 3)).

Definition exactly_two (cells : grid) (p : pos) : bool :=
  unset cells p && (length (candidates (cell cells p)) =? 2).

Module NakedPairColumnStrategy.

Definition name : string := "naked-pair-column".

Definition visit (acc : bool * grid) (c : nat) : bool * grid :=
  let '(changed, cells) := acc in
  let pairs := map (fun i => (i, candidates (cell cells (i, c))))
                   (List.filter (fun i => exactly_two cells (i, c)) (range 0 9)) in
  match first_pair pairs with
  | Some (i1, i2, cand1) =>
      fold_left (fun acc i => eliminate cand1 ((i =? i1) || (i =? i2)) acc (i, c))
                (range 0 9) (changed, cells)
  | None => (changed, cells)
  end.

Definition apply (cells : grid) : bool * grid :=
  fold_left visit (range 0 9) (false, cells).

End NakedPairColumnStrategy.

Module NakedPairRowStrategy.

Definition name : string := "naked-pair-row".

Definition visit (acc : bool * grid) (r : nat) : bool * grid :=
  let '(changed, cells) := acc in
  let pairs := map (fun j => (j, candidates (cell cells (r, j))))
                   (List.filter (fun j => exactly_two cells (r, j)) (range 0 9)) in
  match first_pair pairs with
  | Some (j1, j2, cand1) =>
      fold_left (fun acc j => eliminate cand1 ((j =? j1) || (j =? j2)) acc (r, j))
                (range 0 9) (changed, cells)
  | None => (changed, cells)
  end.

Definition apply (cells : grid) : bool * grid :=
  fold_left visit (range 0 9) (false, cells).

End NakedPairRowStrategy.

Module NakedPairSubgridStrategy.

Definition name : string := "naked-pair-subgrid".

(** One block: [found] is reset for every block, and the two [break]s only
    leave the index scan of this block. *)
(** The list [pairs] built for the block at [(br, bc)]. *)
Definition block_pairs (cells : grid) (br bc : nat) : list (pos * list Z) :=
  map (fun p => (p, candidates (cell cells p)))
      (List.filter (exactly_two cells) (box br (br + 3) bc (bc + 3))).

Definition visit (br bc : nat) (acc : bool * grid) : bool * grid :=
  let '(changed, cells) := acc in
  let pairs := block_pairs cells br bc in
  match first_pair pairs with
  | Some (p1, p2, cand1) =>
      for_box br (br + 3) bc (bc + 3)
        (fun acc p => eliminate cand1 (pos_eqb p p1 || pos_eqb p p2) acc p)
        (changed, cells)
  | None => (changed, cells)
  end.

Definition apply (cells : grid) : bool * grid :=
  fold_left (fun acc br => fold_left (fun acc bc => visit br bc acc) block_starts acc)
            block_starts (false, cells).

End NakedPairSubgridStrategy.

Module NakedTripletColumnStrategy.

Definition name : string := "naked-triplet-column".

Definition visit (acc : bool * grid) (c : nat) : bool * grid :=
  let '(changed, cells) := acc in
  let entries := map (fun i => (i, candidates (cell cells (i, c))))
                     (List.filter (fun i => two_or_three cells (i, c)) (range 0 9)) in
  match first_triplet entries with
  | Some (idxs, union) =>
      fold_left (fun acc i => eliminate union (existsb (Nat.eqb i) idxs) acc (i, c))
                (range 0 9) (changed, cells)
  | None => (changed, cells)
  end.

Definition apply (cells : grid) : bool * grid :=
  fold_left visit (range 0 9) (false, cells).

End NakedTripletColumnStrategy.

Module NakedTripletRowStrategy.

Definition name : string := "naked-triplet-row".

Definition visit (acc : bool * grid) (r : nat) : bool * grid :=
  let '(changed, cells) := acc in
  let entries := map (fun j => (j, candidates (cell cells (r, j))))
                     (List.filter (fun j => two_or_three cells (r, j)) (range 0 9)) in
  match first_triplet entries with
  | Some (idxs, union) =>
      fold_left (fun acc j => eliminate union (existsb (Nat.eqb j) idxs) acc (r, j))
                (range 0 9) (changed, cells)
  | None => (changed, cells)
  end.

Definition apply (cells : grid) : bool * grid :=
  fold_left visit (range 0 9) (false, cells).

End NakedTripletRowStrategy.

Module NakedTripletSubgridStrategy.

Definition name : string := "naked-triplet-subgrid".

Definition visit (br bc : nat) (acc : bool * grid) : bool * grid :=
  let '(changed, cells) := acc in
  let entries := map (fun p => (p, candidates (cell cells p)))
                     (List.filter (two_or_three cells) (box br (br + 3) bc (bc + 3))) in
  match first_triplet entries with
  | Some (positions, union) =>
      for_box br (br + 3) bc (bc + 3)
        (fun acc p => eliminate union (existsb (pos_eqb p) positions) acc p)
        (changed, cells)
  | None => (changed, cells)
  end.

Definition apply (cells : grid) : bool * grid :=
  fold_left (fun acc br => fold_left (fun acc bc => visit br bc acc) block_starts acc)
            block_starts (false, cells).

End NakedTripletSubgridStrategy.

(** ** Candidate engine *)

Definition get_cell_candidates (cells : grid) : grid :=
  for_box 0 9 0 9
    (fun cells p =>
       if unset cells p
       then upd cells p (set_candidates (List.filter (fun n => is_valid cells n p) digits))
       else cells)
    cells.

(** [list.remove(v)]: drops the first occurrence only. *)
Fixpoint remove_first (v : Z) (l : list Z) : list Z :=
  match l with
  | [] => []
  | x :: l' => if (x =? v)%Z then l' else x :: remove_first v l'
  end.

(** [if peer.value is None and val in peer.candidates: peer.candidates.remove(val)];
    a [val] of [None] is in no list of ints. *)
Definition drop_candidate (val : option Z) (cells : grid) (p : pos) : grid :=
  match val with
  | Some v =>
      if unset cells p && mem v (candidates (cell cells p))
      then upd cells p (fun x => set_candidates (remove_first v (candidates x)) x)
      else cells
  | None => cells
  end.

Definition remove_filled_at (cells : grid) (p : pos) : grid :=
  let '(r, c) := p in
  let val := value (cell cells (r, c)) in
  let cells := upd cells (r, c) (set_candidates []) in
  let cells :=
    fold_left (fun cells k => drop_candidate val (drop_candidate val cells (r, k)) (k, c))
              (range 0 9) cells in
  let br := (r / 3) * 3 in
  let bc := (c / 3) * 3 in
  for_box br (br + 3) bc (bc + 3) (drop_candidate val) cells.

(** [filled] is a Python set of positions; its iteration order is not
    specified, so the order is a parameter here (a list). *)
Definition remove_filled_candidates (cells : grid) (filled : list pos) : grid :=
  fold_left remove_filled_at filled cells.

(** ** Guided orchestrator *)

Definition strateties : list Strategy :=
  [ mkStrategy SingleCandidateStrategy.name SingleCandidateStrategy.apply;
    mkStrategy SubgridSingleStrategy.name SubgridSingleStrategy.apply;
    mkStrategy RowSingleStrategy.name RowSingleStrategy.apply;
    mkStrategy ColumnSingleStrategy.name ColumnSingleStrategy.apply;
    mkStrategy NakedPairColumnStrategy.name NakedPairColumnStrategy.apply;
    mkStrategy NakedPairRowStrategy.name NakedPairRowStrategy.apply;
    mkStrategy NakedPairSubgridStrategy.name NakedPairSubgridStrategy.apply;
    mkStrategy NakedTripletColumnStrategy.name NakedTripletColumnStrategy.apply;
    mkStrategy NakedTripletRowStrategy.name NakedTripletRowStrategy.apply;
    mkStrategy NakedTripletSubgridStrategy.name NakedTripletSubgridStrategy.apply ].

Record gstate := mkState {
  g_cells : grid;
  strategies_idx : nat;
  prev_changes : list pos;
  last_changes : list pos
}.

(** How the [while] loop can end: the [break] after "Puzzle solved!", or the
    caller answering "n" at the prompt. The code has no third way out. *)
Inductive signal := Solved | Stopped.

Definition filled_positions (cells : grid) : list pos :=
  List.filter (fun p => negb (unset cells p)) all_positions.

(** The body of the [while] loop up to the prompt. The boolean is [true]
    when the body leaves the loop through [break]. *)
Definition guided_iteration (st : gstate) : gstate * bool :=
  let strategy := nth (strategies_idx st) strateties (mkStrategy "" (fun g => (false, g))) in
  let before_filled := filled_positions (g_cells st) in
  let '(changed, cells) := apply strategy (g_cells st) in
  let after_filled := filled_positions cells in
  let last := List.filter (fun p => negb (existsb (pos_eqb p) before_filled)) after_filled in
  let cells := match last with
               | [] => cells
               | _ :: _ => remove_filled_candidates cells last
               end in
  if changed then (mkState cells (strategies_idx st) last last, false)
  else
    let idx := strategies_idx st + 1 in
    if length strateties <=? idx then
      (mkState cells 0 last last, isNone (find_empty cells))
    else (mkState cells idx last last, false).

(** The [while should_continue] loop against the caller's answers at the
    prompt ([true] for "y"). [None]: the loop is blocked at the prompt with
    no answer left. *)
Fixpoint guided_loop (answers : list bool) (st : gstate) : option signal * gstate :=
  let '(st', solved) := guided_iteration st in
  if solved then (Some Solved, st')
  else
    match answers with
    | [] => (None, st')
    | true :: rest => guided_loop rest st'
    | false :: _ => (Some Stopped, st')
    end.

Definition guided_solver (cells : grid) (answers : list bool) : option signal * gstate :=
  guided_loop answers (mkState (get_cell_candidates cells) 0 [] []).

(** * Vocabulary of the statements *)

(** ** Units and uniqueness *)

Definition row_unit (r : nat) : list pos := map (fun j => (r, j)) (range 0 9).
Definition col_unit (c : nat) : list pos := map (fun i => (i, c)) (range 0 9).
Definition block_unit (br bc : nat) : list pos := box br (br + 3) bc (bc + 3).

Definition rows : list (list pos) := map row_unit (range 0 9).
Definition columns : list (list pos) := map col_unit (range 0 9).
Definition blocks : list (list pos) :=
  flat_map (fun br => map (block_unit br) block_starts) block_starts.

Definition units : list (list pos) := rows ++ columns ++ blocks.

(** The cells [is_valid] looks at for position [p]. *)
Definition scan (p : pos) : list pos :=
  row_unit p.1 ++ col_unit p.2 ++ block_unit ((p.1 / 3) * 3) ((p.2 / 3) * 3).

Definition value_eq_dec (x y : option Z) : {x = y} + {x <> y}.
Proof. decide equality. apply Z.eq_dec. Defined.

(** How many cells of unit [u] hold the number [n]. *)
Definition occurrences (cells : grid) (u : list pos) (n : Z) : nat :=
  count_occ value_eq_dec (map (fun p => value (cell cells p)) u) (Some n).

(** Completely filled, and every row, column and block holds each of 1..9
    exactly once. *)
Definition solved_grid (cells : grid) : Prop :=
  (forall p, In p all_positions -> value (cell cells p) <> None) /\
  (forall u n, In u units -> In n digits -> occurrences cells u n = 1).

(** The uniqueness constraint on the resolved cells of a partial grid: values
    are in 1..9 and no unit holds a number twice. *)
Definition consistent (cells : grid) : Prop :=
  (forall p v, In p all_positions -> value (cell cells p) = Some v -> (1 <= v <= 9)%Z) /\
  (forall u n, In u units -> In n digits -> occurrences cells u n <= 1).

Definition consistentb (cells : grid) : bool :=
  forallb (fun p => match value (cell cells p) with
                    | Some v => (1 <=? v)%Z && (v <=? 9)%Z
                    | None => true
                    end) all_positions &&
  forallb (fun u => forallb (fun n => occurrences cells u n <=? 1) digits) units.

(** What [solve] may change between entry and exit. *)
Definition solve_frame (g : grid) (b : bool) (g' : grid) : Prop :=
  wf_grid g' /\
  (b = false -> g' = g) /\
  (forall p, given (cell g' p) = given (cell g p) /\
             candidates (cell g' p) = candidates (cell g p)) /\
  (forall p, value (cell g p) <> None -> value (cell g' p) = value (cell g p)).

(** Number of unresolved cells: what decreases along the recursion. *)
Definition count_empty (g : grid) : nat := length (List.filter (unset g) all_positions).


(** ** Sample puzzles *)

(** A puzzle with one solution. *)
Definition classic_puzzle : string :=
  "53..7....6..195....98....6.8...6...34..8.3..17...2...6.6....28....419..5....8..79".

(** The solution of [classic_puzzle] with the second clue overwritten by a
    second 5 in row 0 and the last cell left empty. *)
Definition twin_fives_puzzle : string :=
  "55467891267219534819834256785976142342685379171392485696153728428741963534528617.".

(** A filled grid with two 5s in row 0 and no empty cell. *)
Definition twin_fives_full : string :=
  "554678912672195348198342567859761423426853791713924856961537284287419635345286179".

(** The first empty cell, (0,8), has no valid number. *)
Definition dead_end_puzzle : string :=
  "12345678.........9...............................................................".

Definition empty_puzzle : string :=
  ".................................................................................".

(** [classic_puzzle] without its last two rows of clues: the guided session
    on it makes progress for 21 passes (singles and naked pairs), then no
    strategy changes the grid any more, with 43 cells still unresolved. *)
Definition stalling_puzzle : string :=
  "53..7....6..195....98....6.8...6...34..8.3..17...2...6.6....28...................".

(** [classic_puzzle] in guided mode after its first pass: candidates
    recomputed, then the single-candidate strategy, which fills (4,4),
    (6,5), (6,8) and (7,7). *)
Definition after_first_pass : grid :=
  snd (SingleCandidateStrategy.apply (get_cell_candidates (grid_of classic_puzzle))).

Definition first_pass_fills : list pos := [(4, 4); (6, 5); (6, 8); (7, 7)].

(** An unresolved cell whose candidate list holds 5 twice, next to a cell
    filled with 5. Not a state the program builds. *)
Definition doubled_candidate_grid : grid :=
  upd (upd (grid_of empty_puzzle) (0, 0) (set_value (Some 5%Z)))
      (0, 1) (set_candidates [5; 5; 7]%Z).


(** ** Completions and their order *)

(** [s] keeps every resolved cell of [g]. *)
Definition extends (g s : grid) : Prop :=
  forall p, In p all_positions -> value (cell g p) <> None ->
            value (cell s p) = value (cell g p).

(** A completion of the puzzle [g]: a solved grid that keeps its clues. *)
Definition completion (g s : grid) : Prop := extends g s /\ solved_grid s.

(** The 81 numbers of a grid in row-major order (0 for an empty cell). *)
Definition flat (cells : grid) : list Z :=
  map (fun p => match value (cell cells p) with Some v => v | None => 0%Z end)
      all_positions.

(** Lexicographic order on lists of numbers. *)
Fixpoint lex_leb (l1 l2 : list Z) : bool :=
  match l1, l2 with
  | [], _ => true
  | _ :: _, [] => false
  | x :: l1', y :: l2' => (x <? y)%Z || ((x =? y)%Z && lex_leb l1' l2')
  end.

Definition extendsb (g s : grid) : bool :=
  forallb (fun p => unset g p ||
                    (if value_eq_dec (value (cell s p)) (value (cell g p)) then true else false))
          all_positions.

Definition solved_gridb (cells : grid) : bool :=
  forallb (fun p => negb (unset cells p)) all_positions &&
  forallb (fun u => forallb (fun n => occurrences cells u n =? 1) digits) units.

(** [classic_puzzle]'s solution with four cells blanked so that two
    completions exist (6 7 / 7 6 or 7 6 / 6 7 in rows 0 and 3, columns 3
    and 4), and the second of the two. *)
Definition two_way_puzzle : string :=
  "534..8912672195348198342567859..1423426853791713924856961537284287419635345286179".

Definition two_way_second : string :=
  "534768912672195348198342567859671423426853791713924856961537284287419635345286179".

(** ** What a pass may do to the grid *)

(** Candidate lists only shrink and resolved cells keep their value. *)
Definition shrinks (g g' : grid) : Prop :=
  forall p, incl (candidates (cell g' p)) (candidates (cell g p)) /\
            (value (cell g p) <> None -> value (cell g' p) = value (cell g p)).

(** One or more loop steps of a pass: the grid shrinks, and a flag that is
    still false means that nothing at all was written. *)
Definition pass_step (acc acc' : bool * grid) : Prop :=
  shrinks (snd acc) (snd acc') /\
  (fst acc' = false -> fst acc = false /\ snd acc' = snd acc).

(** ** The hidden-single pass over a partition

    The three hidden-single [apply] functions differ only in the units they
    scan. [hidden_single_pass] is their common shape, one loop over the
    (unit, number) pairs of a partition with the test of the code
    ([wants]); the lemmas [SubgridSingle_refines], [RowSingle_refines] and
    [ColumnSingle_refines] show each [apply] equal to it. *)

(** The (unit, number) pairs in the order they are visited. *)
Definition schedule (partition : list (list pos)) : list (list pos * Z) :=
  flat_map (fun u => map (fun n => (u, n)) digits) partition.

Definition hidden_single_step (acc : bool * grid) (un : list pos * Z) : bool * grid :=
  let '(changed, cells) := acc in
  let '(u, n) := un in
  match List.filter (wants cells n) u with
  | [p] => (true, fill cells p n)
  | _ => (changed, cells)
  end.

(** The pass after the visits in [visited], from the state [acc]. *)
Definition hidden_single_run (visited : list (list pos * Z)) (acc : bool * grid)
  : bool * grid :=
  fold_left hidden_single_step visited acc.

Definition hidden_single_pass (partition : list (list pos)) (cells : grid) : bool * grid :=
  hidden_single_run (schedule partition) (false, cells).

(** The three hidden-single strategies, each with its partition. *)
Definition hidden_single_strategies : list ((grid -> bool * grid) * list (list pos)) :=
  [ (SubgridSingleStrategy.apply, blocks);
    (RowSingleStrategy.apply, rows);
    (ColumnSingleStrategy.apply, columns) ].

(** ** The hidden-single rule as the specification words it

    "For each of the 9 units in the given partition, and for each number
    1-9, if exactly one unresolved cell in that unit has the number among
    its candidates, that cell is filled with that number and its candidates
    cleared", units in ascending order, then numbers ascending. The
    definitions below are written from that sentence alone, as propositions
    on the grid, without the tests or the writes of the code. *)

(** "an unresolved cell [that] has the number among its candidates" *)
Definition lists_number (g : grid) (n : Z) (p : pos) : Prop :=
  value (cell g p) = None /\ In n (candidates (cell g p)).

(** "exactly one unresolved cell in that unit has the number among its
    candidates", and [p] is that cell. *)
Definition the_only (g : grid) (u : list pos) (n : Z) (p : pos) : Prop :=
  In p u /\ lists_number g n p /\ forall q, In q u -> lists_number g n q -> q = p.

(** "that cell is filled with that number and its candidates cleared"; the
    other cells are as they were. *)
Definition filled_with (h : grid) (p : pos) (n : Z) (h' : grid) : Prop :=
  value (cell h' p) = Some n /\ candidates (cell h' p) = [] /\
  forall q, q <> p -> cell h' q = cell h q.

(** The rule along a list of (unit, number) visits, from the grid [h] to
    the grid [h'], with the fills it made, in order. Each visit reads the
    grid as the visits before it left it. *)
Inductive rule_pass : list (list pos * Z) -> grid -> list (pos * Z) -> grid -> Prop :=
| rule_done h : rule_pass [] h [] h
| rule_fill u n visits h p h1 fills h' :
    the_only h u n p -> filled_with h p n h1 -> rule_pass visits h1 fills h' ->
    rule_pass ((u, n) :: visits) h ((p, n) :: fills) h'
| rule_skip u n visits h fills h' :
    (forall p, ~ the_only h u n p) -> rule_pass visits h fills h' ->
    rule_pass ((u, n) :: visits) h fills h'.

(** ** A candidate grid with a naked pair in two blocks *)

Definition with_candidates (l : list (pos * list Z)) (g : grid) : grid :=
  fold_left (fun g e => upd g (fst e) (set_candidates (snd e))) l g.

(** All cells unresolved; block (0,0) has the pair {1,2} at (0,0), (0,1) and
    a third cell with candidates {1,3}; block (0,3) has the pair {4,5} at
    (0,3), (0,4) and a third cell with candidates {4,6}. *)
Definition two_pairs_grid : grid :=
  with_candidates
    [ ((0, 0), [1; 2]%Z); ((0, 1), [1; 2]%Z); ((0, 2), [1; 3]%Z);
      ((0, 3), [4; 5]%Z); ((0, 4), [4; 5]%Z); ((0, 5), [4; 6]%Z) ]
    (grid_of empty_puzzle).

(** The top-left corners of the nine blocks, in scan order. *)
Definition block_corners : list (nat * nat) :=
  flat_map (fun br => map (fun bc => (br, bc)) block_starts) block_starts.

(** ** Propagation: settled positions *)

(** A candidate list stands for a set: no number twice. Every list the
    program builds is of this kind ([get_cell_candidates] filters
    [range(1, 10)], the strategies filter or clear). *)
Fixpoint distinctZ (l : list Z) : bool :=
  match l with
  | [] => true
  | x :: l' => negb (mem x l') && distinctZ l'
  end.

Definition candidate_sets (g : grid) : Prop :=
  forall q, In q all_positions -> NoDup (candidates (cell g q)).

Definition candidate_setsb (g : grid) : bool :=
  forallb (fun q => distinctZ (candidates (cell g q))) all_positions.

(** The state kept along the propagation loops: a well-formed grid of
    candidate sets. *)
Definition tidy (g : grid) : Prop := wf_grid g /\ candidate_sets g.

(** Values untouched, candidate lists only shrink. *)
Definition prunes (g g' : grid) : Prop :=
  forall q, value (cell g' q) = value (cell g q) /\
            incl (candidates (cell g' q)) (candidates (cell g q)).

(** The number [val] is no longer a candidate of the unresolved cell [q]. *)
Definition cleared (val : option Z) (q : pos) (g : grid) : Prop :=
  forall v, val = Some v -> unset g q = true -> mem v (candidates (cell g q)) = false.

(** Nothing is left to propagate from [p]: its own list is empty and its
    value is a candidate of none of the unresolved cells that
    [remove_filled_candidates] visits for it. *)
Definition settled (g : grid) (p : pos) : Prop :=
  candidates (cell g p) = [] /\
  forall q, In q (scan p) -> cleared (value (cell g p)) q g.

(** ** Puzzle text: vocabulary *)

(** The characters of the puzzle once the bars are dropped. *)
Definition puzzle_chars (puzzle : text) : text := strip_bars puzzle.

(** The characters [sudoku] accepts for a cell. *)
Definition cell_chars : text := text_of "123456789.0".

(** A cell as the parser builds it: empty, or a clue 1..9 flagged given;
    no candidates either way. *)
Definition parsed_cell (x : Cell) : Prop :=
  x = blank \/ exists d, (1 <= d <= 9)%Z /\ x = mkCell (Some d) true [].

(** ** Constraint checker and search: vocabulary *)

(** [q] is in the row, the column or the block of [p] (and inside the grid). *)
Definition sees (p q : pos) : Prop :=
  q.1 < 9 /\ q.2 < 9 /\
  (q.1 = p.1 \/ q.2 = p.2 \/ (q.1 / 3 = p.1 / 3 /\ q.2 / 3 = p.2 / 3)).

(** Position of a cell in the row-major scan. *)
Definition row_major (p : pos) : nat := 9 * p.1 + p.2.

(** No other cell of the row, column or block of [p] holds the value of [p]. *)
Definition clash_free (g : grid) (p : pos) : Prop :=
  forall q, In q (scan p) -> q <> p -> value (cell g q) <> value (cell g p).

(** The solution of [classic_puzzle], as a puzzle text of 81 clues. *)
Definition classic_solution : string :=
  "534678912672195348198342567859761423426853791713924856961537284287419635345286179".

(** ** Candidate engine: vocabulary *)

(** The candidate list [get_cell_candidates] gives an unresolved cell. *)
Definition valid_digits (g : grid) (p : pos) : list Z :=
  List.filter (fun n => is_valid g n p) digits.

(** The body of the double loop of [get_cell_candidates]. *)
Definition recompute_at (cells : grid) (p : pos) : grid :=
  if unset cells p
  then upd cells p (set_candidates (List.filter (fun n => is_valid cells n p) digits))
  else cells.

(** The cell [get_cell_candidates] leaves at [p]. *)
Definition recomputed (g : grid) (p : pos) : Cell :=
  if unset g p then set_candidates (valid_digits g p) (cell g p) else cell g p.

(** ** Propagation as a sequence of cell writes *)

(** [peer.candidates.remove(val)] under its guard, as a function of the
    peer cell. *)
Definition drop_cell (val : option Z) (x : Cell) : Cell :=
  match val with
  | Some v =>
      if isNone (value x) && mem v (candidates x)
      then set_candidates (remove_first v (candidates x)) x
      else x
  | None => x
  end.

(** The same on a candidate set: [val] is no candidate of an unresolved
    cell any more. *)
Definition prune_cell (val : option Z) (x : Cell) : Cell :=
  match val with
  | Some v =>
      if isNone (value x)
      then set_candidates (List.filter (fun n => negb (n =? v)%Z) (candidates x)) x
      else x
  | None => x
  end.

(** The peers [remove_filled_candidates] visits for [p], in its order: row
    and column interleaved, then the block. *)
Definition visited (p : pos) : list pos :=
  flat_map (fun k => [(p.1, k); (k, p.2)]) (range 0 9) ++
  box ((p.1 / 3) * 3) ((p.1 / 3) * 3 + 3) ((p.2 / 3) * 3) ((p.2 / 3) * 3 + 3).

(** A run of in-place writes, and what it does to one cell. *)
Definition apply_ops (ops : list (pos * (Cell -> Cell))) (h : grid) : grid :=
  fold_left (fun h e => upd h (fst e) (snd e)) ops h.

Definition cell_ops (ops : list (pos * (Cell -> Cell))) (q : pos) (x : Cell) : Cell :=
  fold_left (fun x e => if pos_eqb (fst e) q then snd e x else x) ops x.

Definition propagate_ops (val : option Z) (p : pos) : list (pos * (Cell -> Cell)) :=
  (p, set_candidates []) :: map (fun q => (q, drop_cell val)) (visited p).

(** What the propagation from [p], which holds [val], does to the cell at
    [q]. *)
Definition propagated (val : option Z) (p q : pos) (x : Cell) : Cell :=
  if pos_eqb p q then set_candidates [] x
  else if mem_pos q (scan p) then prune_cell val x
  else x.

(** The cell at [q] after the propagation from every position of [filled],
    the values being read in [g]. *)
Definition propagated_all (g : grid) (filled : list pos) (q : pos) (x : Cell) : Cell :=
  fold_left (fun x p => propagated (value (cell g p)) p q x) filled x.

(** ** Strategy passes: what they keep and when they report a change *)

(** What no strategy pass breaks: the 9x9 shape, every resolved cell (the
    whole cell), the absence of a given flag, candidate lists being sets and
    not growing. *)
Definition careful (g g' : grid) : Prop :=
  (wf_grid g -> wf_grid g') /\
  (forall q, value (cell g q) <> None -> cell g' q = cell g q) /\
  (forall q, given (cell g' q) = true -> given (cell g q) = true) /\
  (forall q, NoDup (candidates (cell g q)) -> NoDup (candidates (cell g' q))) /\
  (forall q, length (candidates (cell g' q)) <= length (candidates (cell g q))).

(** Some cell was filled or lost a candidate. *)
Definition progress (g g' : grid) : Prop :=
  exists q, (value (cell g q) = None /\ value (cell g' q) <> None) \/
            length (candidates (cell g' q)) < length (candidates (cell g q)).

Definition pass_rel (acc acc' : bool * grid) : Prop :=
  careful (snd acc) (snd acc') /\
  (fst acc' = true -> fst acc = true \/ progress (snd acc) (snd acc')).

(** ** Guided session: what holds at every prompt *)

(** The state of a guided session started on the grid [g0]: a 9x9 grid of
    candidate sets, a strategy index inside the list, every clue of [g0]
    still in place and no new given flag. *)
Definition session_ok (g0 : grid) (st : gstate) : Prop :=
  wf_grid (g_cells st) /\ candidate_sets (g_cells st) /\
  strategies_idx st < length strateties /\
  (forall q, In q all_positions -> value (cell g0 q) <> None ->
             value (cell (g_cells st) q) = value (cell g0 q)) /\
  (forall q, In q all_positions -> given (cell (g_cells st) q) = true ->
             given (cell g0 q) = true).

(** ** Detection of singles, pairs and triplets: vocabulary *)

(** An unresolved cell with exactly one candidate. *)
Definition naked_single (g : grid) (p : pos) : bool :=
  unset g p && (length (candidates (cell g p)) =? 1).

(** The cell the single-candidate pass leaves at [p]. *)
Definition single_filled (g : grid) (p : pos) : Cell :=
  if naked_single g p
  then mkCell (Some (hd 0%Z (candidates (cell g p)))) false (candidates (cell g p))
  else cell g p.

(** Two candidate lists with the same members. *)
Definition same_set (c1 c2 : list Z) : Prop := forall x, In x c1 <-> In x c2.

(** * Display and entry point

    The display functions are modelled by the lines they hand to
    [console.print], in order; the markup is part of the text. *)

(** [str(n)] on an int. *)
Definition str (n : Z) : string := NilZero.string_of_int (Z.to_int n).

(** [sep.join(parts)] *)
Fixpoint str_join (sep : string) (parts : list string) : string :=
  match parts with
  | [] => ""%string
  | s :: rest =>
      match rest with
      | [] => s
      | _ :: _ => (s ++ sep ++ str_join sep rest)%string
      end
  end.

(** ["-" * n] *)
Definition dashes (n : nat) : string := string_of_list_ascii (repeat "-"%char n).

(** The [parts] of row [i]: a bar before the columns 3 and 6, then the text
    of each cell. *)
Definition row_parts (part : pos -> Cell -> string) (cells : grid) (i : nat)
  : list string :=
  flat_map (fun j => (if (0 <? j) && (j mod 3 =? 0) then ["|"%string] else [])
                     ++ [part (i, j) (cell cells (i, j))])
           (range 0 9).

Definition plain_part (coord : pos) (x : Cell) : string :=
  match value x with
  | Some v => if given x then ("[red]" ++ str v ++ "[/]")%string else str v
  | None => "."%string
  end.

(** [display_grid]. The separator test stands after the row loop, not in
    it: it runs once, with [i] and [parts] as the last row left them. *)
Definition display_grid (cells : grid) : list string :=
  map (fun i => str_join " " (row_parts plain_part cells i)) (range 0 9)
  ++ (let i := 8 in
      if (i <? 8) && ((i + 1) mod 3 =? 0)
      then [dashes (2 * length (row_parts plain_part cells i) - 1)]
      else []).

Definition guided_part (last_changes prev_changes : list pos) (coord : pos) (x : Cell)
  : string :=
  match value x with
  | Some v =>
      if given x then ("[red]" ++ str v ++ "[/]")%string
      else if mem_pos coord last_changes then ("[green]" ++ str v ++ "[/]")%string
      else if mem_pos coord prev_changes then ("[blue]" ++ str v ++ "[/]")%string
      else str v
  | None => "."%string
  end.

(** [display_grid_guided]; an argument left out ([None]) is the empty set. *)
Definition display_grid_guided (cells : grid) (last_changes prev_changes : list pos)
  : list string :=
  flat_map (fun i =>
              let parts := row_parts (guided_part last_changes prev_changes) cells i in
              str_join " " parts ::
              (if (i <? 8) && ((i + 1) mod 3 =? 0)
               then [dashes (2 * length parts - 1)] else []))
           (range 0 9).

(** The grid lines one turn of the guided loop prints: the grid after the
    pass and the propagation, with the cells this pass filled and those the
    pass before it filled. *)
Definition guided_display (st : gstate) : list string :=
  let st' := fst (guided_iteration st) in
  display_grid_guided (g_cells st') (last_changes st') (prev_changes st).

(** How a run of [sudoku] ends. [guided_solver] leaves through
    [sys.exit(0)], so in guide mode nothing after its call runs. *)
Inductive outcome :=
| ExitError (e : parse_error)                 (* message, then [sys.exit(1)] *)
| GuidedExit (s : signal) (st : gstate)       (* [sys.exit(0)] in [guided_solver] *)
| AtPrompt (st : gstate)                      (* waiting for the next answer *)
| Printed (lines : list string).              (* plain mode: the lines printed *)

Definition solved_header : string := "[green]Solved puzzle:[/]".
Definition no_solution_line : string := "[red]No solution found for the given puzzle.[/]".

(** [sudoku(guide, puzzle)], with the answers given at the prompts of the
    guided mode. [None] only if the search ran out of fuel. *)
Definition sudoku (guide : bool) (puzzle : text) (answers : list bool) : option outcome :=
  match sudoku_cells puzzle with
  | inl e => Some (ExitError e)
  | inr cells =>
      if guide then
        match guided_solver cells answers with
        | (Some s, st) => Some (GuidedExit s st)
        | (None, st) => Some (AtPrompt st)
        end
      else
        match solve cells with
        | Some (true, cells') => Some (Printed (solved_header :: display_grid cells'))
        | Some (false, _) => Some (Printed [no_solution_line])
        | None => None
        end
  end.

(** The state in which the guided session on [classic_puzzle] starts. *)
Definition classic_start : gstate :=
  mkState (get_cell_candidates (grid_of classic_puzzle)) 0 [] [].

(** ** Soundness of the guided deductions: vocabulary *)

(** The grid [g] is on the way to the solution [s]: every value it holds is
    the one [s] has there, and every unresolved cell still lists the number
    [s] has there among its candidates. *)
Definition on_track (s g : grid) : Prop :=
  forall p, In p all_positions ->
    match value (cell g p) with
    | Some v => value (cell s p) = Some v
    | None => exists v, value (cell s p) = Some v /\ In v (candidates (cell g p))
    end.

(** No unresolved cell lists the value of a cell of its row, column or
    block. *)
Definition pruned (g : grid) : Prop :=
  forall p q v, In p all_positions -> sees p q ->
    value (cell g p) = None -> value (cell g q) = Some v ->
    ~ In v (candidates (cell g p)).

(** Where the number [n] stands in the unit [u], no cell of [u] asks for it. *)
Definition unit_pruned (h : grid) (u : list pos) (n : Z) : Prop :=
  forall y p, In y u -> In p u -> value (cell h y) = Some n -> wants h n p = false.

(** No cell of a unit of the list is in a later unit of the list. *)
Fixpoint apart (us : list (list pos)) : bool :=
  match us with
  | [] => true
  | u :: us' =>
      forallb (fun p => forallb (fun u' => negb (mem_pos p u')) us') u && apart us'
  end.

(** The state of a guided session on a puzzle with the solution [s]. *)
Definition session_on_track (s : grid) (st : gstate) : Prop :=
  wf_grid (g_cells st) /\ candidate_sets (g_cells st) /\
  strategies_idx st < length strateties /\
  on_track s (g_cells st) /\ pruned (g_cells st).

(** * Properties *)

(** ** Reading and writing the grid *)

Lemma wf_gridb_spec (cells : grid) : wf_gridb cells = true -> wf_grid cells.
Proof.
  unfold wf_gridb. rewrite andb_true_iff, Nat.eqb_eq, forallb_forall.
  intros [Hlen Hrows]. split; [assumption|]. apply Forall_forall.
  intros row Hrow. now apply Nat.eqb_eq, Hrows.
Qed.

Ltac wf_tac := apply wf_gridb_spec; vm_compute; reflexivity.

Section GridAccess.

Implicit Types (g : grid) (p q : pos) (f : Cell -> Cell).

Lemma in_range a b i : In i (range a b) <-> a <= i < b.
Proof. unfold range. rewrite in_seq. lia. Qed.

Lemma in_box r0 r1 c0 c1 p :
  In p (box r0 r1 c0 c1) <-> (r0 <= p.1 < r1) /\ (c0 <= p.2 < c1).
Proof.
  unfold box. rewrite in_flat_map. split.
  - intros (i & Hi & Hp). apply in_map_iff in Hp as (j & <- & Hj).
    apply in_range in Hi, Hj. simpl. lia.
  - intros [Hr Hc]. exists p.1. split; [now apply in_range|].
    apply in_map_iff. exists p.2. split; [now destruct p|now apply in_range].
Qed.

Lemma in_all_positions p : In p all_positions <-> p.1 < 9 /\ p.2 < 9.
Proof. unfold all_positions. rewrite in_box. lia. Qed.

Lemma for_box_fold {A} r0 r1 c0 c1 (body : A -> pos -> A) init :
  for_box r0 r1 c0 c1 body init = fold_left body (box r0 r1 c0 c1) init.
Proof.
  unfold for_box, box. generalize (range r0 r1) as rows. intros rows. revert init.
  induction rows as [|i rows IH]; intros init; simpl; [reflexivity|].
  rewrite fold_left_app, <- IH. f_equal.
  generalize (range c0 c1) as cols. intros cols. revert init.
  induction cols as [|j cols IHc]; intros init; simpl; auto.
Qed.

Lemma wf_row g i : wf_grid g -> i < 9 -> exists row, g !! i = Some row /\ length row = 9.
Proof.
  intros [Hlen Hrows] Hi.
  destruct (lookup_lt_is_Some_2 g i) as [row Hrow]; [lia|].
  exists row. split; [assumption|].
  rewrite Forall_forall in Hrows. apply Hrows. apply list_elem_of_In.
  eapply list_elem_of_lookup_2. eassumption.
Qed.

Lemma wf_cell g p :
  wf_grid g -> p.1 < 9 -> p.2 < 9 ->
  exists row, g !! p.1 = Some row /\ row !! p.2 = Some (cell g p).
Proof.
  intros Hwf H1 H2. destruct (wf_row g p.1 Hwf H1) as (row & Hrow & Hlen).
  exists row. split; [assumption|]. unfold cell. rewrite Hrow.
  destruct (lookup_lt_is_Some_2 row p.2) as [x Hx]; [lia|]. now rewrite Hx.
Qed.

Lemma wf_upd g p f : wf_grid g -> wf_grid (upd g p f).
Proof.
  intros [Hlen Hrows]. split.
  - unfold upd. now rewrite length_alter.
  - unfold upd. apply Forall_alter; [assumption|].
    intros row _ Hrow. now rewrite length_alter.
Qed.

Lemma cell_upd_same g p f :
  wf_grid g -> p.1 < 9 -> p.2 < 9 -> cell (upd g p f) p = f (cell g p).
Proof.
  intros Hwf H1 H2. destruct (wf_cell g p Hwf H1 H2) as (row & Hrow & Hx).
  unfold cell at 1. unfold upd.
  rewrite list_lookup_alter_eq, Hrow. simpl.
  now rewrite list_lookup_alter_eq, Hx.
Qed.

Lemma cell_upd_other g p q f : p <> q -> cell (upd g p f) q = cell g q.
Proof.
  intros Hne. unfold cell, upd.
  destruct (decide (p.1 = q.1)) as [E1|N1].
  - rewrite E1, list_lookup_alter_eq.
    destruct (g !! q.1) as [row|]; simpl; [|reflexivity].
    rewrite list_lookup_alter_ne; [reflexivity|].
    intros E2. apply Hne. destruct p, q; simpl in *; congruence.
  - now rewrite list_lookup_alter_ne.
Qed.

Lemma upd_id g p f : f (cell g p) = cell g p -> upd g p f = g.
Proof.
  intros Hf. unfold upd. apply list_eq. intros i.
  rewrite list_lookup_alter. case_decide as Hi; [|reflexivity]. subst i.
  unfold cell in Hf. destruct (g !! p.1) as [row|]; simpl; [|reflexivity].
  f_equal. apply list_eq. intros j.
  rewrite list_lookup_alter. case_decide as Hj; [|reflexivity]. subst j.
  destruct (row !! p.2) as [x|]; simpl; [|reflexivity]. now f_equal.
Qed.

Lemma upd_upd g p f h : upd (upd g p f) p h = upd g p (fun x => h (f x)).
Proof.
  unfold upd. rewrite list_alter_alter_eq. apply list_alter_ext; [|reflexivity].
  intros row _. simpl. now rewrite list_alter_alter_eq.
Qed.

(** Two well-formed grids with the same 81 cells are the same grid. *)
Lemma grid_ext g1 g2 :
  wf_grid g1 -> wf_grid g2 ->
  (forall p, In p all_positions -> cell g1 p = cell g2 p) -> g1 = g2.
Proof.
  intros Hwf1 Hwf2 Hcells. apply list_eq. intros i.
  destruct (decide (i < 9)) as [Hi|Hi].
  - destruct (wf_row g1 i Hwf1 Hi) as (r1 & Hr1 & Hl1).
    destruct (wf_row g2 i Hwf2 Hi) as (r2 & Hr2 & Hl2).
    rewrite Hr1, Hr2. f_equal. apply list_eq. intros j.
    destruct (decide (j < 9)) as [Hj|Hj].
    + specialize (Hcells (i, j)). unfold cell in Hcells. simpl in Hcells.
      rewrite Hr1, Hr2 in Hcells.
      destruct (lookup_lt_is_Some_2 r1 j) as [x1 Hx1]; [lia|].
      destruct (lookup_lt_is_Some_2 r2 j) as [x2 Hx2]; [lia|].
      rewrite Hx1, Hx2 in *. f_equal. apply Hcells. apply in_all_positions. simpl. lia.
    + rewrite !lookup_ge_None_2; [reflexivity|lia|lia].
  - destruct Hwf1 as [L1 _], Hwf2 as [L2 _].
    rewrite !lookup_ge_None_2; [reflexivity|lia|lia].
Qed.

(** A loop invariant that only depends on the elements visited. *)
Lemma fold_left_inv {A B} (P : A -> Prop) (f : A -> B -> A) (l : list B) (a : A) :
  P a -> (forall a x, In x l -> P a -> P (f a x)) -> P (fold_left f l a).
Proof.
  revert a. induction l as [|x l IH]; intros a Ha Hstep; simpl; [assumption|].
  apply IH; [apply Hstep; [now left|assumption]|].
  intros a' y Hy. apply Hstep. now right.
Qed.

End GridAccess.

(** ** The backtracking solver: frame and termination *)

Section SolverFrame.

Implicit Types (g : grid) (p q : pos).

Lemma find_split {A} (f : A -> bool) (l : list A) (x : A) :
  List.find f l = Some x ->
  exists l1 l2, l = l1 ++ x :: l2 /\ f x = true /\ forall y, In y l1 -> f y = false.
Proof.
  induction l as [|a l IH]; simpl; [discriminate|].
  destruct (f a) eqn:Ha.
  - intros [= ->]. exists [], l. repeat split; [assumption|intros y []].
  - intros Hx. destruct (IH Hx) as (l1 & l2 & -> & Hfx & Hl1).
    exists (a :: l1), l2. repeat split; [assumption|].
    intros y [<-|Hy]; [assumption|now apply Hl1].
Qed.

Lemma find_empty_Some g p :
  find_empty g = Some p -> In p all_positions /\ value (cell g p) = None.
Proof.
  intros H. apply find_some in H as [Hin Hu]. split; [assumption|].
  unfold unset in Hu. now destruct (value (cell g p)).
Qed.

Lemma find_empty_None g p :
  find_empty g = None -> In p all_positions -> value (cell g p) <> None.
Proof.
  intros H Hin Hv. pose proof (find_none _ _ H p Hin) as Hu.
  unfold unset in Hu. now rewrite Hv in Hu.
Qed.

Lemma solve_frame_refl g b : wf_grid g -> solve_frame g b g.
Proof. intros Hwf. split; [assumption|]. repeat split; auto. Qed.

Lemma undo_set_value g p v :
  value (cell g p) = None ->
  upd (upd g p (set_value (Some v))) p (set_value None) = g.
Proof.
  intros Hv. rewrite upd_upd. apply upd_id.
  destruct (cell g p) as [val gv cs]. simpl in *. now subst.
Qed.

Lemma set_value_frame g p v :
  wf_grid g -> In p all_positions -> value (cell g p) = None ->
  (forall q, given (cell (upd g p (set_value v)) q) = given (cell g q) /\
             candidates (cell (upd g p (set_value v)) q) = candidates (cell g q)) /\
  (forall q, value (cell g q) <> None ->
             value (cell (upd g p (set_value v)) q) = value (cell g q)).
Proof.
  intros Hwf Hin Hv. apply in_all_positions in Hin as [H1 H2]. split; intros q.
  - destruct (decide (p = q)) as [<-|Hne].
    + rewrite cell_upd_same by assumption. now split.
    + rewrite cell_upd_other by assumption. now split.
  - intros Hq. destruct (decide (p = q)) as [<-|Hne]; [congruence|].
    now rewrite cell_upd_other.
Qed.

Lemma solve_fuel_S n g :
  solve_fuel (S n) g =
  match find_empty g with
  | None => Some (true, g)
  | Some p => solve_loop (solve_fuel n) p digits g
  end.
Proof. reflexivity. Qed.

Lemma solve_fuel_frame n :
  forall g b g', wf_grid g -> solve_fuel n g = Some (b, g') -> solve_frame g b g'.
Proof.
  induction n as [|n IH]; intros g b g' Hwf; [discriminate|].
  rewrite solve_fuel_S. destruct (find_empty g) as [p|] eqn:Hfe.
  2:{ intros [= <- <-]. now apply solve_frame_refl. }
  apply find_empty_Some in Hfe as [Hin Hv].
  generalize digits as nums. intros nums. induction nums as [|num nums IHn]; simpl.
  { intros [= <- <-]. now apply solve_frame_refl. }
  destruct (is_valid g num p); [|exact IHn].
  destruct (solve_fuel n (upd g p (set_value (Some num)))) as [[b1 g1]|] eqn:Hrec;
    [destruct b1|discriminate].
  - intros [= <- <-].
    destruct (IH _ _ _ (wf_upd g p _ Hwf) Hrec) as (Hwf1 & _ & Hgc & Hval).
    destruct (set_value_frame g p (Some num) Hwf Hin Hv) as [Hgc0 Hval0].
    split; [assumption|]. split; [discriminate|]. split.
    + intros q. rewrite (proj1 (Hgc q)), (proj2 (Hgc q)). apply Hgc0.
    + intros q Hq. rewrite Hval; rewrite Hval0; congruence.
  - destruct (IH _ _ _ (wf_upd g p _ Hwf) Hrec) as (_ & Hsame & _).
    rewrite (Hsame eq_refl), undo_set_value by assumption. exact IHn.
Qed.

Lemma filter_length_lt {A} (f f' : A -> bool) (l : list A) (x : A) :
  In x l -> f x = true -> f' x = false ->
  (forall y, In y l -> f' y = true -> f y = true) ->
  length (List.filter f' l) < length (List.filter f l).
Proof.
  intros Hin Hfx Hf'x Himp.
  assert (Hle : forall l0, (forall y, In y l0 -> f' y = true -> f y = true) ->
                 length (List.filter f' l0) <= length (List.filter f l0)).
  { induction l0 as [|a l0 IH0]; intros Hi; simpl; [lia|].
    specialize (IH0 (fun y Hy => Hi y (or_intror Hy))).
    destruct (f' a) eqn:Ha'.
    - rewrite (Hi a (or_introl eq_refl) Ha'). simpl. lia.
    - destruct (f a); simpl; lia. }
  induction l as [|a l IH]; [destruct Hin|]. simpl.
  destruct Hin as [->|Hin].
  - rewrite Hfx, Hf'x. simpl.
    specialize (Hle l (fun y Hy => Himp y (or_intror Hy))). lia.
  - specialize (IH Hin (fun y Hy => Himp y (or_intror Hy))).
    destruct (f' a) eqn:Ha'.
    + rewrite (Himp a (or_introl eq_refl) Ha'). simpl. lia.
    + destruct (f a); simpl; lia.
Qed.

Lemma count_empty_set g p v :
  wf_grid g -> In p all_positions -> value (cell g p) = None ->
  count_empty (upd g p (set_value (Some v))) < count_empty g.
Proof.
  intros Hwf Hin Hv. unfold count_empty.
  pose proof Hin as Hin'. apply in_all_positions in Hin' as [H1 H2].
  apply filter_length_lt with (x := p); try assumption.
  - unfold unset. now rewrite Hv.
  - unfold unset. now rewrite cell_upd_same.
  - intros q _. unfold unset. destruct (decide (p = q)) as [<-|Hne].
    + now rewrite cell_upd_same.
    + now rewrite cell_upd_other.
Qed.

Lemma count_empty_le g : count_empty g <= 81.
Proof. unfold count_empty. etransitivity; [apply filter_length_le|]. reflexivity. Qed.

Lemma solve_fuel_total n :
  forall g, wf_grid g -> count_empty g < n -> exists b g', solve_fuel n g = Some (b, g').
Proof.
  induction n as [|n IH]; intros g Hwf Hn; [lia|]. rewrite solve_fuel_S.
  destruct (find_empty g) as [p|] eqn:Hfe; [|eauto].
  apply find_empty_Some in Hfe as [Hin Hv].
  generalize digits as nums. intros nums. induction nums as [|num nums IHn]; simpl; [eauto|].
  destruct (is_valid g num p); [|exact IHn].
  pose proof (count_empty_set g p num Hwf Hin Hv) as Hlt.
  destruct (IH (upd g p (set_value (Some num))) (wf_upd _ _ _ Hwf)) as (b & g1 & Hrec); [lia|].
  rewrite Hrec. destruct b; [eauto|].
  destruct (solve_fuel_frame _ _ _ _ (wf_upd g p _ Hwf) Hrec) as (_ & Hsame & _).
  rewrite (Hsame eq_refl), undo_set_value by assumption. exact IHn.
Qed.

(** [solve] always returns on a well-formed grid. *)
Lemma solve_total g : wf_grid g -> exists b g', solve g = Some (b, g').
Proof.
  intros Hwf. apply solve_fuel_total; [assumption|].
  pose proof (count_empty_le g). lia.
Qed.

End SolverFrame.

(** C7: [solve] returns, touches nothing but [value] fields (every cell keeps
    its [given] flag and its candidate list), and when it returns false the
    grid is exactly the grid it was given: every tentative value has been
    reset to unset. *)
Theorem solve_mutates_values_only (g : grid) :
  wf_grid g ->
  exists b g',
    solve g = Some (b, g') /\
    (forall p, given (cell g' p) = given (cell g p) /\
               candidates (cell g' p) = candidates (cell g p)) /\
    (b = false -> g' = g).
Proof.
  intros Hwf. destruct (solve_total g Hwf) as (b & g' & Hs).
  exists b, g'. split; [assumption|].
  destruct (solve_fuel_frame _ _ _ _ Hwf Hs) as (_ & Hsame & Hgc & _).
  now split.
Qed.

Lemma solve_mutates_values_only_witness :
  wf_grid (grid_of dead_end_puzzle) /\
  exists b g',
    solve (grid_of dead_end_puzzle) = Some (b, g') /\
    (forall p, given (cell g' p) = given (cell (grid_of dead_end_puzzle) p) /\
               candidates (cell g' p) = candidates (cell (grid_of dead_end_puzzle) p)) /\
    (b = false -> g' = grid_of dead_end_puzzle).
Proof.
  split; [wf_tac|]. apply solve_mutates_values_only. wf_tac.
Defined.

(** ** The backtracking solver: soundness *)

Section Units.

(** Facts about the 27 units, checked by enumeration. *)

Lemma pos_eqb_eq p q : pos_eqb p q = true <-> p = q.
Proof.
  unfold pos_eqb. rewrite andb_true_iff, !Nat.eqb_eq.
  destruct p, q; simpl. split; [intros []; congruence|intros [= -> ->]; auto].
Qed.

Lemma mem_pos_In q l : mem_pos q l = true <-> In q l.
Proof.
  unfold mem_pos. rewrite existsb_exists. split.
  - intros (x & Hx & He). apply pos_eqb_eq in He. now subst.
  - intros H. exists q. split; [assumption|now apply pos_eqb_eq].
Qed.

Lemma distinct_NoDup l : distinct l = true -> NoDup l.
Proof.
  induction l as [|p l IH]; simpl; [constructor|].
  intros H. apply andb_true_iff in H as [Hp Hl]. constructor; [|auto].
  intros Hin. apply mem_pos_In in Hin. now rewrite Hin in Hp.
Qed.

Lemma units_NoDup u : In u units -> NoDup u.
Proof.
  assert (H : forallb distinct units = true) by (vm_compute; reflexivity).
  rewrite forallb_forall in H. intros Hu. now apply distinct_NoDup, H.
Qed.

Lemma units_length u : In u units -> length u = 9.
Proof.
  assert (H : forallb (fun u : list pos => length u =? 9) units = true) by reflexivity.
  rewrite forallb_forall in H. intros Hu. now apply Nat.eqb_eq, H.
Qed.

Lemma units_positions u p : In u units -> In p u -> In p all_positions.
Proof.
  assert (H : forallb (fun u => forallb (fun p => mem_pos p all_positions) u) units = true)
    by (vm_compute; reflexivity).
  rewrite forallb_forall in H. intros Hu Hp.
  specialize (H u Hu). rewrite forallb_forall in H. now apply mem_pos_In, H.
Qed.

(** Two cells of one unit see each other in [is_valid]. *)
Lemma units_scan u p q : In u units -> In p u -> In q u -> In q (scan p).
Proof.
  assert (H : forallb (fun u => forallb (fun p => forallb (fun q => mem_pos q (scan p)) u) u)
                      units = true) by (vm_compute; reflexivity).
  rewrite forallb_forall in H. intros Hu Hp Hq.
  specialize (H u Hu). rewrite forallb_forall in H.
  specialize (H p Hp). rewrite forallb_forall in H. now apply mem_pos_In, H.
Qed.

(** Conversely, a cell that [is_valid] looks at shares a unit with [p]. *)
Lemma scan_units p q :
  In p all_positions -> In q (scan p) ->
  exists u, In u units /\ In p u /\ In q u.
Proof.
  assert (H : forallb (fun p => forallb (fun q =>
                existsb (fun u => mem_pos p u && mem_pos q u) units) (scan p))
                all_positions = true) by (vm_compute; reflexivity).
  rewrite forallb_forall in H. intros Hp Hq.
  specialize (H p Hp). rewrite forallb_forall in H. specialize (H q Hq).
  apply existsb_exists in H as (u & Hu & Hpq). apply andb_true_iff in Hpq as [H1 H2].
  exists u. repeat split; [assumption|now apply mem_pos_In..].
Qed.

(** Every cell lies in some unit (its row). *)
Lemma position_unit p : In p all_positions -> exists u, In u units /\ In p u.
Proof.
  assert (H : forallb (fun p => existsb (fun u => mem_pos p u) units) all_positions = true)
    by (vm_compute; reflexivity).
  rewrite forallb_forall in H. intros Hp. specialize (H p Hp).
  apply existsb_exists in H as (u & Hu & Hpu). exists u. split; [assumption|].
  now apply mem_pos_In.
Qed.

End Units.

Section Counting.

Context {A : Type} (h h' : A -> option Z) (x : option Z).

Lemma count_occ_map_le (u : list A) :
  (forall q, In q u -> h q = x -> h' q = x) ->
  count_occ value_eq_dec (map h u) x <= count_occ value_eq_dec (map h' u) x.
Proof.
  induction u as [|a u IH]; intros Himp; simpl; [lia|].
  specialize (IH (fun q Hq => Himp q (or_intror Hq))).
  destruct (value_eq_dec (h a) x) as [E|N].
  - rewrite (Himp a (or_introl eq_refl) E).
    destruct (value_eq_dec x x); [lia|congruence].
  - destruct (value_eq_dec (h' a) x); lia.
Qed.

Lemma count_occ_map_zero (u : list A) :
  (forall q, In q u -> h q <> x) -> count_occ value_eq_dec (map h u) x = 0.
Proof.
  intros Hne. apply count_occ_not_In. intros Hin.
  apply in_map_iff in Hin as (q & Hq & Hin). now apply (Hne q).
Qed.

Lemma count_occ_map_one (u : list A) (p : A) :
  NoDup u -> (forall q, In q u -> h q = x -> q = p) ->
  count_occ value_eq_dec (map h u) x <= 1.
Proof.
  induction 1 as [|a u Hna Hnd IH]; intros Hp; simpl; [lia|].
  destruct (value_eq_dec (h a) x) as [E|N].
  - rewrite count_occ_map_zero; [lia|].
    intros q Hq Hx. assert (q = p) by (apply Hp; [now right|assumption]).
    assert (a = p) by (apply Hp; [now left|assumption]). congruence.
  - apply IH. intros q Hq. apply Hp. now right.
Qed.

Lemma count_occ_map_pos (u : list A) (p : A) :
  In p u -> h p = x -> 1 <= count_occ value_eq_dec (map h u) x.
Proof.
  intros Hin Hx. apply (count_occ_In value_eq_dec).
  apply in_map_iff. now exists p.
Qed.

Lemma count_occ_map_two (u : list A) (p q : A) :
  In p u -> In q u -> p <> q -> h p = x -> h q = x ->
  2 <= count_occ value_eq_dec (map h u) x.
Proof.
  induction u as [|a u IH]; intros Hp Hq Hne Ep Eq; [destruct Hp|]. simpl.
  destruct Hp as [->|Hp], Hq as [->|Hq].
  - congruence.
  - destruct (value_eq_dec (h p) x); [|congruence].
    pose proof (count_occ_map_pos u q Hq Eq). lia.
  - destruct (value_eq_dec (h q) x); [|congruence].
    pose proof (count_occ_map_pos u p Hp Ep). lia.
  - specialize (IH Hp Hq Hne Ep Eq). destruct (value_eq_dec (h a) x); lia.
Qed.

End Counting.

Section SolverSound.

Implicit Types (g : grid) (p q : pos).

Lemma digits_eq : digits = [1; 2; 3; 4; 5; 6; 7; 8; 9]%Z.
Proof. reflexivity. Qed.

Lemma in_digits n : In n digits <-> (1 <= n <= 9)%Z.
Proof.
  rewrite digits_eq. simpl. split; [intuition lia|].
  intros H.
  assert (n = 1 \/ n = 2 \/ n = 3 \/ n = 4 \/ n = 5 \/ n = 6 \/ n = 7 \/ n = 8 \/ n = 9)%Z
    as Hn by lia.
  intuition auto.
Qed.

Lemma existsb_map_pos {B} (f : pos -> bool) (k : B -> pos) (l : list B) :
  existsb f (map k l) = existsb (fun b => f (k b)) l.
Proof. induction l as [|b l IH]; simpl; [reflexivity|]. now rewrite IH. Qed.

Lemma existsb_box (f : pos -> bool) r0 r1 c0 c1 :
  existsb f (box r0 r1 c0 c1) =
  existsb (fun i => existsb (fun j => f (i, j)) (range c0 c1)) (range r0 r1).
Proof.
  unfold box. induction (range r0 r1) as [|i l IH]; simpl; [reflexivity|].
  now rewrite existsb_app, existsb_map_pos, IH.
Qed.

(** [is_valid] is one scan of the row, the column and the block of [p]. *)
Lemma is_valid_scan g num p :
  is_valid g num p = negb (existsb (fun q => (value_or0 (cell g q) =? num)%Z) (scan p)).
Proof.
  destruct p as [r c]. unfold is_valid, scan, row_unit, col_unit, block_unit.
  cbn [fst snd]. rewrite !existsb_app, !existsb_map_pos, existsb_box.
  destruct (existsb _ (range 0 9)); [reflexivity|].
  destruct (existsb _ (range 0 9)); [reflexivity|].
  cbn [orb]. now destruct (existsb _ _).
Qed.

Lemma is_valid_true g num p q :
  is_valid g num p = true -> num <> 0%Z -> In q (scan p) -> value (cell g q) <> Some num.
Proof.
  rewrite is_valid_scan. intros Hv Hnz Hq Hval.
  apply negb_true_iff in Hv.
  assert (existsb (fun q => (value_or0 (cell g q) =? num)%Z) (scan p) = true); [|congruence].
  apply existsb_exists. exists q. split; [assumption|].
  unfold value_or0. rewrite Hval. apply Z.eqb_neq in Hnz. rewrite Hnz. apply Z.eqb_refl.
Qed.

Lemma is_valid_intro g num p :
  num <> 0%Z -> (forall q, In q (scan p) -> value (cell g q) <> Some num) ->
  is_valid g num p = true.
Proof.
  intros Hnz Hfree. rewrite is_valid_scan. apply negb_true_iff.
  destruct (existsb _ (scan p)) eqn:E; [|reflexivity].
  apply existsb_exists in E as (q & Hq & Hv). exfalso. apply (Hfree q Hq).
  apply Z.eqb_eq in Hv. unfold value_or0 in Hv.
  destruct (value (cell g q)) as [v|]; [|congruence].
  destruct (v =? 0)%Z; congruence.
Qed.

(** Placing a number that [is_valid] accepts keeps the grid consistent. *)
Lemma consistent_place g p num :
  wf_grid g -> consistent g -> In p all_positions -> value (cell g p) = None ->
  In num digits -> is_valid g num p = true ->
  consistent (upd g p (set_value (Some num))).
Proof.
  intros Hwf [Hrange Hcount] Hp Hv Hnum Hvalid.
  pose proof Hp as Hp'. apply in_all_positions in Hp' as [H1 H2].
  pose proof (proj1 (in_digits num) Hnum) as Hnum'.
  split.
  - intros q v Hq. destruct (decide (p = q)) as [<-|Hne].
    + rewrite cell_upd_same by assumption. simpl. intros [= <-]. assumption.
    + rewrite cell_upd_other by assumption. now apply Hrange.
  - intros u n Hu Hn. unfold occurrences.
    destruct (Z.eq_dec n num) as [->|Hnn].
    + destruct (ListDec.In_dec (fun a b => decide (a = b)) p u) as [Hpu|Hpu].
      * apply count_occ_map_one with (p := p); [now apply units_NoDup|].
        intros q Hq Hval. destruct (decide (p = q)) as [E|Hne]; [now subst|].
        rewrite cell_upd_other in Hval by assumption. exfalso.
        eapply (is_valid_true g num p q); eauto; [lia|]. eapply units_scan; eauto.
      * etransitivity; [|apply (Hcount u num Hu Hnum)].
        apply count_occ_map_le. intros q Hq.
        rewrite cell_upd_other; [auto|]. intros ->. contradiction.
    + etransitivity; [|apply (Hcount u n Hu Hn)].
      apply count_occ_map_le. intros q Hq.
      destruct (decide (p = q)) as [<-|Hne].
      * rewrite cell_upd_same by assumption. simpl. congruence.
      * now rewrite cell_upd_other.
Qed.

Lemma complete_consistent_solved g :
  (forall p, In p all_positions -> value (cell g p) <> None) ->
  consistent g -> solved_grid g.
Proof.
  intros Hfull [Hrange Hcount]. split; [assumption|].
  intros u n Hu Hn. unfold occurrences.
  set (vals := map (fun p => value (cell g p)) u).
  assert (Hdig : forall x, In x vals -> exists v, x = Some v /\ In v digits).
  { intros x Hx. apply in_map_iff in Hx as (q & <- & Hq).
    pose proof (units_positions u q Hu Hq) as Hqa.
    destruct (value (cell g q)) as [v|] eqn:Hv; [|now destruct (Hfull q Hqa)].
    exists v. split; [reflexivity|]. apply in_digits. eapply Hrange; eauto. }
  assert (Hnd : NoDup vals).
  { apply (NoDup_count_occ value_eq_dec). intros x.
    destruct (in_dec value_eq_dec x vals) as [Hx|Hx].
    - destruct (Hdig x Hx) as (v & -> & Hv). now apply Hcount.
    - apply (count_occ_not_In value_eq_dec) in Hx. lia. }
  assert (Hincl : incl (map Some digits) vals).
  { apply NoDup_length_incl; [assumption| |].
    - unfold vals. rewrite !length_map, (units_length u Hu). reflexivity.
    - intros x Hx. destruct (Hdig x Hx) as (v & -> & Hv). now apply in_map. }
  assert (Hin : In (Some n) vals) by (apply Hincl; now apply in_map).
  apply (count_occ_In value_eq_dec) in Hin.
  specialize (Hcount u n Hu Hn). unfold occurrences in Hcount. fold vals in Hcount. lia.
Qed.

Lemma solve_fuel_sound n :
  forall g g', wf_grid g -> consistent g -> solve_fuel n g = Some (true, g') -> solved_grid g'.
Proof.
  induction n as [|n IH]; intros g g' Hwf Hcons; [discriminate|].
  rewrite solve_fuel_S. destruct (find_empty g) as [p|] eqn:Hfe.
  2:{ intros [= <-]. apply complete_consistent_solved; [|assumption].
      intros p Hp. now apply find_empty_None. }
  apply find_empty_Some in Hfe as [Hin Hv].
  assert (Hloop : forall nums, incl nums digits ->
            solve_loop (solve_fuel n) p nums g = Some (true, g') -> solved_grid g').
  { induction nums as [|num nums IHn]; intros Hincl; simpl; [discriminate|].
    assert (Hincl' : incl nums digits) by (intros x Hx; apply Hincl; now right).
    destruct (is_valid g num p) eqn:Hvalid; [|now apply IHn].
    destruct (solve_fuel n (upd g p (set_value (Some num)))) as [[b1 g1]|] eqn:Hrec;
      [destruct b1|discriminate].
    - intros [= <-]. eapply IH; [| |exact Hrec]; [now apply wf_upd|].
      apply consistent_place; try assumption. apply Hincl. now left.
    - destruct (solve_fuel_frame _ _ _ _ (wf_upd g p _ Hwf) Hrec) as (_ & Hsame & _).
      rewrite (Hsame eq_refl), undo_set_value by assumption. now apply IHn. }
  apply Hloop. apply incl_refl.
Qed.

Lemma consistentb_spec g : consistentb g = true -> consistent g.
Proof.
  unfold consistentb. rewrite andb_true_iff, !forallb_forall. intros [Hr Hc]. split.
  - intros p v Hp Hv. specialize (Hr p Hp). rewrite Hv in Hr.
    apply andb_true_iff in Hr as [Ha Hb]. lia.
  - intros u n Hu Hn. specialize (Hc u Hu). rewrite forallb_forall in Hc.
    now apply Nat.leb_le, Hc.
Qed.

End SolverSound.

(** C1, as amended: when the resolved cells of the grid given to [solve]
    respect the uniqueness constraint (values in 1..9, no number twice in a
    row, column or block) and [solve] returns true, the resulting grid is
    completely filled and every row, column and block holds each of 1..9
    exactly once. *)
Theorem solve_sound (g g' : grid) :
  wf_grid g -> consistent g -> solve g = Some (true, g') -> solved_grid g'.
Proof. intros Hwf Hcons Hs. exact (solve_fuel_sound 82 g g' Hwf Hcons Hs). Qed.

Lemma solve_sound_witness :
  wf_grid (grid_of classic_puzzle) /\ consistent (grid_of classic_puzzle) /\
  exists g', solve (grid_of classic_puzzle) = Some (true, g') /\ solved_grid g'.
Proof.
  split; [wf_tac|]. split; [apply consistentb_spec; vm_compute; reflexivity|].
  eexists. split; [vm_compute; reflexivity|].
  apply (solve_sound (grid_of classic_puzzle));
    [wf_tac | apply consistentb_spec; vm_compute; reflexivity | vm_compute; reflexivity].
Defined.

(** C1 fails as stated: [solve] never checks the clues against each other.
    On a grid whose row 0 already holds two 5s and whose last cell is empty
    it fills the last cell, returns true, and the result has two 5s in
    row 0. *)
Lemma solve_true_on_inconsistent_clues :
  wf_grid (grid_of twin_fives_puzzle) /\
  exists g', solve (grid_of twin_fives_puzzle) = Some (true, g') /\ ~ solved_grid g'.
Proof.
  split; [wf_tac|]. eexists. split; [vm_compute; reflexivity|].
  intros [_ H]. specialize (H (row_unit 0) 5%Z).
  assert (Hu : In (row_unit 0) units) by (left; reflexivity).
  assert (Hn : In 5%Z digits) by (apply in_digits; lia).
  specialize (H Hu Hn). vm_compute in H. discriminate.
Qed.

(** ** The backtracking solver and the clues *)

Section SolverClues.

Implicit Types (g : grid) (p q : pos).

Lemma NoDup_Some_digits : NoDup (map Some digits).
Proof. rewrite digits_eq. simpl. repeat constructor; simpl; intuition discriminate. Qed.

(** In a solved grid every cell holds one of 1..9. *)
Lemma solved_values g p v :
  solved_grid g -> In p all_positions -> value (cell g p) = Some v -> In v digits.
Proof.
  intros [_ Hone] Hp Hv. destruct (position_unit p Hp) as (u & Hu & Hpu).
  set (vals := map (fun p => value (cell g p)) u).
  assert (Hincl : incl vals (map Some digits)).
  { apply NoDup_length_incl; [apply NoDup_Some_digits| |].
    - unfold vals. rewrite !length_map, (units_length u Hu). reflexivity.
    - intros x Hx. apply in_map_iff in Hx as (n & <- & Hn).
      apply (count_occ_In value_eq_dec). specialize (Hone u n Hu Hn).
      unfold occurrences in Hone. fold vals in Hone. lia. }
  assert (Hin : In (Some v) vals).
  { apply in_map_iff. exists p. now split. }
  apply Hincl, in_map_iff in Hin as (n & [= ->] & Hn). assumption.
Qed.

Lemma row_unit_in_units r : r < 9 -> In (row_unit r) units.
Proof.
  intros Hr. unfold units, rows. apply in_or_app. left.
  apply in_map. apply in_range. lia.
Qed.

Lemma in_row_unit r c : c < 9 -> In (r, c) (row_unit r).
Proof. intros Hc. unfold row_unit. apply in_map_iff. exists c. split; [reflexivity|apply in_range; lia]. Qed.

(** A grid with the same number twice in a row is not a solved grid. *)
Lemma duplicate_not_solved g r c1 c2 v :
  r < 9 -> c1 < 9 -> c2 < 9 -> c1 <> c2 ->
  value (cell g (r, c1)) = Some v -> value (cell g (r, c2)) = Some v ->
  ~ solved_grid g.
Proof.
  intros Hr H1 H2 Hne E1 E2 Hs.
  assert (Hv : In v digits).
  { apply (solved_values g (r, c1)); [assumption| |assumption].
    apply in_all_positions. simpl. lia. }
  destruct Hs as [_ Hone]. specialize (Hone (row_unit r) v (row_unit_in_units r Hr) Hv).
  unfold occurrences in Hone.
  pose proof (count_occ_map_two (fun p => value (cell g p)) (Some v) (row_unit r)
                (r, c1) (r, c2) (in_row_unit r c1 H1) (in_row_unit r c2 H2)) as Htwo.
  assert (2 <= 1); [|lia]. rewrite <- Hone at 2. apply Htwo; [congruence|assumption..].
Qed.

End SolverClues.

(** C5, as amended: [solve] does not compare the clues with each other. On a
    grid in which two resolved cells of a row hold the same value it leaves
    both cells as they are, so whatever it returns the grid is not a solved
    grid; and when the grid has no unresolved cell it returns true at once,
    with the grid unchanged. *)
Theorem solve_keeps_duplicate (g : grid) (r c1 c2 : nat) (v : Z) :
  wf_grid g -> r < 9 -> c1 < 9 -> c2 < 9 -> c1 <> c2 ->
  value (cell g (r, c1)) = Some v -> value (cell g (r, c2)) = Some v ->
  exists b g',
    solve g = Some (b, g') /\
    value (cell g' (r, c1)) = Some v /\ value (cell g' (r, c2)) = Some v /\
    ~ solved_grid g' /\
    (find_empty g = None -> b = true /\ g' = g).
Proof.
  intros Hwf Hr H1 H2 Hne E1 E2.
  destruct (solve_total g Hwf) as (b & g' & Hs). exists b, g'.
  destruct (solve_fuel_frame _ _ _ _ Hwf Hs) as (_ & _ & _ & Hval).
  assert (E1' : value (cell g' (r, c1)) = Some v) by (rewrite Hval; congruence).
  assert (E2' : value (cell g' (r, c2)) = Some v) by (rewrite Hval; congruence).
  repeat split; try assumption.
  - now apply (duplicate_not_solved g' r c1 c2 v).
  - unfold solve in Hs. rewrite solve_fuel_S, H in Hs. congruence.
  - unfold solve in Hs. rewrite solve_fuel_S, H in Hs. congruence.
Qed.

Lemma solve_keeps_duplicate_witness :
  wf_grid (grid_of twin_fives_puzzle) /\
  exists b g',
    solve (grid_of twin_fives_puzzle) = Some (b, g') /\
    value (cell g' (0, 0)) = Some 5%Z /\ value (cell g' (0, 1)) = Some 5%Z /\
    ~ solved_grid g' /\
    (find_empty (grid_of twin_fives_puzzle) = None -> b = true /\ g' = grid_of twin_fives_puzzle).
Proof.
  split; [wf_tac|].
  apply (solve_keeps_duplicate (grid_of twin_fives_puzzle) 0 0 1 5%Z);
    [wf_tac | lia | lia | lia | lia | reflexivity | reflexivity].
Defined.

(** C5 fails as stated: a filled grid with two 5s in row 0 has no empty
    cell, so [solve] returns true without looking at the clues. *)
Lemma solve_true_with_duplicate_in_row :
  wf_grid (grid_of twin_fives_full) /\
  value (cell (grid_of twin_fives_full) (0, 0)) = Some 5%Z /\
  value (cell (grid_of twin_fives_full) (0, 1)) = Some 5%Z /\
  solve (grid_of twin_fives_full) = Some (true, grid_of twin_fives_full).
Proof. split; [wf_tac|]. repeat split; vm_compute; reflexivity. Qed.

(** ** The backtracking solver finds the first completion *)

Section SolverFirst.

Implicit Types (g s : grid) (p q : pos).

Lemma lex_leb_refl l : lex_leb l l = true.
Proof.
  induction l as [|x l IH]; simpl; [reflexivity|].
  now rewrite Z.eqb_refl, IH, orb_true_r.
Qed.

Lemma lex_leb_app a l1 l2 : lex_leb (a ++ l1) (a ++ l2) = lex_leb l1 l2.
Proof.
  induction a as [|x a IH]; simpl; [reflexivity|].
  now rewrite Z.ltb_irrefl, Z.eqb_refl, IH.
Qed.

Lemma lex_leb_lt a x y l1 l2 :
  (x < y)%Z -> lex_leb (a ++ x :: l1) (a ++ y :: l2) = true.
Proof.
  intros Hlt. rewrite lex_leb_app. simpl.
  apply Z.ltb_lt in Hlt. now rewrite Hlt.
Qed.

Lemma digits_split k :
  In k digits ->
  exists pre post, digits = pre ++ k :: post /\
                   forall m, In m pre -> In m digits /\ (m < k)%Z.
Proof.
  intros Hk. rewrite digits_eq in Hk. simpl in Hk.
  assert (Hgen : forall pre post, digits = pre ++ k :: post ->
            (forall m, In m pre -> (m < k)%Z) ->
            exists pre post, digits = pre ++ k :: post /\
                             forall m, In m pre -> In m digits /\ (m < k)%Z).
  { intros pre post E Hlt. exists pre, post. split; [assumption|].
    intros m Hm. split; [|now apply Hlt]. rewrite E. apply in_or_app. now left. }
  repeat (destruct Hk as [<-|Hk];
          [match goal with
           | |- context [?k :: _] => idtac
           end|]); try contradiction.
  - apply (Hgen [] [2;3;4;5;6;7;8;9]%Z); [reflexivity|]. intros m [].
  - apply (Hgen [1]%Z [3;4;5;6;7;8;9]%Z); [reflexivity|]. simpl. intuition lia.
  - apply (Hgen [1;2]%Z [4;5;6;7;8;9]%Z); [reflexivity|]. simpl. intuition lia.
  - apply (Hgen [1;2;3]%Z [5;6;7;8;9]%Z); [reflexivity|]. simpl. intuition lia.
  - apply (Hgen [1;2;3;4]%Z [6;7;8;9]%Z); [reflexivity|]. simpl. intuition lia.
  - apply (Hgen [1;2;3;4;5]%Z [7;8;9]%Z); [reflexivity|]. simpl. intuition lia.
  - apply (Hgen [1;2;3;4;5;6]%Z [8;9]%Z); [reflexivity|]. simpl. intuition lia.
  - apply (Hgen [1;2;3;4;5;6;7]%Z [9]%Z); [reflexivity|]. simpl. intuition lia.
  - apply (Hgen [1;2;3;4;5;6;7;8]%Z []); [reflexivity|]. simpl. intuition lia.
Qed.

Lemma extends_refl g : extends g g.
Proof. now intros p _ _. Qed.

Lemma extends_consistent g s : extends g s -> solved_grid s -> consistent g.
Proof.
  intros Hext Hs. split.
  - intros p v Hp Hv. apply in_digits. apply (solved_values s p); [assumption..|].
    rewrite Hext; [assumption..|congruence].
  - intros u n Hu Hn. destruct Hs as [_ Hone]. rewrite <- (Hone u n Hu Hn).
    apply count_occ_map_le. intros q Hq Hval.
    rewrite Hext; [assumption|now apply (units_positions u)|congruence].
Qed.

Lemma scan_positions p q : In p all_positions -> In q (scan p) -> In q all_positions.
Proof.
  intros Hp Hq. destruct (scan_units p q Hp Hq) as (u & Hu & _ & Hqu).
  now apply (units_positions u).
Qed.

(** The number a completion has at an unresolved cell passes [is_valid]. *)
Lemma completion_is_valid g s p k :
  extends g s -> solved_grid s -> In p all_positions ->
  value (cell g p) = None -> value (cell s p) = Some k ->
  is_valid g k p = true.
Proof.
  intros Hext Hs Hp Hv Hk.
  pose proof (solved_values s p k Hs Hp Hk) as Hkd. apply in_digits in Hkd.
  apply is_valid_intro; [lia|]. intros q Hq Hval.
  assert (Hne : p <> q) by (intros ->; congruence).
  assert (Hsq : value (cell s q) = Some k).
  { rewrite Hext; [assumption|now apply (scan_positions p)|congruence]. }
  destruct (scan_units p q Hp Hq) as (u & Hu & Hpu & Hqu).
  destruct Hs as [_ Hone]. specialize (Hone u k Hu (proj2 (in_digits k) Hkd)).
  unfold occurrences in Hone.
  pose proof (count_occ_map_two (fun p => value (cell s p)) (Some k) u p q
                Hpu Hqu Hne Hk Hsq). lia.
Qed.

Lemma extends_place g s p k :
  wf_grid g -> extends g s -> In p all_positions -> value (cell s p) = Some k ->
  extends (upd g p (set_value (Some k))) s.
Proof.
  intros Hwf Hext Hp Hk q Hq. pose proof Hp as Hp'. apply in_all_positions in Hp' as [H1 H2].
  destruct (decide (p = q)) as [<-|Hne].
  - rewrite cell_upd_same by assumption. simpl. congruence.
  - rewrite cell_upd_other by assumption. now apply Hext.
Qed.

Lemma extends_after_place g g' p v :
  value (cell g p) = None ->
  extends (upd g p (set_value (Some v))) g' -> extends g g'.
Proof.
  intros Hv Hval q Hq Hres. assert (Hne : p <> q) by (intros ->; congruence).
  pose proof (Hval q Hq) as Hvq. rewrite cell_upd_other in Hvq by assumption. auto.
Qed.

Lemma flat_split g l1 p l2 :
  all_positions = l1 ++ p :: l2 ->
  flat g = map (fun q => match value (cell g q) with Some v => v | None => 0%Z end) l1
           ++ match value (cell g p) with Some v => v | None => 0%Z end
           :: map (fun q => match value (cell g q) with Some v => v | None => 0%Z end) l2.
Proof. intros E. unfold flat. now rewrite E, map_app. Qed.

Lemma solve_fuel_first n :
  forall g s, wf_grid g -> count_empty g < n -> extends g s -> solved_grid s ->
  exists g', solve_fuel n g = Some (true, g') /\ extends g g' /\ solved_grid g' /\
             lex_leb (flat g') (flat s) = true.
Proof.
  induction n as [|n IH]; intros g s Hwf Hn Hext Hs; [lia|].
  pose proof (extends_consistent g s Hext Hs) as Hcons.
  rewrite solve_fuel_S. destruct (find_empty g) as [p|] eqn:Hfe.
  2:{ exists g. split; [reflexivity|]. split; [apply extends_refl|]. split.
      - apply complete_consistent_solved; [|assumption].
        intros p Hp. now apply find_empty_None.
      - replace (flat s) with (flat g); [apply lex_leb_refl|].
        unfold flat. apply map_ext_in. intros p Hp.
        rewrite Hext; [reflexivity|assumption|now apply find_empty_None]. }
  destruct (find_split _ _ _ Hfe) as (l1 & l2 & Hsplit & _ & Hl1).
  apply find_empty_Some in Hfe as [Hp Hv].
  destruct (value (cell s p)) as [k|] eqn:Hk; [|now destruct (proj1 Hs p Hp)].
  pose proof (solved_values s p k Hs Hp Hk) as Hkd.
  pose proof (count_empty_set g p) as Hdec.
  assert (Hloop : forall pre post, (forall m, In m pre -> In m digits /\ (m < k)%Z) ->
            exists g', solve_loop (solve_fuel n) p (pre ++ k :: post) g = Some (true, g') /\
                       extends g g' /\ solved_grid g' /\ lex_leb (flat g') (flat s) = true).
  { induction pre as [|m pre IHpre]; intros post Hpre; cbn [app solve_loop].
    - rewrite (completion_is_valid g s p k Hext Hs Hp Hv Hk).
      destruct (IH (upd g p (set_value (Some k))) s) as (g' & Hrec & Hext' & Hs' & Hlex);
        [now apply wf_upd | specialize (Hdec k Hwf Hp Hv); lia
        | now apply extends_place | assumption |].
      rewrite Hrec. exists g'. split; [reflexivity|]. split; [|now split].
      now apply (extends_after_place g g' p k Hv).
    - assert (Hpre' : forall m', In m' pre -> In m' digits /\ (m' < k)%Z)
        by (intros m' Hm'; apply Hpre; now right).
      destruct (Hpre m (or_introl eq_refl)) as [Hmd Hmk].
      destruct (is_valid g m p) eqn:Hvalid; [|now apply IHpre].
      destruct (solve_fuel_total n (upd g p (set_value (Some m)))) as (b1 & g1 & Hrec);
        [now apply wf_upd | specialize (Hdec m Hwf Hp Hv); lia|].
      rewrite Hrec.
      destruct (solve_fuel_frame _ _ _ _ (wf_upd g p _ Hwf) Hrec) as (_ & Hsame & _ & Hval).
      destruct b1.
      + exists g1. split; [reflexivity|].
        assert (Hext1 : extends g g1).
        { apply (extends_after_place g g1 p m Hv). intros q _. apply Hval. }
        split; [assumption|]. split.
        * apply (solve_fuel_sound n (upd g p (set_value (Some m))) g1);
            [now apply wf_upd| |assumption].
          now apply consistent_place.
        * rewrite (flat_split g1 l1 p l2 Hsplit), (flat_split s l1 p l2 Hsplit).
          assert (Hpre1 : map (fun q => match value (cell g1 q) with Some v => v | None => 0%Z end) l1
                        = map (fun q => match value (cell s q) with Some v => v | None => 0%Z end) l1).
          { apply map_ext_in. intros q Hq.
            assert (Hqa : In q all_positions) by (rewrite Hsplit; apply in_or_app; now left).
            assert (Hres : value (cell g q) <> None).
            { specialize (Hl1 q Hq). unfold unset in Hl1.
              now destruct (value (cell g q)). }
            now rewrite (Hext1 q Hqa Hres), (Hext q Hqa Hres). }
          rewrite Hpre1, Hk.
          assert (Hg1p : value (cell g1 p) = Some m).
          { pose proof Hp as Hp'. apply in_all_positions in Hp' as [H1 H2].
            rewrite Hval; rewrite cell_upd_same by assumption; simpl; congruence. }
          rewrite Hg1p. now apply lex_leb_lt.
      + rewrite (Hsame eq_refl), undo_set_value by assumption. now apply IHpre. }
  destruct (digits_split k Hkd) as (pre & post & E & Hpre).
  destruct (Hloop pre post Hpre) as (g' & Hres & Hrest).
  exists g'. split; [rewrite E; exact Hres|exact Hrest].
Qed.

End SolverFirst.

(** C6: [solve] is a function of the grid (deterministic), and on a puzzle
    that has a completion it returns true with the first one: its result is
    a completion of the puzzle, and its 81 numbers in row-major order are
    lexicographically below or equal to those of every completion. *)
Theorem solve_lex_first (g s : grid) :
  wf_grid g -> completion g s ->
  exists g', solve g = Some (true, g') /\ completion g g' /\
             lex_leb (flat g') (flat s) = true.
Proof.
  intros Hwf [Hext Hs].
  destruct (solve_fuel_first 82 g s Hwf) as (g' & Hsolve & Hext' & Hs' & Hlex);
    [pose proof (count_empty_le g); lia | assumption | assumption |].
  exists g'. split; [assumption|]. split; [now split|assumption].
Qed.

Lemma extendsb_spec (g s : grid) : extendsb g s = true -> extends g s.
Proof.
  unfold extendsb. rewrite forallb_forall. intros H p Hp Hres.
  specialize (H p Hp). unfold unset in H.
  destruct (value (cell g p)); [|congruence]. simpl in H.
  now destruct (value_eq_dec _ _).
Qed.

Lemma solved_gridb_spec (g : grid) : solved_gridb g = true -> solved_grid g.
Proof.
  unfold solved_gridb. rewrite andb_true_iff, !forallb_forall. intros [Hf Hu]. split.
  - intros p Hp Hv. specialize (Hf p Hp). unfold unset in Hf. now rewrite Hv in Hf.
  - intros u n Hin Hn. specialize (Hu u Hin). rewrite forallb_forall in Hu.
    now apply Nat.eqb_eq, Hu.
Qed.

Lemma solve_lex_first_witness :
  wf_grid (grid_of two_way_puzzle) /\
  completion (grid_of two_way_puzzle) (grid_of two_way_second) /\
  exists g', solve (grid_of two_way_puzzle) = Some (true, g') /\
             completion (grid_of two_way_puzzle) g' /\
             lex_leb (flat g') (flat (grid_of two_way_second)) = true.
Proof.
  assert (Hc : completion (grid_of two_way_puzzle) (grid_of two_way_second)).
  { split; [apply extendsb_spec|apply solved_gridb_spec]; vm_compute; reflexivity. }
  split; [wf_tac|]. split; [exact Hc|].
  apply (solve_lex_first (grid_of two_way_puzzle) (grid_of two_way_second)); [wf_tac|exact Hc].
Defined.

(** ** Strategy passes: candidates only shrink *)

Section Passes.

Implicit Types (g : grid) (p q : pos) (acc : bool * grid).

Lemma cell_upd_cases g p q (f : Cell -> Cell) :
  cell (upd g p f) q = cell g q \/ (q = p /\ cell (upd g p f) q = f (cell g p)).
Proof.
  destruct (decide (p = q)) as [<-|Hne]; [|left; now apply cell_upd_other].
  unfold cell, upd. rewrite list_lookup_alter_eq.
  destruct (g !! p.1) as [row|]; simpl; [|now left].
  rewrite list_lookup_alter_eq. destruct (row !! p.2); simpl; [now right|now left].
Qed.

Lemma shrinks_refl g : shrinks g g.
Proof. intros p. split; [apply incl_refl|reflexivity]. Qed.

Lemma shrinks_trans g1 g2 g3 : shrinks g1 g2 -> shrinks g2 g3 -> shrinks g1 g3.
Proof.
  intros H12 H23 p. destruct (H12 p) as [I12 V12], (H23 p) as [I23 V23]. split.
  - eapply incl_tran; eassumption.
  - intros Hv. rewrite V23, V12; auto. rewrite V12; auto.
Qed.

(** Writing one cell: enough to look at what happens to that cell. *)
Lemma shrinks_upd g p (f : Cell -> Cell) :
  incl (candidates (f (cell g p))) (candidates (cell g p)) ->
  (value (cell g p) <> None -> value (f (cell g p)) = value (cell g p)) ->
  shrinks g (upd g p f).
Proof.
  intros Hc Hv q. destruct (cell_upd_cases g p q f) as [->|[-> ->]].
  - split; [apply incl_refl|reflexivity].
  - now split.
Qed.

Lemma pass_step_refl acc : pass_step acc acc.
Proof. split; [apply shrinks_refl|auto]. Qed.

Lemma pass_step_trans acc1 acc2 acc3 :
  pass_step acc1 acc2 -> pass_step acc2 acc3 -> pass_step acc1 acc3.
Proof.
  intros [S12 Q12] [S23 Q23]. split; [eapply shrinks_trans; eassumption|].
  intros H3. destruct (Q23 H3) as [H2 E23]. destruct (Q12 H2) as [H1 E12].
  split; [assumption|congruence].
Qed.

Lemma pass_step_fold {B} (f : bool * grid -> B -> bool * grid) (l : list B) :
  (forall acc x, In x l -> pass_step acc (f acc x)) ->
  forall acc, pass_step acc (fold_left f l acc).
Proof.
  induction l as [|x l IH]; intros Hf acc; simpl; [apply pass_step_refl|].
  eapply pass_step_trans; [apply Hf; now left|].
  apply IH. intros acc' y Hy. apply Hf. now right.
Qed.

Lemma pass_step_for_box r0 r1 c0 c1 (f : bool * grid -> pos -> bool * grid) :
  (forall acc p, pass_step acc (f acc p)) ->
  forall acc, pass_step acc (for_box r0 r1 c0 c1 f acc).
Proof. intros Hf acc. rewrite for_box_fold. apply pass_step_fold. auto. Qed.

(** A fill of an unresolved cell raises the flag. *)
Lemma pass_step_fill changed g p n :
  unset g p = true -> pass_step (changed, g) (true, fill g p n).
Proof.
  intros Hu. split; [|discriminate]. simpl. unfold fill. apply shrinks_upd.
  - simpl. intros x [].
  - unfold unset in Hu. intros Hv. now destruct (value (cell g p)).
Qed.

Lemma list_eqb_eq l1 l2 : list_eqb l1 l2 = true <-> l1 = l2.
Proof.
  revert l2. induction l1 as [|x l1 IH]; intros [|y l2]; simpl; try (split; congruence).
  rewrite andb_true_iff, Z.eqb_eq, IH. split; [intros []; congruence|intros [= -> ->]; auto].
Qed.

Lemma pass_step_eliminate gone skip acc p : pass_step acc (eliminate gone skip acc p).
Proof.
  destruct acc as [changed g]. unfold eliminate.
  destruct (negb skip && unset g p); [|apply pass_step_refl].
  split; simpl.
  - apply shrinks_upd; simpl; [|reflexivity]. apply incl_filter.
  - destruct (list_eqb _ _) eqn:E; simpl; [|discriminate].
    intros ->. split; [reflexivity|]. apply list_eqb_eq in E.
    apply upd_id. rewrite E. now destruct (cell g p).
Qed.

Lemma filter_singleton {B} (f : B -> bool) (l : list B) (x : B) :
  List.filter f l = [x] -> In x l /\ f x = true.
Proof.
  intros E. apply filter_In. rewrite E. now left.
Qed.

Lemma wants_unset g n p : wants g n p = true -> unset g p = true.
Proof. unfold wants. now intros [? _]%andb_true_iff. Qed.

Lemma SingleCandidate_pass g :
  pass_step (false, g) (SingleCandidateStrategy.apply g).
Proof.
  unfold SingleCandidateStrategy.apply. apply pass_step_for_box.
  intros [changed h] p. unfold SingleCandidateStrategy.visit.
  destruct (isNone (value (cell h p)) && _) eqn:E; [|apply pass_step_refl].
  apply andb_true_iff in E as [Hn _]. split; [|discriminate]. simpl.
  apply shrinks_upd; simpl; [apply incl_refl|].
  intros Hv. now destruct (value (cell h p)).
Qed.

Lemma SubgridSingle_visit_pass br bc acc n :
  pass_step acc (SubgridSingleStrategy.visit br bc acc n).
Proof.
  destruct acc as [changed h]. unfold SubgridSingleStrategy.visit.
  destruct (List.filter _ _) as [|p [|]] eqn:E; try apply pass_step_refl.
  apply filter_singleton in E as [_ Hw]. apply pass_step_fill. eapply wants_unset; eauto.
Qed.

Lemma SubgridSingle_pass g : pass_step (false, g) (SubgridSingleStrategy.apply g).
Proof.
  unfold SubgridSingleStrategy.apply.
  apply pass_step_fold. intros acc br _.
  apply pass_step_fold. intros acc' bc _.
  apply pass_step_fold. intros acc'' n _. apply SubgridSingle_visit_pass.
Qed.

Lemma RowSingle_visit_pass r acc n : pass_step acc (RowSingleStrategy.visit r acc n).
Proof.
  destruct acc as [changed h]. unfold RowSingleStrategy.visit.
  destruct (List.filter _ _) as [|c0 [|]] eqn:E; try apply pass_step_refl.
  apply filter_singleton in E as [_ Hw]. apply pass_step_fill. eapply wants_unset; eauto.
Qed.

Lemma RowSingle_pass g : pass_step (false, g) (RowSingleStrategy.apply g).
Proof.
  unfold RowSingleStrategy.apply.
  apply pass_step_fold. intros acc r _.
  apply pass_step_fold. intros acc' n _. apply RowSingle_visit_pass.
Qed.

Lemma ColumnSingle_visit_pass c acc n : pass_step acc (ColumnSingleStrategy.visit c acc n).
Proof.
  destruct acc as [changed h]. unfold ColumnSingleStrategy.visit.
  destruct (List.filter _ _) as [|r0 [|]] eqn:E; try apply pass_step_refl.
  apply filter_singleton in E as [_ Hw]. apply pass_step_fill. eapply wants_unset; eauto.
Qed.

Lemma ColumnSingle_pass g : pass_step (false, g) (ColumnSingleStrategy.apply g).
Proof.
  unfold ColumnSingleStrategy.apply.
  apply pass_step_fold. intros acc c _.
  apply pass_step_fold. intros acc' n _. apply ColumnSingle_visit_pass.
Qed.

Lemma NakedPairColumn_pass g : pass_step (false, g) (NakedPairColumnStrategy.apply g).
Proof.
  unfold NakedPairColumnStrategy.apply. apply pass_step_fold.
  intros [changed h] c _. unfold NakedPairColumnStrategy.visit.
  destruct (first_pair _) as [[[i1 i2] cand1]|]; [|apply pass_step_refl].
  apply pass_step_fold. intros acc i _. apply pass_step_eliminate.
Qed.

Lemma NakedPairRow_pass g : pass_step (false, g) (NakedPairRowStrategy.apply g).
Proof.
  unfold NakedPairRowStrategy.apply. apply pass_step_fold.
  intros [changed h] r _. unfold NakedPairRowStrategy.visit.
  destruct (first_pair _) as [[[j1 j2] cand1]|]; [|apply pass_step_refl].
  apply pass_step_fold. intros acc j _. apply pass_step_eliminate.
Qed.

Lemma NakedPairSubgrid_visit_pass br bc acc :
  pass_step acc (NakedPairSubgridStrategy.visit br bc acc).
Proof.
  destruct acc as [changed h]. unfold NakedPairSubgridStrategy.visit.
  destruct (first_pair _) as [[[p1 p2] cand1]|]; [|apply pass_step_refl].
  apply pass_step_for_box. intros a p. apply pass_step_eliminate.
Qed.

Lemma NakedPairSubgrid_pass g : pass_step (false, g) (NakedPairSubgridStrategy.apply g).
Proof.
  unfold NakedPairSubgridStrategy.apply.
  apply pass_step_fold. intros acc br _.
  apply pass_step_fold. intros acc' bc _. apply NakedPairSubgrid_visit_pass.
Qed.

Lemma NakedTripletColumn_pass g : pass_step (false, g) (NakedTripletColumnStrategy.apply g).
Proof.
  unfold NakedTripletColumnStrategy.apply. apply pass_step_fold.
  intros [changed h] c _. unfold NakedTripletColumnStrategy.visit.
  destruct (first_triplet _) as [[idxs union]|]; [|apply pass_step_refl].
  apply pass_step_fold. intros acc i _. apply pass_step_eliminate.
Qed.

Lemma NakedTripletRow_pass g : pass_step (false, g) (NakedTripletRowStrategy.apply g).
Proof.
  unfold NakedTripletRowStrategy.apply. apply pass_step_fold.
  intros [changed h] r _. unfold NakedTripletRowStrategy.visit.
  destruct (first_triplet _) as [[idxs union]|]; [|apply pass_step_refl].
  apply pass_step_fold. intros acc j _. apply pass_step_eliminate.
Qed.

Lemma NakedTripletSubgrid_pass g :
  pass_step (false, g) (NakedTripletSubgridStrategy.apply g).
Proof.
  unfold NakedTripletSubgridStrategy.apply.
  apply pass_step_fold. intros acc br _.
  apply pass_step_fold. intros [changed h] bc _.
  unfold NakedTripletSubgridStrategy.visit.
  destruct (first_triplet _) as [[positions union]|]; [|apply pass_step_refl].
  apply pass_step_for_box. intros a p. apply pass_step_eliminate.
Qed.

(** Every strategy of the list is such a pass. *)
Lemma strategy_pass s g : In s strateties -> pass_step (false, g) (apply s g).
Proof.
  unfold strateties. simpl.
  intros [<-|[<-|[<-|[<-|[<-|[<-|[<-|[<-|[<-|[<-|[]]]]]]]]]]]; simpl.
  - apply SingleCandidate_pass.
  - apply SubgridSingle_pass.
  - apply RowSingle_pass.
  - apply ColumnSingle_pass.
  - apply NakedPairColumn_pass.
  - apply NakedPairRow_pass.
  - apply NakedPairSubgrid_pass.
  - apply NakedTripletColumn_pass.
  - apply NakedTripletRow_pass.
  - apply NakedTripletSubgrid_pass.
Qed.

End Passes.

(** ** Candidate engine: propagation only removes *)

Section Propagation.

Implicit Types (g : grid) (p q : pos).

Lemma shrinks_fold {B} (f : grid -> B -> grid) (l : list B) :
  (forall g x, shrinks g (f g x)) -> forall g, shrinks g (fold_left f l g).
Proof.
  intros Hf. induction l as [|x l IH]; intros g; simpl; [apply shrinks_refl|].
  eapply shrinks_trans; [apply Hf|apply IH].
Qed.

Lemma remove_first_incl v l : incl (remove_first v l) l.
Proof.
  induction l as [|x l IH]; simpl; [apply incl_refl|].
  destruct (x =? v)%Z; [apply incl_tl, incl_refl|].
  intros y [<-|Hy]; [now left|right; now apply IH].
Qed.

Lemma shrinks_drop_candidate val g p : shrinks g (drop_candidate val g p).
Proof.
  unfold drop_candidate. destruct val as [v|]; [|apply shrinks_refl].
  destruct (unset g p && mem v (candidates (cell g p))); [|apply shrinks_refl].
  apply shrinks_upd; simpl; [apply remove_first_incl|reflexivity].
Qed.

Lemma shrinks_remove_filled_at g p : shrinks g (remove_filled_at g p).
Proof.
  destruct p as [r c]. unfold remove_filled_at.
  eapply shrinks_trans; [|rewrite for_box_fold; apply shrinks_fold; intros;
                           apply shrinks_drop_candidate].
  eapply shrinks_trans; [|apply shrinks_fold; intros h k;
                           eapply shrinks_trans; apply shrinks_drop_candidate].
  apply shrinks_upd; simpl; [intros x []|reflexivity].
Qed.

Lemma shrinks_remove_filled_candidates g filled :
  shrinks g (remove_filled_candidates g filled).
Proof. unfold remove_filled_candidates. apply shrinks_fold. apply shrinks_remove_filled_at. Qed.

End Propagation.

(** C10: in one pass of any strategy of the list, and in any call of
    [remove_filled_candidates], every cell's candidate list on exit is
    included in its list on entry and every resolved cell keeps its value;
    the full recomputation [get_cell_candidates] is what can add candidates
    (on the empty puzzle it takes every cell from no candidate to nine). *)
Theorem candidates_only_shrink :
  (forall s g, In s strateties -> shrinks g (snd (apply s g))) /\
  (forall g filled, shrinks g (remove_filled_candidates g filled)) /\
  (exists g p, wf_grid g /\
     ~ incl (candidates (cell (get_cell_candidates g) p)) (candidates (cell g p))).
Proof.
  split; [|split].
  - intros s g Hs. exact (proj1 (strategy_pass s g Hs)).
  - apply shrinks_remove_filled_candidates.
  - exists (grid_of empty_puzzle), (0, 0). split; [wf_tac|].
    intros Hincl. apply (Hincl 1%Z). vm_compute. now left.
Qed.

Lemma candidates_only_shrink_witness :
  In (nth 6 strateties (mkStrategy "" (fun g => (false, g)))) strateties /\
  shrinks (get_cell_candidates (grid_of classic_puzzle))
          (snd (apply (nth 6 strateties (mkStrategy "" (fun g => (false, g))))
                      (get_cell_candidates (grid_of classic_puzzle)))).
Proof.
  split; [simpl; tauto|].
  apply (proj1 candidates_only_shrink). simpl. tauto.
Defined.

(** ** Guided orchestrator *)

Section Orchestrator.

Implicit Types (g : grid) (st : gstate).

Lemma no_new_fill (l : list pos) :
  List.filter (fun p => negb (existsb (pos_eqb p) l)) l = [].
Proof.
  assert (H : forall l', incl l' l ->
            List.filter (fun p => negb (existsb (pos_eqb p) l)) l' = []).
  { induction l' as [|p l' IH]; intros Hincl; simpl; [reflexivity|].
    assert (Hp : existsb (pos_eqb p) l = true).
    { apply (mem_pos_In p l). apply Hincl. now left. }
    rewrite Hp. simpl. apply IH. intros x Hx. apply Hincl. now right. }
  apply H, incl_refl.
Qed.

Lemma strateties_length : length strateties = 10.
Proof. reflexivity. Qed.

(** One iteration on a grid that no strategy changes: nothing is written
    and the index moves on, wrapping to 0 after the last strategy without
    leaving the loop when a cell is still unresolved. *)
Lemma guided_iteration_stuck g0 i prev last :
  (forall s, In s strateties -> fst (apply s g0) = false) ->
  find_empty g0 <> None -> i < 10 ->
  guided_iteration (mkState g0 i prev last) = (mkState g0 ((i + 1) mod 10) [] [], false).
Proof.
  intros Hquiet Hempty Hi. unfold guided_iteration. cbn [g_cells strategies_idx].
  set (s := nth i strateties _).
  assert (Hs : In s strateties) by (apply nth_In; rewrite strateties_length; lia).
  pose proof (strategy_pass s g0 Hs) as [_ Hsame].
  specialize (Hquiet s Hs). destruct (apply s g0) as [changed g1]. cbn [fst snd] in *.
  subst changed. destruct (Hsame eq_refl) as [_ ->].
  rewrite no_new_fill, strateties_length.
  destruct (Nat.leb_spec 10 (i + 1)) as [Hwrap|Hnext].
  - assert (i = 9) by lia. subst i. simpl.
    destruct (find_empty g0); [reflexivity|congruence].
  - now rewrite Nat.mod_small.
Qed.

Lemma guided_loop_stuck g0 :
  (forall s, In s strateties -> fst (apply s g0) = false) ->
  find_empty g0 <> None ->
  forall n i prev last, i < 10 ->
    guided_loop (repeat true n) (mkState g0 i prev last)
      = (None, mkState g0 ((i + n + 1) mod 10) [] []) /\
    guided_loop (repeat true n ++ [false]) (mkState g0 i prev last)
      = (Some Stopped, mkState g0 ((i + n + 1) mod 10) [] []).
Proof.
  intros Hquiet Hempty. induction n as [|n IH]; intros i prev last Hi.
  - simpl. rewrite guided_iteration_stuck by assumption.
    rewrite Nat.add_0_r. now split.
  - assert (Hlt : (i + 1) mod 10 < 10) by (apply Nat.mod_upper_bound; lia).
    destruct (IH ((i + 1) mod 10) [] [] Hlt) as [IH1 IH2].
    assert (E : ((i + 1) mod 10 + n + 1) mod 10 = (i + S n + 1) mod 10).
    { rewrite <- Nat.add_assoc, Nat.Div0.add_mod_idemp_l. f_equal. lia. }
    rewrite E in IH1, IH2.
    split; cbn [repeat app guided_loop]; rewrite guided_iteration_stuck by assumption;
      assumption.
Qed.

Lemma guided_iteration_idx st :
  strategies_idx st < 10 -> strategies_idx (fst (guided_iteration st)) < 10.
Proof.
  intros Hi. unfold guided_iteration.
  destruct (apply _ (g_cells st)) as [changed g1]. rewrite strateties_length.
  destruct changed; cbn [fst strategies_idx]; [assumption|].
  destruct (10 <=? strategies_idx st + 1) eqn:E; cbn [fst strategies_idx]; [lia|].
  now apply Nat.leb_gt in E.
Qed.

Lemma guided_loop_idx answers :
  forall st, strategies_idx st < 10 ->
             strategies_idx (snd (guided_loop answers st)) < 10.
Proof.
  induction answers as [|a answers IH]; intros st Hi; simpl;
    pose proof (guided_iteration_idx st Hi) as Hi';
    destruct (guided_iteration st) as [st' solved]; cbn [fst] in Hi';
    destruct solved; try assumption.
  destruct a; [now apply IH|assumption].
Qed.

(** A session that is at a prompt goes on with the answers that follow. *)
Lemma guided_loop_app (a b : list bool) :
  forall st st', guided_loop a st = (None, st') ->
    guided_loop (a ++ b) st =
    match b with
    | [] => (None, st')
    | true :: rest => guided_loop rest st'
    | false :: _ => (Some Stopped, st')
    end.
Proof.
  induction a as [|x a IH]; intros st st'.
  - cbn [app]. destruct b as [|[] b]; simpl;
      destruct (guided_iteration st) as [st1 solved]; destruct solved;
      try discriminate; now intros [= ->].
  - cbn [app guided_loop]. destruct (guided_iteration st) as [st1 solved].
    destruct solved; [discriminate|]. destruct x; [apply IH|discriminate].
Qed.

End Orchestrator.

(** C2, as amended: the orchestrator has no stagnation state. Take a
    session at a prompt on whose grid no strategy of the list makes
    progress (every one of them returns changed = false, which is what a
    full cycle without progress is, a pass without progress leaving the grid
    as it was) while a cell is still unresolved. Then for as long as the
    caller answers yes the session stays in its loop on the same grid, the
    strategy index moving on by one per answer and wrapping to 0 after the
    last strategy; it is never reported as solved or as anything else, and
    it ends only when the caller answers no, as [Stopped]. The passes made
    before the prompt may have made any progress. *)
Theorem guided_solver_cycles_until_stopped (g : grid) (before : list bool) (st : gstate)
    (n : nat) :
  guided_solver g before = (None, st) ->
  (forall s, In s strateties -> fst (apply s (g_cells st)) = false) ->
  find_empty (g_cells st) <> None ->
  fst (guided_solver g (before ++ repeat true n)) = None /\
  g_cells (snd (guided_solver g (before ++ repeat true n))) = g_cells st /\
  strategies_idx (snd (guided_solver g (before ++ repeat true n)))
    = (strategies_idx st + n) mod 10 /\
  forall rest,
    guided_solver g (before ++ repeat true n ++ false :: rest)
    = (Some Stopped, snd (guided_solver g (before ++ repeat true n))).
Proof.
  intros Hprompt Hquiet Hempty. unfold guided_solver in *.
  set (st0 := mkState (get_cell_candidates g) 0 [] []) in *.
  assert (Hidx : strategies_idx st < 10).
  { pose proof (guided_loop_idx before st0) as H. rewrite Hprompt in H.
    apply H. cbn. lia. }
  assert (Hnow : guided_loop (before ++ repeat true n) st0
                 = (None, match n with
                          | 0 => st
                          | S m => mkState (g_cells st) ((strategies_idx st + S m) mod 10) [] []
                          end)).
  { rewrite (guided_loop_app before (repeat true n) st0 st Hprompt).
    destruct n as [|m]; [reflexivity|]. cbn [repeat].
    destruct st as [h i prev last]. cbn [g_cells strategies_idx] in *.
    destruct (guided_loop_stuck h Hquiet Hempty m i prev last Hidx) as [-> _].
    do 2 f_equal. f_equal. lia. }
  rewrite Hnow. cbn [fst snd]. split; [reflexivity|]. split; [|split].
  - now destruct n.
  - destruct n as [|m]; [|reflexivity].
    rewrite Nat.add_0_r. symmetry. now apply Nat.mod_small.
  - intros rest. rewrite app_assoc.
    now rewrite (guided_loop_app (before ++ repeat true n) (false :: rest) st0 _ Hnow).
Qed.

Lemma guided_solver_cycles_until_stopped_witness :
  guided_solver (grid_of stalling_puzzle) (repeat true 21)
    = (None, snd (guided_solver (grid_of stalling_puzzle) (repeat true 21))) /\
  (forall s, In s strateties ->
     fst (apply s (g_cells (snd (guided_solver (grid_of stalling_puzzle) (repeat true 21)))))
     = false) /\
  find_empty (g_cells (snd (guided_solver (grid_of stalling_puzzle) (repeat true 21))))
    <> None /\
  fst (guided_solver (grid_of stalling_puzzle) (repeat true 21 ++ repeat true 25)) = None /\
  g_cells (snd (guided_solver (grid_of stalling_puzzle) (repeat true 21 ++ repeat true 25)))
    = g_cells (snd (guided_solver (grid_of stalling_puzzle) (repeat true 21))) /\
  strategies_idx
    (snd (guided_solver (grid_of stalling_puzzle) (repeat true 21 ++ repeat true 25)))
    = (strategies_idx (snd (guided_solver (grid_of stalling_puzzle) (repeat true 21))) + 25)
      mod 10 /\
  forall rest,
    guided_solver (grid_of stalling_puzzle) (repeat true 21 ++ repeat true 25 ++ false :: rest)
    = (Some Stopped,
       snd (guided_solver (grid_of stalling_puzzle) (repeat true 21 ++ repeat true 25))).
Proof.
  assert (Hp : guided_solver (grid_of stalling_puzzle) (repeat true 21)
               = (None, snd (guided_solver (grid_of stalling_puzzle) (repeat true 21))))
    by (vm_compute; reflexivity).
  assert (Hq : forall s, In s strateties ->
             fst (apply s (g_cells (snd (guided_solver (grid_of stalling_puzzle)
                                           (repeat true 21))))) = false).
  { intros s Hs. simpl in Hs.
    repeat (destruct Hs as [<-|Hs]; [vm_compute; reflexivity|]). destruct Hs. }
  assert (He : find_empty (g_cells (snd (guided_solver (grid_of stalling_puzzle)
                                           (repeat true 21)))) <> None)
    by (vm_compute; discriminate).
  split; [exact Hp|]. split; [exact Hq|]. split; [exact He|].
  exact (guided_solver_cycles_until_stopped (grid_of stalling_puzzle) (repeat true 21)
           _ 25 Hp Hq He).
Defined.

(** C2 fails as stated. On the empty puzzle no strategy changes anything and
    all 81 cells stay unresolved, yet after a full cycle of ten passes the
    orchestrator is back at the prompt and, answered yes, starts the next
    cycle: after 25 answers it is still running, in its third cycle, with
    no cell filled. *)
Lemma guided_solver_no_stagnation_state :
  forallb (fun s => negb (fst (apply s (get_cell_candidates (grid_of empty_puzzle)))))
          strateties = true /\
  find_empty (get_cell_candidates (grid_of empty_puzzle)) = Some (0, 0) /\
  fst (guided_solver (grid_of empty_puzzle) (repeat true 9)) = None /\
  strategies_idx (snd (guided_solver (grid_of empty_puzzle) (repeat true 9))) = 0 /\
  fst (guided_solver (grid_of empty_puzzle) (repeat true 25)) = None /\
  strategies_idx (snd (guided_solver (grid_of empty_puzzle) (repeat true 25))) = 6 /\
  filled_positions (g_cells (snd (guided_solver (grid_of empty_puzzle) (repeat true 25)))) = [].
Proof. repeat split; vm_compute; reflexivity. Qed.

(** ** Single candidate: the candidate list of a filled cell *)

(** C3 at the single-candidate strategy: after recomputing the candidates
    of [classic_puzzle], cell (4,4) is unresolved with the one candidate 5;
    the pass sets its value to 5 and returns with its candidate list still
    [[5]], not empty. *)
Lemma single_candidate_keeps_candidate_list :
  value (cell (get_cell_candidates (grid_of classic_puzzle)) (4, 4)) = None /\
  candidates (cell (get_cell_candidates (grid_of classic_puzzle)) (4, 4)) = [5%Z] /\
  fst (SingleCandidateStrategy.apply (get_cell_candidates (grid_of classic_puzzle))) = true /\
  value (cell (snd (SingleCandidateStrategy.apply
                      (get_cell_candidates (grid_of classic_puzzle)))) (4, 4)) = Some 5%Z /\
  candidates (cell (snd (SingleCandidateStrategy.apply
                           (get_cell_candidates (grid_of classic_puzzle)))) (4, 4)) = [5%Z].
Proof. repeat split; vm_compute; reflexivity. Qed.

(** ** Hidden singles *)

Section HiddenSingles.

Implicit Types (g : grid) (p q : pos) (acc : bool * grid).

Lemma fold_left_flat_map {A B C} (f : A -> C -> A) (k : B -> list C) (l : list B) (a : A) :
  fold_left f (flat_map k l) a = fold_left (fun a x => fold_left f (k x) a) l a.
Proof.
  revert a. induction l as [|x l IH]; intros a; simpl; [reflexivity|].
  now rewrite fold_left_app, IH.
Qed.

Lemma fold_left_map {A B C} (f : A -> C -> A) (k : B -> C) (l : list B) (a : A) :
  fold_left f (map k l) a = fold_left (fun a x => f a (k x)) l a.
Proof. revert a. induction l as [|x l IH]; intros a; simpl; [reflexivity|apply IH]. Qed.

Lemma fold_left_ext_in {A B} (f f' : A -> B -> A) (l : list B) (a : A) :
  (forall a x, In x l -> f a x = f' a x) -> fold_left f l a = fold_left f' l a.
Proof.
  revert a. induction l as [|x l IH]; intros a Hf; simpl; [reflexivity|].
  rewrite Hf by now left. apply IH. intros a' y Hy. apply Hf. now right.
Qed.

(** The pass over a partition, unit by unit and number by number. *)
Lemma hidden_single_pass_nested partition g :
  hidden_single_pass partition g =
  fold_left (fun acc u => fold_left (fun acc n => hidden_single_step acc (u, n)) digits acc)
            partition (false, g).
Proof.
  unfold hidden_single_pass, hidden_single_run, schedule.
  rewrite fold_left_flat_map. apply fold_left_ext_in. intros acc u _.
  apply fold_left_map.
Qed.

Lemma filter_map_pos {B} (f : pos -> bool) (k : B -> pos) (l : list B) :
  List.filter f (map k l) = map k (List.filter (fun b => f (k b)) l).
Proof.
  induction l as [|b l IH]; simpl; [reflexivity|].
  destruct (f (k b)); simpl; now rewrite IH.
Qed.

Lemma SubgridSingle_refines g :
  SubgridSingleStrategy.apply g = hidden_single_pass blocks g.
Proof.
  rewrite hidden_single_pass_nested. unfold blocks, SubgridSingleStrategy.apply.
  rewrite fold_left_flat_map. apply fold_left_ext_in. intros acc br _.
  rewrite fold_left_map. apply fold_left_ext_in. intros acc' bc _.
  apply fold_left_ext_in. intros [changed h] n _. reflexivity.
Qed.

Lemma RowSingle_refines g : RowSingleStrategy.apply g = hidden_single_pass rows g.
Proof.
  rewrite hidden_single_pass_nested. unfold rows, RowSingleStrategy.apply.
  rewrite fold_left_map. apply fold_left_ext_in. intros acc r _.
  apply fold_left_ext_in. intros [changed h] n _.
  unfold RowSingleStrategy.visit, hidden_single_step, row_unit.
  rewrite filter_map_pos.
  now destruct (List.filter _ (range 0 9)) as [|c0 [|]].
Qed.

Lemma ColumnSingle_refines g : ColumnSingleStrategy.apply g = hidden_single_pass columns g.
Proof.
  rewrite hidden_single_pass_nested. unfold columns, ColumnSingleStrategy.apply.
  rewrite fold_left_map. apply fold_left_ext_in. intros acc c _.
  apply fold_left_ext_in. intros [changed h] n _.
  unfold ColumnSingleStrategy.visit, hidden_single_step, col_unit.
  rewrite filter_map_pos.
  now destruct (List.filter _ (range 0 9)) as [|r0 [|]].
Qed.

Lemma hidden_single_step_pass acc un : pass_step acc (hidden_single_step acc un).
Proof.
  destruct acc as [changed h], un as [u n]. unfold hidden_single_step.
  destruct (List.filter _ _) as [|p [|]] eqn:E; try apply pass_step_refl.
  apply filter_singleton in E as [_ Hw]. apply pass_step_fill. eapply wants_unset; eauto.
Qed.

Lemma hidden_single_run_pass visited acc : pass_step acc (hidden_single_run visited acc).
Proof. apply pass_step_fold. intros a un _. apply hidden_single_step_pass. Qed.

(** A wanted cell is a cell of the grid, so writing it takes effect. *)
Lemma cell_fill g p n :
  wants g n p = true ->
  value (cell (fill g p n) p) = Some n /\ candidates (cell (fill g p n) p) = [].
Proof.
  intros Hw. unfold fill.
  destruct (cell_upd_cases g p p (fun _ => mkCell (Some n) false [])) as [E|[_ E]].
  - exfalso. unfold cell, upd in E. rewrite list_lookup_alter_eq in E.
    unfold wants, unset, cell in Hw.
    destruct (g !! p.1) as [row|]; simpl in *; [|discriminate].
    rewrite list_lookup_alter_eq in E.
    destruct (row !! p.2) as [x|]; simpl in *; [|discriminate].
    subst x. simpl in Hw. discriminate.
  - rewrite E. now split.
Qed.

End HiddenSingles.

Section HiddenSinglePass.

Implicit Types (g : grid) (p q : pos) (acc : bool * grid).

(** The flag is raised exactly when some cell went from unset to set. *)
Lemma hidden_single_changed_iff partition g :
  fst (hidden_single_pass partition g) = true <->
  exists p, value (cell g p) = None /\
            value (cell (snd (hidden_single_pass partition g)) p) <> None.
Proof.
  split.
  - unfold hidden_single_pass, hidden_single_run.
    apply (fold_left_inv (fun acc => shrinks g (snd acc) /\
             (fst acc = true -> exists p, value (cell g p) = None /\
                                          value (cell (snd acc) p) <> None))).
    + split; [apply shrinks_refl|discriminate].
    + intros [c h] [u n] _ [Hshr Hex]. cbn [fst snd] in *. unfold hidden_single_step.
      destruct (List.filter _ _) as [|p [|]] eqn:E; try (now split).
      apply filter_singleton in E as [_ Hw]. cbn [fst snd]. split.
      * eapply shrinks_trans; [eassumption|].
        apply (pass_step_fill c h p n (wants_unset h n p Hw)).
      * intros _. exists p. destruct (cell_fill h p n Hw) as [Hv _]. split; [|congruence].
        destruct (value (cell g p)) eqn:Hg; [|reflexivity].
        pose proof (wants_unset h n p Hw) as Hu. unfold unset in Hu.
        rewrite (proj2 (Hshr p)) in Hu by congruence. now rewrite Hg in Hu.
  - intros (p & Hg & Hres).
    destruct (hidden_single_run_pass (schedule partition) (false, g)) as [_ Hquiet].
    fold (hidden_single_pass partition g) in Hquiet.
    destruct (fst (hidden_single_pass partition g)); [reflexivity|].
    destruct (Hquiet eq_refl) as [_ Hsame]. cbn [snd] in Hsame.
    rewrite Hsame in Hres. contradiction.
Qed.

End HiddenSinglePass.

Section HiddenSingleRule.

Implicit Types (g h : grid) (p q : pos) (u : list pos) (n : Z).

Lemma mem_listed n (l : list Z) : mem n l = true <-> In n l.
Proof.
  unfold mem. rewrite existsb_exists. split.
  - intros (m & Hm & E). apply Z.eqb_eq in E. now subst.
  - intros H. exists n. split; [assumption|apply Z.eqb_refl].
Qed.

Lemma wants_lists h n p : wants h n p = true <-> lists_number h n p.
Proof.
  unfold wants, unset, lists_number. rewrite andb_true_iff, mem_listed.
  destruct (value (cell h p)); simpl; split; intros [H1 H2]; split;
    congruence || assumption.
Qed.

Lemma one_wanted_the_only h u n p :
  List.filter (wants h n) u = [p] -> the_only h u n p.
Proof.
  intros E. destruct (filter_singleton _ _ _ E) as [Hp Hw].
  split; [assumption|]. split; [now apply wants_lists|].
  intros q Hq Hl. apply wants_lists in Hl.
  assert (Hin : In q (List.filter (wants h n) u)) by (apply filter_In; now split).
  rewrite E in Hin. destruct Hin as [->|[]]. reflexivity.
Qed.

Lemma none_wanted_no_only h u n :
  List.filter (wants h n) u = [] -> forall p, ~ the_only h u n p.
Proof.
  intros E p (Hp & Hl & _). apply wants_lists in Hl.
  assert (Hin : In p (List.filter (wants h n) u)) by (apply filter_In; now split).
  rewrite E in Hin. destruct Hin.
Qed.

Lemma two_wanted_no_only h u n p1 p2 rest :
  NoDup u -> List.filter (wants h n) u = p1 :: p2 :: rest ->
  forall p, ~ the_only h u n p.
Proof.
  intros Hnd E p (_ & _ & Huniq).
  assert (Hnd' : NoDup (p1 :: p2 :: rest)) by (rewrite <- E; now apply NoDup_filter).
  assert (H1 : In p1 (List.filter (wants h n) u)) by (rewrite E; now left).
  assert (H2 : In p2 (List.filter (wants h n) u)) by (rewrite E; right; now left).
  apply filter_In in H1 as [H1 W1]. apply filter_In in H2 as [H2 W2].
  apply wants_lists in W1, W2.
  pose proof (Huniq p1 H1 W1) as E1. pose proof (Huniq p2 H2 W2) as E2.
  inversion Hnd' as [|? ? Hnin _]; subst. apply Hnin. left. congruence.
Qed.

Lemma fill_filled_with h p n : wants h n p = true -> filled_with h p n (fill h p n).
Proof.
  intros Hw. destruct (cell_fill h p n Hw) as [Hv Hc].
  split; [assumption|]. split; [assumption|].
  intros q Hq. unfold fill. apply cell_upd_other. congruence.
Qed.

(** The loop of the code follows the rule, visit by visit. *)
Lemma hidden_single_run_rule visits :
  (forall u n, In (u, n) visits -> NoDup u) ->
  forall c h, exists fills,
    rule_pass visits h fills (snd (hidden_single_run visits (c, h))) /\
    (forall p n, In (p, n) fills ->
       value (cell (snd (hidden_single_run visits (c, h))) p) = Some n /\
       candidates (cell (snd (hidden_single_run visits (c, h))) p) = []) /\
    (fst (hidden_single_run visits (c, h)) = true <-> c = true \/ fills <> []).
Proof.
  induction visits as [|[u n] visits IH]; intros Hnd c h.
  { exists []. split; [constructor|]. split; [intros p n []|].
    simpl. split; [now left|intros [H|H]; [assumption|congruence]]. }
  assert (Hnd' : forall u' n', In (u', n') visits -> NoDup u')
    by (intros u' n' H; apply (Hnd u' n'); now right).
  assert (Hu : NoDup u) by (apply (Hnd u n); now left).
  unfold hidden_single_run. cbn [fold_left].
  fold (hidden_single_run visits (hidden_single_step (c, h) (u, n))).
  unfold hidden_single_step.
  destruct (List.filter (wants h n) u) as [|p [|p2 rest]] eqn:E.
  - destruct (IH Hnd' c h) as (fills & Hrule & Hkept & Hflag).
    exists fills. split; [|now split].
    apply rule_skip; [now apply none_wanted_no_only|assumption].
  - destruct (IH Hnd' true (fill h p n)) as (fills & Hrule & Hkept & Hflag).
    destruct (filter_singleton _ _ _ E) as [_ Hw].
    exists ((p, n) :: fills). split; [|split].
    + eapply rule_fill; [now apply one_wanted_the_only|now apply fill_filled_with|assumption].
    + intros q m [[= <- <-]|Hin]; [|now apply Hkept].
      destruct (hidden_single_run_pass visits (true, fill h p n)) as [Hshr _].
      destruct (cell_fill h p n Hw) as [Hv Hc]. cbn [snd] in Hshr.
      destruct (Hshr p) as [Hincl Hval]. split.
      * rewrite Hval; [assumption|congruence].
      * rewrite Hc in Hincl. now apply incl_l_nil.
    + split; [intros _; right; discriminate|]. intros _. apply Hflag. now left.
  - destruct (IH Hnd' c h) as (fills & Hrule & Hkept & Hflag).
    exists fills. split; [|now split].
    apply rule_skip; [now apply (two_wanted_no_only h u n p p2 rest)|assumption].
Qed.

Lemma schedule_units partition u n :
  In (u, n) (schedule partition) -> In u partition.
Proof.
  unfold schedule. intros H. apply in_flat_map in H as (u' & Hu' & H).
  apply in_map_iff in H as (m & [= <- <-] & _). assumption.
Qed.

End HiddenSingleRule.

(** C8: each hidden-single strategy (block, row, column) does what the
    specification says over its partition of 9 units. The visits go through
    the units in ascending order and, for each, the numbers 1..9 ascending;
    at a visit where exactly one unresolved cell of the unit has the number
    among its candidates (on the grid as the visits before left it), that
    cell gets the number and an empty candidate list and no other cell
    changes; at any other visit nothing changes. Every fill of the pass is
    still in the grid when the pass returns (the cell holds the number, its
    candidate list is empty), and the pass reports changed exactly when at
    least one fill was made, that is, exactly when some cell that was
    unresolved on entry holds a value on return. The condition and the
    effect are stated by [the_only] and [filled_with], which do not use the
    code's tests. *)
Theorem hidden_single_pass_spec (ap : grid -> bool * grid) (partition : list (list pos))
    (g : grid) :
  In (ap, partition) hidden_single_strategies ->
  length partition = 9 /\
  (exists fills,
     rule_pass (schedule partition) g fills (snd (ap g)) /\
     (forall p n, In (p, n) fills ->
        value (cell (snd (ap g)) p) = Some n /\ candidates (cell (snd (ap g)) p) = []) /\
     (fst (ap g) = true <-> fills <> [])) /\
  (fst (ap g) = true <->
   exists p, value (cell g p) = None /\ value (cell (snd (ap g)) p) <> None).
Proof.
  intros Hin.
  assert (Href : ap g = hidden_single_pass partition g /\ length partition = 9 /\
                 incl partition units).
  { simpl in Hin. destruct Hin as [[= <- <-]|[[= <- <-]|[[= <- <-]|[]]]].
    - split; [apply SubgridSingle_refines|]. split; [reflexivity|].
      intros u Hu. unfold units. apply in_or_app. right. apply in_or_app. now right.
    - split; [apply RowSingle_refines|]. split; [reflexivity|].
      intros u Hu. unfold units. apply in_or_app. now left.
    - split; [apply ColumnSingle_refines|]. split; [reflexivity|].
      intros u Hu. unfold units. apply in_or_app. right. apply in_or_app. now left. }
  destruct Href as (Href & Hlen & Hincl). rewrite Href.
  split; [assumption|]. split; [|apply hidden_single_changed_iff].
  unfold hidden_single_pass.
  destruct (hidden_single_run_rule (schedule partition)) with (c := false) (h := g)
    as (fills & Hrule & Hkept & Hflag).
  { intros u n Hun. apply units_NoDup, Hincl. now apply (schedule_units partition u n). }
  exists fills. split; [assumption|]. split; [assumption|].
  rewrite Hflag. split; [intros [H|H]; [discriminate|assumption]|now right].
Qed.

Lemma hidden_single_pass_spec_witness :
  In (SubgridSingleStrategy.apply, blocks) hidden_single_strategies /\
  (length blocks = 9 /\
   (exists fills,
      rule_pass (schedule blocks) (get_cell_candidates (grid_of classic_puzzle)) fills
                (snd (SubgridSingleStrategy.apply
                        (get_cell_candidates (grid_of classic_puzzle)))) /\
      (forall p n, In (p, n) fills ->
         value (cell (snd (SubgridSingleStrategy.apply
                             (get_cell_candidates (grid_of classic_puzzle)))) p) = Some n /\
         candidates (cell (snd (SubgridSingleStrategy.apply
                                  (get_cell_candidates (grid_of classic_puzzle)))) p) = []) /\
      (fst (SubgridSingleStrategy.apply (get_cell_candidates (grid_of classic_puzzle))) = true
       <-> fills <> [])) /\
   (fst (SubgridSingleStrategy.apply (get_cell_candidates (grid_of classic_puzzle))) = true
    <-> exists p, value (cell (get_cell_candidates (grid_of classic_puzzle)) p) = None /\
                  value (cell (snd (SubgridSingleStrategy.apply
                                      (get_cell_candidates (grid_of classic_puzzle)))) p)
                  <> None)) /\
  fst (SubgridSingleStrategy.apply (get_cell_candidates (grid_of classic_puzzle))) = true /\
  value (cell (get_cell_candidates (grid_of classic_puzzle)) (0, 5)) = None /\
  value (cell (snd (SubgridSingleStrategy.apply
                      (get_cell_candidates (grid_of classic_puzzle)))) (0, 5)) = Some 8%Z /\
  candidates (cell (snd (SubgridSingleStrategy.apply
                           (get_cell_candidates (grid_of classic_puzzle)))) (0, 5)) = [].
Proof.
  split; [simpl; tauto|]. split.
  - apply (hidden_single_pass_spec SubgridSingleStrategy.apply blocks
             (get_cell_candidates (grid_of classic_puzzle))).
    simpl. tauto.
  - repeat split; vm_compute; reflexivity.
Defined.

(** ** Naked pairs in blocks *)

Section NakedPairBlocks.

Import NakedPairSubgridStrategy.

Implicit Types (g : grid) (p q : pos) (acc : bool * grid).

Lemma mem_In x l : mem x l = true <-> In x l.
Proof.
  unfold mem. rewrite existsb_exists. split.
  - intros (y & Hy & E). apply Z.eqb_eq in E. now subst.
  - intros H. exists x. split; [assumption|apply Z.eqb_refl].
Qed.

Lemma in_block_starts b : In b block_starts <-> b = 0 \/ b = 3 \/ b = 6.
Proof. unfold block_starts. simpl. intuition. Qed.

Lemma in_block_unit br bc p :
  In p (block_unit br bc) <-> (br <= p.1 < br + 3) /\ (bc <= p.2 < bc + 3).
Proof. unfold block_unit. apply in_box. Qed.

Lemma block_unit_positions br bc p :
  In br block_starts -> In bc block_starts -> In p (block_unit br bc) -> In p all_positions.
Proof.
  rewrite !in_block_starts, in_block_unit, in_all_positions. lia.
Qed.

Lemma blocks_disjoint br bc br' bc' p :
  In br block_starts -> In bc block_starts -> In br' block_starts -> In bc' block_starts ->
  In p (block_unit br bc) -> In p (block_unit br' bc') -> (br, bc) = (br', bc').
Proof.
  rewrite !in_block_starts, !in_block_unit. intros.
  assert (br = br') by lia. assert (bc = bc') by lia. congruence.
Qed.

Lemma apply_by_corners g :
  apply g = fold_left (fun acc b => visit b.1 b.2 acc) block_corners (false, g).
Proof.
  unfold apply, block_corners. rewrite fold_left_flat_map.
  apply fold_left_ext_in. intros acc br _. now rewrite fold_left_map.
Qed.

Lemma eliminate_other gone skip acc p q :
  p <> q -> cell (snd (eliminate gone skip acc p)) q = cell (snd acc) q.
Proof.
  intros Hne. destruct acc as [c h]. unfold eliminate.
  destruct (negb skip && unset h p); [|reflexivity]. simpl. now apply cell_upd_other.
Qed.

Lemma eliminate_wf gone skip acc p :
  wf_grid (snd acc) -> wf_grid (snd (eliminate gone skip acc p)).
Proof.
  destruct acc as [c h]. unfold eliminate.
  destruct (negb skip && unset h p); [|auto]. simpl. apply wf_upd.
Qed.

Lemma eliminate_same gone skip acc p :
  wf_grid (snd acc) -> In p all_positions ->
  cell (snd (eliminate gone skip acc p)) p =
  if negb skip && unset (snd acc) p
  then set_candidates (List.filter (fun n => negb (mem n gone))
                                   (candidates (cell (snd acc) p))) (cell (snd acc) p)
  else cell (snd acc) p.
Proof.
  intros Hwf Hp. apply in_all_positions in Hp as [H1 H2].
  destruct acc as [c h]. unfold eliminate. simpl in *.
  destruct (negb skip && unset h p); [|reflexivity]. simpl. now apply cell_upd_same.
Qed.

Lemma visit_wf br bc acc : wf_grid (snd acc) -> wf_grid (snd (visit br bc acc)).
Proof.
  destruct acc as [c h]. unfold visit. intros Hwf.
  destruct (first_pair _) as [[[p1 p2] cand1]|]; [|assumption].
  rewrite for_box_fold. apply fold_left_inv; [assumption|].
  intros a x _. apply eliminate_wf.
Qed.

(** A block's visit writes inside the block only. *)
Lemma visit_frame br bc acc q :
  ~ In q (block_unit br bc) -> cell (snd (visit br bc acc)) q = cell (snd acc) q.
Proof.
  destruct acc as [c h]. unfold visit. intros Hq.
  destruct (first_pair _) as [[[p1 p2] cand1]|]; [|reflexivity].
  rewrite for_box_fold.
  apply (fold_left_inv (fun a => cell (snd a) q = cell h q)); [reflexivity|].
  intros a x Hx Ha. rewrite eliminate_other; [assumption|].
  intros ->. now apply Hq.
Qed.

Lemma fold_left_rel {A B} (R : A -> A -> Prop) (f : A -> B -> A) (l : list B) :
  (forall a a' x, In x l -> R a a' -> R (f a x) (f a' x)) ->
  forall a a', R a a' -> R (fold_left f l a) (fold_left f l a').
Proof.
  induction l as [|x l IH]; intros Hf a a' HR; simpl; [assumption|].
  apply IH; [intros; apply Hf; [now right|assumption]|].
  apply Hf; [now left|assumption].
Qed.

Lemma block_pairs_local br bc g1 g2 :
  (forall q, In q (block_unit br bc) -> cell g1 q = cell g2 q) ->
  block_pairs g1 br bc = block_pairs g2 br bc.
Proof.
  intros Hsame. unfold block_pairs.
  assert (E : List.filter (exactly_two g1) (box br (br + 3) bc (bc + 3))
            = List.filter (exactly_two g2) (box br (br + 3) bc (bc + 3))).
  { apply filter_ext_in. intros q Hq. unfold exactly_two, unset. now rewrite (Hsame q Hq). }
  rewrite E. apply map_ext_in. intros q Hq. apply filter_In in Hq as [Hq _].
  now rewrite (Hsame q Hq).
Qed.

(** What a block's visit does to the block depends on the block only. *)
Lemma visit_local br bc acc1 acc2 :
  wf_grid (snd acc1) -> wf_grid (snd acc2) -> In br block_starts -> In bc block_starts ->
  (forall q, In q (block_unit br bc) -> cell (snd acc1) q = cell (snd acc2) q) ->
  forall q, In q (block_unit br bc) ->
    cell (snd (visit br bc acc1)) q = cell (snd (visit br bc acc2)) q.
Proof.
  destruct acc1 as [c1 g1], acc2 as [c2 g2]. cbn [snd].
  intros Hwf1 Hwf2 Hbr Hbc Hsame. unfold visit.
  rewrite (block_pairs_local br bc g1 g2 Hsame).
  destruct (first_pair _) as [[[p1 p2] cand1]|]; [|exact Hsame].
  rewrite !for_box_fold.
  pose (R := fun a a' : bool * grid =>
               wf_grid (snd a) /\ wf_grid (snd a') /\
               forall q, In q (block_unit br bc) -> cell (snd a) q = cell (snd a') q).
  assert (HR : R (fold_left (fun acc p => eliminate cand1 (pos_eqb p p1 || pos_eqb p p2) acc p)
                            (box br (br + 3) bc (bc + 3)) (c1, g1))
                 (fold_left (fun acc p => eliminate cand1 (pos_eqb p p1 || pos_eqb p p2) acc p)
                            (box br (br + 3) bc (bc + 3)) (c2, g2))).
  { apply (fold_left_rel R); [|split; [assumption|split; [assumption|exact Hsame]]].
    intros a a' x Hx (Ha & Ha' & Hag).
    split; [now apply eliminate_wf|]. split; [now apply eliminate_wf|].
    intros q Hq. destruct (decide (x = q)) as [<-|Hne].
    - pose proof (block_unit_positions br bc x Hbr Hbc Hx) as Hxa.
      rewrite !eliminate_same by assumption.
      unfold unset. now rewrite (Hag x Hx).
    - rewrite !eliminate_other by assumption. now apply Hag. }
  apply HR.
Qed.

Lemma block_corners_ok b :
  In b block_corners -> In b.1 block_starts /\ In b.2 block_starts.
Proof.
  unfold block_corners. rewrite in_flat_map. intros (br & Hbr & Hb).
  apply in_map_iff in Hb as (bc & <- & Hbc). now split.
Qed.

Lemma block_corners_NoDup : NoDup block_corners.
Proof. apply distinct_NoDup. reflexivity. Qed.

Lemma corners_fold (b : nat * nat) (l : list (nat * nat)) :
  In b.1 block_starts -> In b.2 block_starts ->
  (forall b', In b' l -> In b'.1 block_starts /\ In b'.2 block_starts) ->
  forall acc, wf_grid (snd acc) ->
    (~ In b l -> forall p, In p (block_unit b.1 b.2) ->
       cell (snd (fold_left (fun acc b => visit b.1 b.2 acc) l acc)) p = cell (snd acc) p) /\
    (In b l -> NoDup l -> forall p, In p (block_unit b.1 b.2) ->
       cell (snd (fold_left (fun acc b => visit b.1 b.2 acc) l acc)) p
       = cell (snd (visit b.1 b.2 acc)) p).
Proof.
  intros Hb1 Hb2. induction l as [|b' l IH]; intros Hl acc Hwf.
  { split; [reflexivity|intros []]. }
  destruct (Hl b' (or_introl eq_refl)) as [Hb1' Hb2'].
  assert (Hl' : forall b0, In b0 l -> In b0.1 block_starts /\ In b0.2 block_starts)
    by (intros b0 H0; apply Hl; now right).
  destruct (IH Hl' (visit b'.1 b'.2 acc) (visit_wf _ _ _ Hwf)) as [IH1 IH2].
  assert (Hframe : b <> b' -> forall q, In q (block_unit b.1 b.2) ->
            cell (snd (visit b'.1 b'.2 acc)) q = cell (snd acc) q).
  { intros Hne q Hq. apply visit_frame. intros Hq'. apply Hne.
    destruct b, b'. simpl in *. now apply (blocks_disjoint _ _ _ _ q). }
  simpl. split.
  - intros Hnin p Hp. rewrite IH1; [|tauto|assumption].
    apply Hframe; [|assumption]. intros ->. apply Hnin. now left.
  - intros Hin Hnd p Hp. inversion Hnd as [|? ? Hnin Hnd']; subst.
    destruct Hin as [->|Hin].
    + now apply IH1.
    + assert (Hne : b <> b') by (intros ->; contradiction).
      rewrite IH2 by assumption.
      apply visit_local; try assumption; [now apply visit_wf|].
      intros q Hq. now apply Hframe.
Qed.

(** Within one block only the numbers of its first pair are removed. *)
Lemma visit_removes br bc c g q x :
  In x (candidates (cell g q)) ->
  ~ In x (candidates (cell (snd (visit br bc (c, g))) q)) ->
  exists p1 p2 cand1, first_pair (block_pairs g br bc) = Some (p1, p2, cand1) /\ In x cand1.
Proof.
  intros Hx Hgone. unfold visit in Hgone.
  destruct (first_pair _) as [[[p1 p2] cand1]|]; [|contradiction].
  exists p1, p2, cand1. split; [reflexivity|].
  destruct (mem x cand1) eqn:Hm; [now apply mem_In|]. exfalso. apply Hgone.
  rewrite for_box_fold.
  apply (fold_left_inv (fun a => In x (candidates (cell (snd a) q)))); [assumption|].
  intros [c' h] p _ Hin. unfold eliminate.
  destruct (negb _ && unset h p); [|assumption]. cbn [snd] in *.
  destruct (cell_upd_cases h p q
              (set_candidates (List.filter (fun n => negb (mem n cand1))
                                           (candidates (cell h p))))) as [->|[-> ->]];
    [assumption|].
  simpl. apply filter_In. split; [assumption|]. now rewrite Hm.
Qed.

End NakedPairBlocks.

(** C4, as amended: one pass of the naked-pair subgrid strategy treats each
    of the nine blocks on its own, like the row and column variants. What
    the pass does to the cells of a block is what scanning that block alone
    does, whatever was found in the blocks scanned before it; and in a
    block only its first pair is acted on: a number removed from a cell of
    the block belongs to the first pair of that block. *)
Theorem naked_pair_subgrid_per_block (g : grid) (br bc : nat) (p : pos) :
  wf_grid g -> In br block_starts -> In bc block_starts -> In p (block_unit br bc) ->
  cell (snd (NakedPairSubgridStrategy.apply g)) p
    = cell (snd (NakedPairSubgridStrategy.visit br bc (false, g))) p /\
  (forall x, In x (candidates (cell g p)) ->
             ~ In x (candidates (cell (snd (NakedPairSubgridStrategy.apply g)) p)) ->
     exists p1 p2 cand1,
       first_pair (NakedPairSubgridStrategy.block_pairs g br bc) = Some (p1, p2, cand1) /\
       In x cand1).
Proof.
  intros Hwf Hbr Hbc Hp.
  assert (E : cell (snd (NakedPairSubgridStrategy.apply g)) p
            = cell (snd (NakedPairSubgridStrategy.visit br bc (false, g))) p).
  { rewrite apply_by_corners.
    apply (proj2 (corners_fold (br, bc) block_corners Hbr Hbc block_corners_ok (false, g) Hwf));
      [|apply block_corners_NoDup|assumption].
    unfold block_corners. apply in_flat_map. exists br. split; [assumption|].
    now apply in_map. }
  split; [exact E|]. intros x Hx Hgone. rewrite E in Hgone.
  now apply (visit_removes br bc false g p x).
Qed.

Lemma naked_pair_subgrid_per_block_witness :
  wf_grid two_pairs_grid /\ In 0 block_starts /\ In 3 block_starts /\
  In (0, 5) (block_unit 0 3) /\
  cell (snd (NakedPairSubgridStrategy.apply two_pairs_grid)) (0, 5)
    = cell (snd (NakedPairSubgridStrategy.visit 0 3 (false, two_pairs_grid))) (0, 5) /\
  (forall x, In x (candidates (cell two_pairs_grid (0, 5))) ->
             ~ In x (candidates (cell (snd (NakedPairSubgridStrategy.apply two_pairs_grid))
                                      (0, 5))) ->
     exists p1 p2 cand1,
       first_pair (NakedPairSubgridStrategy.block_pairs two_pairs_grid 0 3)
         = Some (p1, p2, cand1) /\
       In x cand1).
Proof.
  split; [wf_tac|]. split; [simpl; tauto|]. split; [simpl; tauto|].
  split; [vm_compute; tauto|].
  apply (naked_pair_subgrid_per_block two_pairs_grid 0 3 (0, 5));
    [wf_tac | simpl; tauto | simpl; tauto | vm_compute; tauto].
Defined.

(** C4 fails as stated: the scan does not stop at the first pair. With a
    naked pair in block (0,0) and another in block (0,3), one pass removes
    1 from cell (0,2) and also 4 from cell (0,5), in the block scanned
    next. *)
Lemma naked_pair_subgrid_acts_in_two_blocks :
  candidates (cell two_pairs_grid (0, 2)) = [1; 3]%Z /\
  candidates (cell two_pairs_grid (0, 5)) = [4; 6]%Z /\
  fst (NakedPairSubgridStrategy.apply two_pairs_grid) = true /\
  candidates (cell (snd (NakedPairSubgridStrategy.apply two_pairs_grid)) (0, 2)) = [3%Z] /\
  candidates (cell (snd (NakedPairSubgridStrategy.apply two_pairs_grid)) (0, 5)) = [6%Z].
Proof. repeat split; vm_compute; reflexivity. Qed.

(** ** Candidate engine: propagation is idempotent *)

Section Idempotence.

Implicit Types (g h : grid) (p q : pos).

Lemma prunes_refl g : prunes g g.
Proof. intros q. split; [reflexivity|apply incl_refl]. Qed.

Lemma prunes_trans g1 g2 g3 : prunes g1 g2 -> prunes g2 g3 -> prunes g1 g3.
Proof.
  intros H12 H23 q. destruct (H12 q) as [V12 I12], (H23 q) as [V23 I23].
  split; [congruence|eapply incl_tran; eassumption].
Qed.

Lemma prunes_upd g p (f : Cell -> Cell) :
  value (f (cell g p)) = value (cell g p) ->
  incl (candidates (f (cell g p))) (candidates (cell g p)) ->
  prunes g (upd g p f).
Proof.
  intros Hv Hc q. destruct (cell_upd_cases g p q f) as [->|[-> ->]].
  - split; [reflexivity|apply incl_refl].
  - now split.
Qed.

Lemma cleared_stable val q g g' : cleared val q g -> prunes g g' -> cleared val q g'.
Proof.
  intros Hc Hp v Hv Hu. destruct (Hp q) as [Hval Hincl].
  unfold unset in *. rewrite Hval in Hu. specialize (Hc v Hv Hu).
  destruct (mem v (candidates (cell g' q))) eqn:Hm; [|reflexivity].
  apply mem_In, Hincl, mem_In in Hm. congruence.
Qed.

Lemma settled_stable g g' p : settled g p -> prunes g g' -> settled g' p.
Proof.
  intros [Hnil Hcl] Hp. destruct (Hp p) as [Hval Hincl]. split.
  - rewrite Hnil in Hincl. now apply incl_l_nil.
  - intros q Hq. rewrite Hval. eapply cleared_stable; eauto.
Qed.

Lemma NoDup_remove_first v l : NoDup l -> NoDup (remove_first v l).
Proof.
  induction 1 as [|x l Hx Hnd IH]; simpl; [constructor|].
  destruct (x =? v)%Z; [assumption|]. constructor; [|assumption].
  intros Hin. apply Hx. now apply (remove_first_incl v l).
Qed.

Lemma mem_remove_first v l : NoDup l -> mem v (remove_first v l) = false.
Proof.
  induction 1 as [|x l Hx Hnd IH]; simpl; [reflexivity|].
  destruct (x =? v)%Z eqn:E.
  - apply Z.eqb_eq in E. subst x.
    destruct (mem v l) eqn:Hm; [|reflexivity]. apply mem_In in Hm. contradiction.
  - simpl. rewrite IH, orb_false_r. rewrite Z.eqb_sym. exact E.
Qed.

Lemma candidate_sets_upd g p (f : Cell -> Cell) :
  candidate_sets g -> In p all_positions -> NoDup (candidates (f (cell g p))) ->
  candidate_sets (upd g p f).
Proof.
  intros Hs Hp Hf q Hq. destruct (cell_upd_cases g p q f) as [->|[-> ->]]; auto.
Qed.

Lemma drop_candidate_spec val g q :
  In q all_positions -> tidy g ->
  tidy (drop_candidate val g q) /\ prunes g (drop_candidate val g q) /\
  cleared val q (drop_candidate val g q).
Proof.
  intros Hq [Hwf Hsets]. unfold drop_candidate. destruct val as [v|].
  2:{ split; [now split|]. split; [apply prunes_refl|]. intros v [=]. }
  destruct (unset g q && mem v (candidates (cell g q))) eqn:E.
  - pose proof Hq as Hq'. apply in_all_positions in Hq' as [H1 H2].
    split; [split; [now apply wf_upd|]|split].
    + apply candidate_sets_upd; try assumption. simpl.
      apply NoDup_remove_first. now apply Hsets.
    + apply prunes_upd; simpl; [reflexivity|apply remove_first_incl].
    + intros v' [= <-] _. rewrite cell_upd_same by assumption. simpl.
      apply mem_remove_first. now apply Hsets.
  - split; [now split|]. split; [apply prunes_refl|].
    intros v' [= <-] Hu. now rewrite Hu in E.
Qed.

(** A loop whose every step establishes a stable fact about the element it
    visits establishes it for all elements. *)
Lemma fold_establish {B} (f : grid -> B -> grid) (Q : B -> grid -> Prop) (l : list B) :
  (forall g x, In x l -> tidy g -> tidy (f g x) /\ prunes g (f g x) /\ Q x (f g x)) ->
  (forall g g' x, Q x g -> prunes g g' -> Q x g') ->
  forall g, tidy g ->
    tidy (fold_left f l g) /\ prunes g (fold_left f l g) /\
    forall x, In x l -> Q x (fold_left f l g).
Proof.
  intros Hstep Hstable. induction l as [|x l IH]; intros g Hg; simpl.
  { split; [assumption|]. split; [apply prunes_refl|intros x []]. }
  destruct (Hstep g x (or_introl eq_refl) Hg) as (Hg1 & Hp1 & Hq1).
  destruct (IH (fun g y Hy => Hstep g y (or_intror Hy)) (f g x) Hg1) as (Hg2 & Hp2 & Hq2).
  split; [assumption|]. split; [eapply prunes_trans; eassumption|].
  intros y [<-|Hy]; [|now apply Hq2]. eapply Hstable; eassumption.
Qed.

Lemma in_scan_cases r c q :
  In q (scan (r, c)) ->
  (exists k, k < 9 /\ q = (r, k)) \/ (exists k, k < 9 /\ q = (k, c)) \/
  In q (box ((r / 3) * 3) ((r / 3) * 3 + 3) ((c / 3) * 3) ((c / 3) * 3 + 3)).
Proof.
  unfold scan, row_unit, col_unit, block_unit. cbn [fst snd]. rewrite !in_app_iff.
  intros [H|[H|H]].
  - left. apply in_map_iff in H as (k & <- & Hk). apply in_range in Hk. exists k. split; [lia|reflexivity].
  - right. left. apply in_map_iff in H as (k & <- & Hk). apply in_range in Hk.
    exists k. split; [lia|reflexivity].
  - now right; right.
Qed.

Lemma box_in_scan r c q :
  In q (box ((r / 3) * 3) ((r / 3) * 3 + 3) ((c / 3) * 3) ((c / 3) * 3 + 3)) ->
  In q (scan (r, c)).
Proof. intros H. unfold scan. rewrite !in_app_iff. right. right. exact H. Qed.

Lemma row_in_scan r c k : k < 9 -> In (r, k) (scan (r, c)).
Proof.
  intros Hk. unfold scan. rewrite !in_app_iff. left. now apply in_row_unit.
Qed.

Lemma col_in_scan r c k : k < 9 -> In (k, c) (scan (r, c)).
Proof.
  intros Hk. unfold scan, col_unit. rewrite !in_app_iff. right. left.
  apply in_map_iff. exists k. split; [reflexivity|apply in_range; lia].
Qed.

(** One position of [filled]: afterwards it is settled. *)
Lemma remove_filled_at_spec g p :
  In p all_positions -> tidy g ->
  tidy (remove_filled_at g p) /\ prunes g (remove_filled_at g p) /\
  settled (remove_filled_at g p) p.
Proof.
  intros Hp Hg. destruct p as [r c].
  pose proof Hp as Hp'. apply in_all_positions in Hp' as [Hr Hc]. cbn [fst snd] in Hr, Hc.
  unfold remove_filled_at. set (val := value (cell g (r, c))).
  set (g1 := upd g (r, c) (set_candidates [])).
  assert (Hg1 : tidy g1).
  { destruct Hg as [Hwf Hs]. split; [now apply wf_upd|].
    apply candidate_sets_upd; try assumption. simpl. constructor. }
  assert (Hp1 : prunes g g1).
  { apply prunes_upd; simpl; [reflexivity|intros x []]. }
  assert (Hnil : candidates (cell g1 (r, c)) = []).
  { unfold g1. rewrite cell_upd_same; [reflexivity|apply Hg|assumption..]. }
  destruct (fold_establish
              (fun h k => drop_candidate val (drop_candidate val h (r, k)) (k, c))
              (fun k h => cleared val (r, k) h /\ cleared val (k, c) h)
              (range 0 9)) with (g := g1) as (Hg2 & Hp2 & Hq2); [| |assumption|].
  { intros h k Hk Hh. apply in_range in Hk.
    destruct (drop_candidate_spec val h (r, k)) as (Ha & Pa & Ca);
      [apply in_all_positions; simpl; lia|assumption|].
    destruct (drop_candidate_spec val (drop_candidate val h (r, k)) (k, c)) as (Hb & Pb & Cb);
      [apply in_all_positions; simpl; lia|assumption|].
    split; [assumption|]. split; [eapply prunes_trans; eassumption|].
    split; [eapply cleared_stable; eassumption|assumption]. }
  { intros h h' k [C1 C2] Hpr. split; eapply cleared_stable; eassumption. }
  set (g2 := fold_left _ (range 0 9) g1) in *.
  rewrite for_box_fold.
  destruct (fold_establish (drop_candidate val) (fun q h => cleared val q h)
              (box ((r / 3) * 3) ((r / 3) * 3 + 3) ((c / 3) * 3) ((c / 3) * 3 + 3)))
    with (g := g2) as (Hg3 & Hp3 & Hq3); [| |assumption|].
  { intros h q Hq Hh. apply drop_candidate_spec; [|assumption].
    apply (scan_positions (r, c)); [assumption|now apply box_in_scan]. }
  { intros h h' q Cq Hpr. eapply cleared_stable; eassumption. }
  set (g3 := fold_left _ _ g2) in *.
  assert (Hp13 : prunes g1 g3) by (eapply prunes_trans; eassumption).
  split; [assumption|]. split; [eapply prunes_trans; eassumption|].
  split.
  - destruct (Hp13 (r, c)) as [_ Hincl]. rewrite Hnil in Hincl. now apply incl_l_nil.
  - assert (Hval : value (cell g3 (r, c)) = val).
    { rewrite (proj1 (Hp13 (r, c))), (proj1 (Hp1 (r, c))). reflexivity. }
    rewrite Hval. intros q Hq.
    destruct (in_scan_cases r c q Hq) as [(k & Hk & ->)|[(k & Hk & ->)|Hbox]].
    + apply (cleared_stable val (r, k) g2 g3); [|assumption].
      apply Hq2. apply in_range. lia.
    + apply (cleared_stable val (k, c) g2 g3); [|assumption].
      apply Hq2. apply in_range. lia.
    + now apply Hq3.
Qed.

Lemma fold_left_fixed {B} (f : grid -> B -> grid) (l : list B) (g : grid) :
  (forall x, In x l -> f g x = g) -> fold_left f l g = g.
Proof.
  induction l as [|x l IH]; intros Hf; simpl; [reflexivity|].
  rewrite Hf by now left. apply IH. intros y Hy. apply Hf. now right.
Qed.

Lemma drop_candidate_cleared val g q : cleared val q g -> drop_candidate val g q = g.
Proof.
  intros Hc. unfold drop_candidate. destruct val as [v|]; [|reflexivity].
  destruct (unset g q) eqn:Hu; [|reflexivity]. now rewrite (Hc v eq_refl Hu).
Qed.

(** On a settled position the propagation writes nothing. *)
Lemma remove_filled_at_settled g p : settled g p -> remove_filled_at g p = g.
Proof.
  intros [Hnil Hcl]. destruct p as [r c]. unfold remove_filled_at.
  assert (E : upd g (r, c) (set_candidates []) = g).
  { apply upd_id. destruct (cell g (r, c)) as [v gv cs]. simpl in *. now subst. }
  rewrite E. rewrite fold_left_fixed.
  - rewrite for_box_fold. apply fold_left_fixed. intros q Hq.
    apply drop_candidate_cleared, Hcl. now apply box_in_scan.
  - intros k Hk. apply in_range in Hk.
    rewrite (drop_candidate_cleared _ g (r, k)) by (apply Hcl, row_in_scan; lia).
    apply drop_candidate_cleared, Hcl, col_in_scan. lia.
Qed.

Lemma distinctZ_NoDup l : distinctZ l = true -> NoDup l.
Proof.
  induction l as [|x l IH]; simpl; [constructor|].
  intros H. apply andb_true_iff in H as [Hx Hl]. constructor; [|auto].
  intros Hin. apply mem_In in Hin. now rewrite Hin in Hx.
Qed.

Lemma candidate_setsb_spec g : candidate_setsb g = true -> candidate_sets g.
Proof.
  unfold candidate_setsb. rewrite forallb_forall. intros H q Hq.
  now apply distinctZ_NoDup, H.
Qed.

End Idempotence.

(** C9: candidate propagation is idempotent. On a grid whose candidate lists
    are sets (no number twice in a list), running [remove_filled_candidates]
    a second time with the same filled positions, in any order, leaves the
    grid exactly as the first run left it. *)
Theorem remove_filled_candidates_idempotent (g : grid) (filled : list pos) :
  wf_grid g -> candidate_sets g -> (forall p, In p filled -> In p all_positions) ->
  remove_filled_candidates (remove_filled_candidates g filled) filled
    = remove_filled_candidates g filled.
Proof.
  intros Hwf Hsets Hfilled. unfold remove_filled_candidates at 1 3.
  destruct (fold_establish remove_filled_at (fun p h => settled h p) filled)
    with (g := g) as (_ & _ & Hsettled); [| |now split|].
  - intros h p Hp Hh. apply remove_filled_at_spec; [now apply Hfilled|assumption].
  - intros h h' p. apply settled_stable.
  - fold (remove_filled_candidates g filled) in Hsettled.
    apply fold_left_fixed. intros p Hp. now apply remove_filled_at_settled, Hsettled.
Qed.

Lemma remove_filled_candidates_idempotent_witness :
  wf_grid after_first_pass /\ candidate_sets after_first_pass /\
  (forall p, In p first_pass_fills -> In p all_positions) /\
  remove_filled_candidates (remove_filled_candidates after_first_pass first_pass_fills)
                           first_pass_fills
    = remove_filled_candidates after_first_pass first_pass_fills.
Proof.
  assert (Hs : candidate_sets after_first_pass)
    by (apply candidate_setsb_spec; vm_compute; reflexivity).
  assert (Hf : forall p, In p first_pass_fills -> In p all_positions).
  { intros p Hp. apply in_all_positions. simpl in Hp.
    repeat (destruct Hp as [<-|Hp]; [simpl; lia|]). destruct Hp. }
  split; [wf_tac|]. split; [exact Hs|]. split; [exact Hf|].
  apply (remove_filled_candidates_idempotent after_first_pass first_pass_fills);
    [wf_tac | exact Hs | exact Hf].
Defined.

(** Why the candidate lists must be sets: [list.remove] drops one occurrence
    per visit, so a list that held a number twice would lose the second
    copy only in the second run. *)
Remark remove_filled_candidates_needs_sets :
  candidates (cell (remove_filled_candidates doubled_candidate_grid [(0, 0)]) (0, 1))
    = [7%Z] /\
  candidates (cell (remove_filled_candidates
                      (upd doubled_candidate_grid (0, 1) (set_candidates [5; 5; 5; 7]%Z))
                      [(0, 0)]) (0, 1)) = [5; 7]%Z.
Proof. split; vm_compute; reflexivity. Qed.

(** * Further properties of the code *)

(** ** Puzzle text *)

Section PuzzleText.

Implicit Types (ch : char) (chars : text) (xs : list Cell).

Lemma cell_chars_eq :
  cell_chars = [49; 50; 51; 52; 53; 54; 55; 56; 57; 46; 48]%N.
Proof. reflexivity. Qed.

Lemma parse_char_None ch : parse_char ch = None <-> ~ In ch cell_chars.
Proof.
  rewrite cell_chars_eq. unfold parse_char, one, nine, dot, zero. cbn [In].
  destruct (N.leb_spec 49 ch), (N.leb_spec ch 57), (N.eqb_spec ch 46), (N.eqb_spec ch 48);
    cbn [andb orb]; split; try discriminate; try reflexivity; try lia;
    intros H; exfalso; apply H; lia.
Qed.

Lemma parse_char_cell ch x : parse_char ch = Some x -> parsed_cell x.
Proof.
  unfold parse_char, one, nine, zero. destruct (_ && _)%N eqn:E.
  - intros [= <-]. right. apply andb_true_iff in E as [E1 E2].
    apply N.leb_le in E1, E2. exists (Z.of_N ch - 48)%Z.
    split; [lia|reflexivity].
  - destruct (_ || _); [|discriminate]. intros [= <-]. now left.
Qed.

Lemma parse_from_inr k chars xs :
  parse_from k chars = inr xs ->
  length xs = length chars /\
  forall i, i < length chars ->
    parse_char (nth i chars dot) = Some (nth i xs blank).
Proof.
  revert k xs. induction chars as [|ch chars IH]; intros k xs; simpl.
  - intros [= <-]. split; [reflexivity|]. intros i Hi. lia.
  - destruct (parse_char ch) as [x|] eqn:Ech; [|discriminate].
    destruct (parse_from (S k) chars) as [e|ys] eqn:Erec; [discriminate|].
    intros [= <-]. destruct (IH _ _ Erec) as [Hlen Hnth]. split; [simpl; lia|].
    intros [|i] Hi; [assumption|]. simpl. apply Hnth. lia.
Qed.

Lemma parse_from_inl k chars e :
  parse_from k chars = inl e ->
  exists i, e = InvalidCharacter (k + i) /\ i < length chars /\
            parse_char (nth i chars dot) = None /\
            forall j, j < i -> parse_char (nth j chars dot) <> None.
Proof.
  revert k. induction chars as [|ch chars IH]; intros k; simpl; [discriminate|].
  destruct (parse_char ch) as [x|] eqn:Ech.
  - destruct (parse_from (S k) chars) as [e'|ys] eqn:Erec; [|discriminate].
    intros [= <-]. destruct (IH _ Erec) as (i & -> & Hi & Hbad & Hgood).
    exists (S i). split; [f_equal; lia|]. split; [lia|]. split; [assumption|].
    intros [|j] Hj; simpl; [congruence|]. apply Hgood. lia.
  - intros [= <-]. exists 0. split; [f_equal; lia|]. split; [lia|].
    split; [assumption|]. intros j Hj. lia.
Qed.

Lemma rows_of_lookup xs r c :
  length xs = 81 -> r < 9 -> c < 9 ->
  cell (rows_of xs) (r, c) = nth (9 * r + c) xs blank.
Proof.
  intros Hlen Hr Hc. unfold cell, rows_of. cbn [fst snd].
  assert (E : map (fun r => firstn 9 (skipn (9 * r) xs)) (range 0 9) !! r
            = Some (firstn 9 (skipn (9 * r) xs))).
  { do 9 (destruct r as [|r]; [reflexivity|]). lia. }
  rewrite E, lookup_take_lt, lookup_drop by assumption.
  destruct (lookup_lt_is_Some_2 xs (9 * r + c)) as [x Hx]; [lia|].
  rewrite Hx. symmetry. now apply nth_lookup_Some.
Qed.

Lemma rows_of_wf xs : length xs = 81 -> wf_grid (rows_of xs).
Proof.
  intros Hlen. unfold rows_of. split; [now rewrite length_map|].
  apply Forall_forall. intros row Hrow. apply in_map_iff in Hrow as (r & <- & Hr).
  apply in_range in Hr. rewrite length_firstn, length_skipn. lia.
Qed.

Lemma strip_bars_app l1 l2 : strip_bars (l1 ++ l2) = strip_bars l1 ++ strip_bars l2.
Proof. unfold strip_bars. apply filter_app. Qed.

(** What is left of a text without its bars: its length less the number of
    its bars. *)
Lemma strip_bars_length chars :
  length (strip_bars chars) + count_occ N.eq_dec chars bar = length chars.
Proof.
  unfold strip_bars. induction chars as [|ch chars IH]; [reflexivity|].
  cbn [List.filter count_occ length].
  destruct (N.eq_dec ch bar) as [->|Hne].
  - rewrite N.eqb_refl. cbn [negb]. lia.
  - apply N.eqb_neq in Hne. rewrite Hne. cbn [negb length]. lia.
Qed.

End PuzzleText.

(** X1: the length error, which comes before any look at the characters.
    [sudoku] rejects the puzzle with the length error exactly when the
    number of its characters other than bars is not 81, whatever the
    characters are, and the length it reports is that number: the length of
    the text less the number of its bars. Characters are counted as Python
    counts them, one per code point. *)
Theorem sudoku_cells_invalid_length (puzzle : text) (n : nat) :
  sudoku_cells puzzle = inl (InvalidLength n) <->
  n + count_occ N.eq_dec puzzle bar = length puzzle /\ n <> 81.
Proof.
  pose proof (strip_bars_length puzzle) as Hlen.
  unfold sudoku_cells. fold (puzzle_chars puzzle) in *.
  destruct (length (puzzle_chars puzzle) =? 81) eqn:E; simpl.
  - apply Nat.eqb_eq in E. split; [|lia].
    destruct (parse_from 0 (puzzle_chars puzzle)) as [e|xs] eqn:Ep; [|discriminate].
    destruct (parse_from_inl _ _ _ Ep) as (i & -> & _). discriminate.
  - apply Nat.eqb_neq in E. split; [intros [= <-]; now split|].
    intros [Hn _]. f_equal. f_equal. lia.
Qed.

(** X2: the character error. With 81 characters left after the bars are
    removed, [sudoku] reports an invalid character at position [idx] exactly
    when [idx] is the first position (counted without the bars) whose
    character is none of 1..9, [.] and [0]. Positions count characters
    (code points), as [enumerate] does. *)
Theorem sudoku_cells_invalid_character (puzzle : text) (idx : nat) :
  length (puzzle_chars puzzle) = 81 ->
  (sudoku_cells puzzle = inl (InvalidCharacter idx) <->
   idx < 81 /\ ~ In (nth idx (puzzle_chars puzzle) dot) cell_chars /\
   forall j, j < idx -> In (nth j (puzzle_chars puzzle) dot) cell_chars).
Proof.
  intros Hlen. unfold sudoku_cells. fold (puzzle_chars puzzle).
  rewrite Hlen. simpl.
  assert (Hdec : forall ch, In ch cell_chars \/ ~ In ch cell_chars).
  { intros ch. destruct (parse_char ch) eqn:E.
    - left. destruct (in_dec N.eq_dec ch cell_chars) as [H|H]; [assumption|].
      apply parse_char_None in H. congruence.
    - right. now apply parse_char_None. }
  destruct (parse_from 0 (puzzle_chars puzzle)) as [e|xs] eqn:Ep.
  - destruct (parse_from_inl _ _ _ Ep) as (i & -> & Hi & Hbad & Hgood). simpl.
    split.
    + intros [= <-]. split; [lia|]. split; [now apply parse_char_None|].
      intros j Hj. destruct (Hdec (nth j (puzzle_chars puzzle) dot)) as [H|H];
        [assumption|]. apply parse_char_None in H. now destruct (Hgood j Hj).
    + intros (Hidx & Hb & Hg). f_equal.
      destruct (Nat.lt_trichotomy i idx) as [Hlt|[->|Hgt]]; [|reflexivity|].
      * apply Hg, parse_char_None in Hlt; [contradiction|]. assumption.
      * apply parse_char_None in Hb. now destruct (Hgood idx Hgt).
  - split; [discriminate|]. intros (Hidx & Hb & _).
    destruct (parse_from_inr _ _ _ Ep) as [_ Hnth].
    apply parse_char_None in Hb. rewrite Hnth in Hb by lia. discriminate.
Qed.

Lemma sudoku_cells_invalid_character_witness :
  length (puzzle_chars (text_of "53..7" ++ [8364%N] ++ text_of "|...6..195....98....6.8...6...34..8.3..17...2...6.6....28....419..5....8..79"))
    = 81 /\
  (sudoku_cells (text_of "53..7" ++ [8364%N] ++ text_of "|...6..195....98....6.8...6...34..8.3..17...2...6.6....28....419..5....8..79")
     = inl (InvalidCharacter 5) <->
   5 < 81 /\
   ~ In (nth 5 (puzzle_chars (text_of "53..7" ++ [8364%N] ++ text_of "|...6..195....98....6.8...6...34..8.3..17...2...6.6....28....419..5....8..79"))
                dot) cell_chars /\
   forall j, j < 5 ->
     In (nth j (puzzle_chars (text_of "53..7" ++ [8364%N] ++ text_of "|...6..195....98....6.8...6...34..8.3..17...2...6.6....28....419..5....8..79"))
                dot) cell_chars).
Proof.
  split; [reflexivity|].
  apply (sudoku_cells_invalid_character
           (text_of "53..7" ++ [8364%N] ++ text_of "|...6..195....98....6.8...6...34..8.3..17...2...6.6....28....419..5....8..79") 5).
  reflexivity.
Defined.

(** X3: what a successful parse builds. The grid is 9x9, the cell at row
    [r], column [c] is the one character [9 r + c] of the text (bars
    removed) denotes, and every cell is either empty or a clue 1..9 with the
    given flag set; no cell has candidates yet. *)
Theorem sudoku_cells_grid (puzzle : text) (g : grid) :
  sudoku_cells puzzle = inr g ->
  wf_grid g /\
  (forall r c, r < 9 -> c < 9 ->
     parse_char (nth (9 * r + c) (puzzle_chars puzzle) dot) = Some (cell g (r, c))) /\
  (forall p, In p all_positions -> parsed_cell (cell g p)).
Proof.
  unfold sudoku_cells. fold (puzzle_chars puzzle).
  destruct (length (puzzle_chars puzzle) =? 81) eqn:E; simpl; [|discriminate].
  apply Nat.eqb_eq in E.
  destruct (parse_from 0 (puzzle_chars puzzle)) as [e|xs] eqn:Ep; [discriminate|].
  intros [= <-]. destruct (parse_from_inr _ _ _ Ep) as [Hlen Hnth].
  assert (Hcell : forall r c, r < 9 -> c < 9 ->
            parse_char (nth (9 * r + c) (puzzle_chars puzzle) dot)
            = Some (cell (rows_of xs) (r, c))).
  { intros r c Hr Hc. rewrite rows_of_lookup by lia. apply Hnth. lia. }
  split; [apply rows_of_wf; lia|]. split; [exact Hcell|].
  intros [r c] Hp. apply in_all_positions in Hp as [Hr Hc].
  eapply parse_char_cell. apply Hcell; assumption.
Qed.

Lemma sudoku_cells_grid_witness :
  sudoku_cells (text_of classic_puzzle) = inr (grid_of classic_puzzle) /\
  wf_grid (grid_of classic_puzzle) /\
  (forall r c, r < 9 -> c < 9 ->
     parse_char (nth (9 * r + c) (puzzle_chars (text_of classic_puzzle)) dot)
     = Some (cell (grid_of classic_puzzle) (r, c))) /\
  (forall p, In p all_positions -> parsed_cell (cell (grid_of classic_puzzle) p)).
Proof.
  split; [vm_compute; reflexivity|].
  apply (sudoku_cells_grid (text_of classic_puzzle)). vm_compute. reflexivity.
Defined.

(** X4: bars are ignored wherever they stand: a bar inserted anywhere in the
    text changes neither the grid nor the error. *)
Theorem sudoku_cells_ignores_bars (s1 s2 : text) :
  sudoku_cells (s1 ++ [bar] ++ s2) = sudoku_cells (s1 ++ s2).
Proof.
  unfold sudoku_cells.
  rewrite !strip_bars_app. reflexivity.
Qed.

(** ** Constraint checker *)

Section Checker.

Implicit Types (g : grid) (p q : pos).

Lemma in_scan_sees p q : In p all_positions -> (In q (scan p) <-> sees p q).
Proof.
  intros Hp. apply in_all_positions in Hp as [Hr Hc].
  unfold scan, sees, row_unit, col_unit, block_unit.
  rewrite !in_app_iff, !in_map_iff, in_box. split.
  - intros [(j & <- & Hj)|[(i & <- & Hi)|Hb]].
    + apply in_range in Hj. simpl. lia.
    + apply in_range in Hi. simpl. lia.
    + pose proof (Nat.div_mod_eq p.1 3). pose proof (Nat.mod_upper_bound p.1 3).
      pose proof (Nat.div_mod_eq p.2 3). pose proof (Nat.mod_upper_bound p.2 3).
      pose proof (Nat.div_mod_eq q.1 3). pose proof (Nat.mod_upper_bound q.1 3).
      pose proof (Nat.div_mod_eq q.2 3). pose proof (Nat.mod_upper_bound q.2 3).
      split; [lia|]. split; [lia|]. right. right. lia.
  - intros (H1 & H2 & [E|[E|[E1 E2]]]).
    + left. exists q.2. split; [destruct q; simpl in *; congruence|apply in_range; lia].
    + right. left. exists q.1.
      split; [destruct q; simpl in *; congruence|apply in_range; lia].
    + pose proof (Nat.div_mod_eq p.1 3). pose proof (Nat.mod_upper_bound p.1 3).
      pose proof (Nat.div_mod_eq p.2 3). pose proof (Nat.mod_upper_bound p.2 3).
      pose proof (Nat.div_mod_eq q.1 3). pose proof (Nat.mod_upper_bound q.1 3).
      pose proof (Nat.div_mod_eq q.2 3). pose proof (Nat.mod_upper_bound q.2 3).
      right. right. lia.
Qed.

Lemma sees_self p : In p all_positions -> sees p p.
Proof. intros Hp. apply in_all_positions in Hp as [Hr Hc]. unfold sees. tauto. Qed.

Lemma sees_sym p q : In p all_positions -> sees p q -> sees q p.
Proof.
  intros Hp (H1 & H2 & H). apply in_all_positions in Hp as [Hr Hc].
  unfold sees. repeat split; try assumption.
  destruct H as [E|[E|[E1 E2]]]; auto.
Qed.

Lemma scan_sym p q :
  In p all_positions -> In q (scan p) -> In p (scan q).
Proof.
  intros Hp Hq. pose proof (scan_positions p q Hp Hq) as Hqa.
  apply in_scan_sees; [assumption|]. apply sees_sym; [assumption|].
  now apply in_scan_sees.
Qed.

End Checker.

(** X5: what [is_valid] decides. For a number other than 0 and a cell of the
    grid, [is_valid] is true exactly when no cell of the same row, the same
    column or the same 3x3 block holds that number. *)
Theorem is_valid_iff (g : grid) (num : Z) (p : pos) :
  In p all_positions -> num <> 0%Z ->
  (is_valid g num p = true <-> forall q, sees p q -> value (cell g q) <> Some num).
Proof.
  intros Hp Hnz. split.
  - intros Hv q Hq. apply (is_valid_true g num p q Hv Hnz). now apply in_scan_sees.
  - intros Hfree. apply is_valid_intro; [assumption|].
    intros q Hq. apply Hfree. now apply in_scan_sees.
Qed.

Lemma is_valid_iff_witness :
  In (0, 2) all_positions /\ 4%Z <> 0%Z /\
  (is_valid (grid_of classic_puzzle) 4 (0, 2) = true <->
   forall q, sees (0, 2) q -> value (cell (grid_of classic_puzzle) q) <> Some 4%Z).
Proof.
  split; [apply in_all_positions; simpl; lia|]. split; [lia|].
  apply (is_valid_iff (grid_of classic_puzzle) 4 (0, 2));
    [apply in_all_positions; simpl; lia | lia].
Defined.

(** X6: the scan includes the cell itself, and an empty cell reads as 0.
    So [is_valid] answers false for the number a cell already holds (it
    cannot be used to re-check a clue in place), and for 0 at any empty
    cell. *)
Theorem is_valid_own_cell (g : grid) (num : Z) (p : pos) :
  In p all_positions ->
  (value (cell g p) = Some num -> is_valid g num p = false) /\
  (value (cell g p) = None -> is_valid g 0 p = false).
Proof.
  intros Hp.
  assert (Hself : In p (scan p)) by (apply in_scan_sees; [|apply sees_self]; assumption).
  split; intros Hv; rewrite is_valid_scan; apply negb_false_iff, existsb_exists;
    exists p; (split; [assumption|]); unfold value_or0; rewrite Hv.
  - destruct (num =? 0)%Z eqn:E; [apply Z.eqb_eq in E; now subst|apply Z.eqb_refl].
  - reflexivity.
Qed.

Lemma is_valid_own_cell_witness :
  In (0, 0) all_positions /\
  (value (cell (grid_of classic_puzzle) (0, 0)) = Some 5%Z ->
   is_valid (grid_of classic_puzzle) 5 (0, 0) = false) /\
  (value (cell (grid_of classic_puzzle) (0, 0)) = None ->
   is_valid (grid_of classic_puzzle) 0 (0, 0) = false).
Proof.
  split; [apply in_all_positions; simpl; lia|].
  apply (is_valid_own_cell (grid_of classic_puzzle) 5 (0, 0)).
  apply in_all_positions. simpl. lia.
Defined.

(** ** First empty cell *)

Section FirstEmpty.

Implicit Types (g : grid) (p q : pos).

Lemma seq_split_lt a n l1 x l2 :
  seq a n = l1 ++ x :: l2 ->
  (forall y, In y l1 -> y < x) /\ (forall y, In y l2 -> x < y).
Proof.
  revert a n. induction l1 as [|z l1 IH]; intros a n E.
  - destruct n as [|n]; [discriminate|]. simpl in E. injection E as <- <-.
    split; [intros y []|]. intros y Hy. apply in_seq in Hy. lia.
  - destruct n as [|n]; [discriminate|]. simpl in E. injection E as <- E.
    destruct (IH _ _ E) as [H1 H2]. split; [|assumption].
    intros y [<-|Hy]; [|now apply H1].
    assert (Hx : In x (seq (S a) n)) by (rewrite E; apply in_or_app; right; now left).
    apply in_seq in Hx. lia.
Qed.

Lemma all_positions_row_major : map row_major all_positions = seq 0 81.
Proof. reflexivity. Qed.

Lemma all_positions_split l1 p l2 :
  all_positions = l1 ++ p :: l2 ->
  (forall q, In q l1 -> row_major q < row_major p) /\
  (forall q, In q l2 -> row_major p < row_major q).
Proof.
  intros E. pose proof all_positions_row_major as Hrm.
  rewrite E, map_app in Hrm. cbn [map] in Hrm.
  destruct (seq_split_lt 0 81 _ _ _ (eq_sym Hrm)) as [H1 H2].
  split; intros q Hq; [apply H1|apply H2]; now apply in_map.
Qed.

Lemma row_major_inj p q :
  In p all_positions -> In q all_positions -> row_major p = row_major q -> p = q.
Proof.
  intros Hp Hq. apply in_all_positions in Hp as [? ?], Hq as [? ?].
  unfold row_major. destruct p, q; simpl in *. intros E.
  assert (n = n1) by lia. assert (n0 = n2) by lia. congruence.
Qed.

End FirstEmpty.

(** X7: [find_empty] returns the first unresolved cell of the row-major
    scan, and [None] exactly when all 81 cells hold a value. *)
Theorem find_empty_first (g : grid) :
  (forall p, find_empty g = Some p <->
     In p all_positions /\ value (cell g p) = None /\
     forall q, In q all_positions -> row_major q < row_major p ->
               value (cell g q) <> None) /\
  (find_empty g = None <-> forall q, In q all_positions -> value (cell g q) <> None).
Proof.
  assert (Hfwd : forall p, find_empty g = Some p ->
            In p all_positions /\ value (cell g p) = None /\
            forall q, In q all_positions -> row_major q < row_major p ->
                      value (cell g q) <> None).
  { intros p Hfe. destruct (find_split _ _ _ Hfe) as (l1 & l2 & E & _ & Hl1).
    destruct (find_empty_Some g p Hfe) as [Hp Hv]. split; [assumption|].
    split; [assumption|]. intros q Hq Hlt Hnone.
    destruct (all_positions_split l1 p l2 E) as [_ H2].
    rewrite E in Hq. apply in_app_or in Hq as [Hq|[<-|Hq]].
    - specialize (Hl1 q Hq). unfold unset in Hl1. now rewrite Hnone in Hl1.
    - lia.
    - specialize (H2 q Hq). lia. }
  assert (Hnone : find_empty g = None <->
            forall q, In q all_positions -> value (cell g q) <> None).
  { split; [intros H q; now apply find_empty_None|].
    intros Hfull. destruct (find_empty g) as [p|] eqn:E; [|reflexivity].
    destruct (find_empty_Some g p E) as [Hp Hv]. now destruct (Hfull p Hp). }
  split; [|exact Hnone]. intros p. split; [apply Hfwd|].
  intros (Hp & Hv & Hbefore).
  destruct (find_empty g) as [p'|] eqn:E.
  - destruct (Hfwd p' eq_refl) as (Hp' & Hv' & Hbefore'). f_equal.
    destruct (Nat.lt_trichotomy (row_major p') (row_major p)) as [Hlt|[Heq|Hgt]].
    + now destruct (Hbefore p' Hp' Hlt).
    + now apply row_major_inj.
    + now destruct (Hbefore' p Hp Hgt).
  - now destruct (proj1 Hnone eq_refl p Hp).
Qed.

(** ** The backtracking solver: further properties *)

Section SolverExtras.

Implicit Types (g s : grid) (p q : pos).

(** Cells that [solve] fills clash with nothing, whatever the clues. *)
Lemma solve_fuel_clash_free n :
  forall g g', wf_grid g -> solve_fuel n g = Some (true, g') ->
    forall p, In p all_positions -> value (cell g p) = None ->
      (exists v, In v digits /\ value (cell g' p) = Some v) /\ clash_free g' p.
Proof.
  induction n as [|n IH]; intros g g' Hwf; [discriminate|].
  rewrite solve_fuel_S. destruct (find_empty g) as [p0|] eqn:Hfe.
  2:{ intros [= <-] p Hp Hv. now destruct (find_empty_None g p Hfe Hp). }
  apply find_empty_Some in Hfe as [Hp0 Hv0].
  assert (Hloop : forall nums, incl nums digits ->
            solve_loop (solve_fuel n) p0 nums g = Some (true, g') ->
            forall p, In p all_positions -> value (cell g p) = None ->
              (exists v, In v digits /\ value (cell g' p) = Some v) /\ clash_free g' p).
  { induction nums as [|num nums IHn]; intros Hincl; simpl; [discriminate|].
    assert (Hincl' : incl nums digits) by (intros x Hx; apply Hincl; now right).
    assert (Hnum : In num digits) by (apply Hincl; now left).
    destruct (is_valid g num p0) eqn:Hvalid; [|now apply IHn].
    destruct (solve_fuel n (upd g p0 (set_value (Some num)))) as [[b1 g1]|] eqn:Hrec;
      [destruct b1|discriminate].
    - intros [= <-] p Hp Hv.
      pose proof (wf_upd g p0 (set_value (Some num)) Hwf) as Hwf1.
      destruct (solve_fuel_frame _ _ _ _ Hwf1 Hrec) as (_ & _ & _ & Hval).
      pose proof Hp0 as Hp0'. apply in_all_positions in Hp0' as [H1 H2].
      assert (Hg1p0 : value (cell g1 p0) = Some num).
      { rewrite Hval; rewrite cell_upd_same by assumption; simpl; congruence. }
      destruct (decide (p0 = p)) as [<-|Hne].
      + split; [exists num; now split|].
        intros q Hq Hqne. rewrite Hg1p0.
        destruct (value (cell g q)) as [w|] eqn:Hgq.
        * rewrite Hval; rewrite cell_upd_other by congruence; [|congruence].
          rewrite Hgq. intros [= ->].
          apply (is_valid_true g num p0 q Hvalid); [|assumption..].
          apply in_digits in Hnum. lia.
        * pose proof (scan_positions p0 q Hp0 Hq) as Hqa.
          destruct (IH _ _ Hwf1 Hrec q Hqa) as [_ Hfree].
          { rewrite cell_upd_other by congruence. assumption. }
          intros E. apply (Hfree p0); [now apply scan_sym|congruence|].
          congruence.
      + apply (IH _ _ Hwf1 Hrec p Hp). now rewrite cell_upd_other.
    - destruct (solve_fuel_frame _ _ _ _ (wf_upd g p0 _ Hwf) Hrec) as (_ & Hsame & _).
      rewrite (Hsame eq_refl), undo_set_value by assumption. now apply IHn. }
  apply Hloop, incl_refl.
Qed.

Lemma solve_fuel_full n :
  forall g g', wf_grid g -> solve_fuel n g = Some (true, g') ->
    forall p, In p all_positions -> value (cell g' p) <> None.
Proof.
  intros g g' Hwf Hs p Hp.
  destruct (value (cell g p)) eqn:Hv.
  - destruct (solve_fuel_frame _ _ _ _ Hwf Hs) as (_ & _ & _ & Hval).
    rewrite Hval; congruence.
  - destruct (solve_fuel_clash_free n g g' Hwf Hs p Hp Hv) as [(v & _ & E) _]. congruence.
Qed.

End SolverExtras.

(** X8: what a true result guarantees whatever the clues are. The grid has
    no empty cell left, every cell that was resolved on entry still has its
    value, and every cell [solve] filled holds a number 1..9 that no other
    cell of its row, column or block holds. *)
Theorem solve_true_result (g g' : grid) :
  wf_grid g -> solve g = Some (true, g') ->
  (forall p, In p all_positions -> value (cell g' p) <> None) /\
  extends g g' /\
  (forall p, In p all_positions -> value (cell g p) = None ->
     (exists v, (1 <= v <= 9)%Z /\ value (cell g' p) = Some v) /\
     forall q, sees p q -> q <> p -> value (cell g' q) <> value (cell g' p)).
Proof.
  intros Hwf Hs. split; [exact (solve_fuel_full 82 g g' Hwf Hs)|]. split.
  - destruct (solve_fuel_frame _ _ _ _ Hwf Hs) as (_ & _ & _ & Hval).
    intros p _. apply Hval.
  - intros p Hp Hv.
    destruct (solve_fuel_clash_free 82 g g' Hwf Hs p Hp Hv) as [(v & Hd & E) Hfree].
    split; [exists v; split; [now apply in_digits|assumption]|].
    intros q Hq. apply Hfree. now apply in_scan_sees.
Qed.

Lemma solve_true_result_witness :
  wf_grid (grid_of twin_fives_puzzle) /\
  exists g', solve (grid_of twin_fives_puzzle) = Some (true, g') /\
  (forall p, In p all_positions -> value (cell g' p) <> None) /\
  extends (grid_of twin_fives_puzzle) g' /\
  (forall p, In p all_positions -> value (cell (grid_of twin_fives_puzzle) p) = None ->
     (exists v, (1 <= v <= 9)%Z /\ value (cell g' p) = Some v) /\
     forall q, sees p q -> q <> p -> value (cell g' q) <> value (cell g' p)).
Proof.
  split; [wf_tac|]. eexists. split; [vm_compute; reflexivity|].
  apply (solve_true_result (grid_of twin_fives_puzzle)); [wf_tac|vm_compute; reflexivity].
Defined.

(** X9: on a puzzle whose clues are consistent, [solve] answers the
    question whether a completion exists: it returns true (with a grid)
    exactly when the puzzle has a completion, and false, with the grid as it
    was, exactly when it has none. *)
Theorem solve_decides_completion (g : grid) :
  wf_grid g -> consistent g ->
  ((exists g', solve g = Some (true, g')) <-> exists s, completion g s) /\
  (solve g = Some (false, g) <-> ~ exists s, completion g s).
Proof.
  intros Hwf Hcons.
  assert (Hyes : (exists g', solve g = Some (true, g')) <-> exists s, completion g s).
  { split.
    - intros (g' & Hs). exists g'. split.
      + destruct (solve_fuel_frame _ _ _ _ Hwf Hs) as (_ & _ & _ & Hval).
        intros p _. apply Hval.
      + exact (solve_fuel_sound 82 g g' Hwf Hcons Hs).
    - intros (s & Hext & Hsol).
      destruct (solve_fuel_first 82 g s Hwf) as (g' & Hs & _);
        [pose proof (count_empty_le g); lia|assumption..|].
      now exists g'. }
  split; [exact Hyes|]. split.
  - intros Hs Hex. apply Hyes in Hex as (g' & Hs'). congruence.
  - intros Hno. destruct (solve_total g Hwf) as (b & g' & Hs). destruct b.
    + destruct Hno. apply Hyes. now exists g'.
    + destruct (solve_fuel_frame _ _ _ _ Hwf Hs) as (_ & Hsame & _).
      now rewrite (Hsame eq_refl) in Hs.
Qed.

Lemma solve_decides_completion_witness :
  wf_grid (grid_of dead_end_puzzle) /\ consistent (grid_of dead_end_puzzle) /\
  ((exists g', solve (grid_of dead_end_puzzle) = Some (true, g')) <->
   exists s, completion (grid_of dead_end_puzzle) s) /\
  (solve (grid_of dead_end_puzzle) = Some (false, grid_of dead_end_puzzle) <->
   ~ exists s, completion (grid_of dead_end_puzzle) s).
Proof.
  assert (Hc : consistent (grid_of dead_end_puzzle))
    by (apply consistentb_spec; vm_compute; reflexivity).
  split; [wf_tac|]. split; [exact Hc|].
  apply (solve_decides_completion (grid_of dead_end_puzzle)); [wf_tac|exact Hc].
Defined.

(** X10: a puzzle with one completion only: [solve] returns true and its
    grid holds, cell for cell, the numbers of that completion. *)
Theorem solve_unique_completion (g s : grid) :
  wf_grid g -> completion g s ->
  (forall s', completion g s' -> flat s' = flat s) ->
  exists g', solve g = Some (true, g') /\ flat g' = flat s.
Proof.
  intros Hwf [Hext Hsol] Huniq.
  destruct (solve_fuel_first 82 g s Hwf) as (g' & Hs & Hext' & Hsol' & _);
    [pose proof (count_empty_le g); lia|assumption..|].
  exists g'. split; [assumption|]. apply Huniq. now split.
Qed.

(** ** Candidate engine: full recomputation *)

Section Recompute.

Implicit Types (g h : grid) (p q : pos).

Lemma is_valid_values g h n p :
  (forall q, value (cell h q) = value (cell g q)) -> is_valid h n p = is_valid g n p.
Proof.
  intros Hval. rewrite !is_valid_scan. f_equal.
  induction (scan p) as [|q l IH]; simpl; [reflexivity|].
  rewrite IH. unfold value_or0. now rewrite Hval.
Qed.

(** The loop of [get_cell_candidates] over a list of distinct cells: each
    visited cell ends as [recomputed] says, the others are not touched. *)
Lemma recompute_fold g (l : list pos) :
  NoDup l -> (forall p, In p l -> In p all_positions) ->
  forall h, wf_grid h ->
    (forall q, value (cell h q) = value (cell g q)) ->
    (forall q, In q l -> cell h q = cell g q) ->
    wf_grid (fold_left recompute_at l h) /\
    (forall q, value (cell (fold_left recompute_at l h) q) = value (cell g q)) /\
    (forall q, In q l -> cell (fold_left recompute_at l h) q = recomputed g q) /\
    (forall q, ~ In q l -> cell (fold_left recompute_at l h) q = cell h q).
Proof.
  induction 1 as [|p l Hnin Hnd IH]; intros Hin h Hwf Hval Hsame; cbn [fold_left].
  { split; [assumption|]. split; [assumption|]. split; [intros q []|reflexivity]. }
  set (h1 := recompute_at h p).
  pose proof (Hin p (or_introl eq_refl)) as Hp.
  pose proof Hp as Hp'. apply in_all_positions in Hp' as [H1 H2].
  assert (Hh1p : cell h1 p = recomputed g p).
  { unfold h1, recompute_at, recomputed, unset. rewrite (Hval p).
    destruct (isNone (value (cell g p))); [|now apply Hsame; left].
    rewrite cell_upd_same by assumption. rewrite (Hsame p (or_introl eq_refl)).
    unfold valid_digits. f_equal. apply filter_ext. intros n.
    now apply is_valid_values. }
  assert (Hh1o : forall q, q <> p -> cell h1 q = cell h q).
  { intros q Hne. unfold h1, recompute_at. destruct (unset h p); [|reflexivity].
    apply cell_upd_other. congruence. }
  assert (Hwf1 : wf_grid h1).
  { unfold h1, recompute_at. destruct (unset h p); [now apply wf_upd|assumption]. }
  assert (Hval1 : forall q, value (cell h1 q) = value (cell g q)).
  { intros q. destruct (decide (q = p)) as [->|Hne].
    - rewrite Hh1p. unfold recomputed. now destruct (unset g p).
    - rewrite Hh1o by assumption. apply Hval. }
  destruct (IH (fun q Hq => Hin q (or_intror Hq)) h1 Hwf1 Hval1) as (Hw & Hv & Hl & Ho).
  { intros q Hq. rewrite Hh1o; [apply Hsame; now right|]. intros ->. contradiction. }
  split; [assumption|]. split; [assumption|]. split.
  - intros q [<-|Hq]; [|now apply Hl]. now rewrite Ho.
  - intros q Hq. rewrite Ho by (intros Hq'; apply Hq; now right).
    apply Hh1o. intros ->. apply Hq. now left.
Qed.

Lemma all_positions_NoDup : NoDup all_positions.
Proof. apply distinct_NoDup. vm_compute. reflexivity. Qed.

Lemma get_cell_candidates_cells g :
  wf_grid g ->
  wf_grid (get_cell_candidates g) /\
  (forall q, value (cell (get_cell_candidates g) q) = value (cell g q)) /\
  (forall q, In q all_positions -> cell (get_cell_candidates g) q = recomputed g q) /\
  (forall q, ~ In q all_positions -> cell (get_cell_candidates g) q = cell g q).
Proof.
  intros Hwf. unfold get_cell_candidates. rewrite for_box_fold.
  fold all_positions. change (fold_left _ all_positions g)
    with (fold_left recompute_at all_positions g).
  apply (recompute_fold g all_positions all_positions_NoDup (fun p Hp => Hp) g Hwf);
    reflexivity.
Qed.

Lemma in_valid_digits g p n :
  In p all_positions ->
  (In n (valid_digits g p) <->
   (1 <= n <= 9)%Z /\ forall q, sees p q -> value (cell g q) <> Some n).
Proof.
  intros Hp. unfold valid_digits. rewrite filter_In, in_digits. split.
  - intros [Hn Hv]. split; [assumption|].
    intros q Hq. apply (is_valid_true g n p q Hv); [lia|]. now apply in_scan_sees.
  - intros [Hn Hfree]. split; [assumption|]. apply is_valid_intro; [lia|].
    intros q Hq. apply Hfree. now apply in_scan_sees.
Qed.

Lemma NoDup_digits : NoDup digits.
Proof. rewrite digits_eq. repeat constructor; simpl; intuition lia. Qed.

End Recompute.

Lemma StronglySorted_filter_lt (f : Z -> bool) (l : list Z) :
  StronglySorted Z.lt l -> StronglySorted Z.lt (List.filter f l).
Proof.
  induction 1 as [|x l Hl IH Hx]; simpl; [constructor|].
  destruct (f x); [|assumption]. constructor; [assumption|].
  apply Forall_forall. intros y Hy. apply filter_In in Hy as [Hy _].
  revert y Hy. now apply Forall_forall.
Qed.

Lemma digits_sorted : StronglySorted Z.lt digits.
Proof.
  rewrite digits_eq. repeat (constructor; [|repeat constructor; lia]). constructor.
Qed.

(** X11: what the full recomputation computes. Values and given flags are
    untouched and resolved cells keep their candidate list; an unresolved
    cell gets as candidates exactly the numbers 1..9 that no cell of its
    row, column or block holds, listed in strictly ascending order (so
    without repetition). *)
Theorem get_cell_candidates_meaning (g : grid) (p : pos) :
  wf_grid g -> In p all_positions ->
  value (cell (get_cell_candidates g) p) = value (cell g p) /\
  given (cell (get_cell_candidates g) p) = given (cell g p) /\
  (value (cell g p) <> None ->
     candidates (cell (get_cell_candidates g) p) = candidates (cell g p)) /\
  (value (cell g p) = None ->
     StronglySorted Z.lt (candidates (cell (get_cell_candidates g) p)) /\
     NoDup (candidates (cell (get_cell_candidates g) p)) /\
     forall n, In n (candidates (cell (get_cell_candidates g) p)) <->
               (1 <= n <= 9)%Z /\ forall q, sees p q -> value (cell g q) <> Some n).
Proof.
  intros Hwf Hp. destruct (get_cell_candidates_cells g Hwf) as (_ & _ & Hcell & _).
  rewrite (Hcell p Hp). unfold recomputed, unset.
  destruct (value (cell g p)) as [v|] eqn:Hv; simpl.
  - rewrite Hv. repeat split; congruence.
  - rewrite Hv. split; [reflexivity|]. split; [reflexivity|]. split; [congruence|].
    intros _. split; [apply StronglySorted_filter_lt, digits_sorted|].
    split; [apply NoDup_filter, NoDup_digits|].
    intros n. now apply in_valid_digits.
Qed.

Lemma get_cell_candidates_meaning_witness :
  wf_grid (grid_of classic_puzzle) /\ In (0, 2) all_positions /\
  value (cell (get_cell_candidates (grid_of classic_puzzle)) (0, 2))
    = value (cell (grid_of classic_puzzle) (0, 2)) /\
  given (cell (get_cell_candidates (grid_of classic_puzzle)) (0, 2))
    = given (cell (grid_of classic_puzzle) (0, 2)) /\
  (value (cell (grid_of classic_puzzle) (0, 2)) <> None ->
     candidates (cell (get_cell_candidates (grid_of classic_puzzle)) (0, 2))
     = candidates (cell (grid_of classic_puzzle) (0, 2))) /\
  (value (cell (grid_of classic_puzzle) (0, 2)) = None ->
     StronglySorted Z.lt
       (candidates (cell (get_cell_candidates (grid_of classic_puzzle)) (0, 2))) /\
     NoDup (candidates (cell (get_cell_candidates (grid_of classic_puzzle)) (0, 2))) /\
     forall n, In n (candidates (cell (get_cell_candidates (grid_of classic_puzzle)) (0, 2))) <->
               (1 <= n <= 9)%Z /\
               forall q, sees (0, 2) q -> value (cell (grid_of classic_puzzle) q) <> Some n).
Proof.
  split; [wf_tac|]. split; [apply in_all_positions; simpl; lia|].
  apply (get_cell_candidates_meaning (grid_of classic_puzzle) (0, 2));
    [wf_tac|apply in_all_positions; simpl; lia].
Defined.

(** X12: the full recomputation is idempotent: run on its own result it
    changes nothing. *)
Theorem get_cell_candidates_idempotent (g : grid) :
  wf_grid g -> get_cell_candidates (get_cell_candidates g) = get_cell_candidates g.
Proof.
  intros Hwf. destruct (get_cell_candidates_cells g Hwf) as (Hwf1 & Hval & Hcell & _).
  destruct (get_cell_candidates_cells _ Hwf1) as (Hwf2 & _ & Hcell2 & _).
  apply grid_ext; try assumption. intros p Hp.
  rewrite (Hcell2 p Hp). unfold recomputed at 1.
  assert (Eu : unset (get_cell_candidates g) p = unset g p)
    by (unfold unset; now rewrite Hval).
  assert (E : valid_digits (get_cell_candidates g) p = valid_digits g p).
  { unfold valid_digits. apply filter_ext. intros n. now apply is_valid_values. }
  rewrite Eu, E, (Hcell p Hp). unfold recomputed.
  now destruct (unset g p).
Qed.

Lemma get_cell_candidates_idempotent_witness :
  wf_grid (grid_of classic_puzzle) /\
  get_cell_candidates (get_cell_candidates (grid_of classic_puzzle))
    = get_cell_candidates (grid_of classic_puzzle).
Proof.
  split; [wf_tac|]. apply (get_cell_candidates_idempotent (grid_of classic_puzzle)). wf_tac.
Defined.

(** ** Candidate engine: the exact effect of propagation *)

Section PropagationEffect.

Implicit Types (g h : grid) (p q : pos) (x : Cell).

Lemma upd_ext g p (f f' : Cell -> Cell) :
  f (cell g p) = f' (cell g p) -> upd g p f = upd g p f'.
Proof.
  intros E. unfold upd. apply list_alter_ext; [|reflexivity].
  intros row Hrow. apply list_alter_ext; [|reflexivity].
  intros x Hx. unfold cell in E. now rewrite Hrow, Hx in E.
Qed.

Lemma set_candidates_same x : set_candidates (candidates x) x = x.
Proof. now destruct x. Qed.

Lemma drop_candidate_upd val h q : drop_candidate val h q = upd h q (drop_cell val).
Proof.
  unfold drop_candidate. destruct val as [v|].
  - unfold unset. destruct (isNone (value (cell h q)) && mem v (candidates (cell h q))) eqn:E.
    + apply upd_ext. unfold drop_cell. now rewrite E.
    + symmetry. apply upd_id. unfold drop_cell. now rewrite E.
  - symmetry. now apply upd_id.
Qed.

Lemma apply_ops_app ops1 ops2 h :
  apply_ops (ops1 ++ ops2) h = apply_ops ops2 (apply_ops ops1 h).
Proof. unfold apply_ops. apply fold_left_app. Qed.

Lemma remove_filled_at_ops h p :
  remove_filled_at h p = apply_ops (propagate_ops (value (cell h p)) p) h.
Proof.
  destruct p as [r c]. unfold remove_filled_at, propagate_ops, visited. cbn [fst snd].
  set (val := value (cell h (r, c))).
  change (apply_ops (?e :: ?l) h) with (apply_ops l (upd h (r, c) (set_candidates []))).
  generalize (upd h (r, c) (set_candidates [])) as h1. intros h1.
  rewrite map_app, apply_ops_app, for_box_fold. unfold apply_ops.
  rewrite fold_left_map. rewrite flat_map_concat_map, concat_map, map_map.
  rewrite <- flat_map_concat_map, fold_left_flat_map. cbn [map fold_left fst snd].
  rewrite (fold_left_ext_in (drop_candidate val) (fun a q => upd a q (drop_cell val)))
    by (intros; apply drop_candidate_upd).
  f_equal. apply fold_left_ext_in. intros a k _. now rewrite !drop_candidate_upd.
Qed.

Lemma apply_ops_wf ops h : wf_grid h -> wf_grid (apply_ops ops h).
Proof.
  unfold apply_ops. revert h. induction ops as [|e ops IH]; intros h Hwf; simpl; [assumption|].
  apply IH. now apply wf_upd.
Qed.

Lemma cell_apply_ops ops h q :
  wf_grid h -> In q all_positions ->
  cell (apply_ops ops h) q = cell_ops ops q (cell h q).
Proof.
  unfold apply_ops, cell_ops. revert h.
  induction ops as [|[p f] ops IH]; intros h Hwf Hq; simpl; [reflexivity|].
  rewrite IH by (try apply wf_upd; assumption). f_equal.
  destruct (pos_eqb p q) eqn:E.
  - apply pos_eqb_eq in E. subst p. apply in_all_positions in Hq as [H1 H2].
    now apply cell_upd_same.
  - apply cell_upd_other. intros ->.
    assert (pos_eqb q q = true) by now apply pos_eqb_eq. congruence.
Qed.

Lemma remove_first_filter v l :
  NoDup l -> remove_first v l = List.filter (fun n => negb (n =? v)%Z) l.
Proof.
  induction 1 as [|x l Hx Hnd IH]; simpl; [reflexivity|].
  destruct (x =? v)%Z eqn:E; simpl; [|now rewrite IH].
  apply Z.eqb_eq in E. subst x. symmetry. apply forallb_filter_id.
  apply forallb_forall. intros y Hy. apply negb_true_iff, Z.eqb_neq. congruence.
Qed.

Lemma filter_absent v l :
  mem v l = false -> List.filter (fun n => negb (n =? v)%Z) l = l.
Proof.
  intros Hm. apply forallb_filter_id, forallb_forall. intros y Hy.
  apply negb_true_iff, Z.eqb_neq. intros ->. apply mem_In in Hy. congruence.
Qed.

Lemma drop_cell_prune val x : NoDup (candidates x) -> drop_cell val x = prune_cell val x.
Proof.
  intros Hnd. unfold drop_cell, prune_cell. destruct val as [v|]; [|reflexivity].
  destruct (isNone (value x)); simpl; [|reflexivity].
  destruct (mem v (candidates x)) eqn:Hm.
  - now rewrite remove_first_filter.
  - rewrite filter_absent by assumption. symmetry. apply set_candidates_same.
Qed.

Lemma prune_cell_idem val x : prune_cell val (prune_cell val x) = prune_cell val x.
Proof.
  unfold prune_cell. destruct val as [v|]; [|reflexivity].
  destruct (isNone (value x)) eqn:E; simpl; [|now rewrite E].
  rewrite E. unfold set_candidates. simpl. f_equal.
  induction (candidates x) as [|y l IH]; simpl; [reflexivity|].
  destruct (negb (y =? v)%Z) eqn:Ey; simpl; [rewrite Ey|]; now rewrite ?IH.
Qed.

Lemma prune_cell_NoDup val x : NoDup (candidates x) -> NoDup (candidates (prune_cell val x)).
Proof.
  intros Hnd. unfold prune_cell. destruct val as [v|]; [|assumption].
  destruct (isNone (value x)); simpl; [now apply NoDup_filter|assumption].
Qed.

(** Visiting a list of cells with the guarded removal: a visited candidate
    set is pruned, once. *)
Lemma cell_ops_drop val (l : list pos) q x :
  NoDup (candidates x) ->
  cell_ops (map (fun q' => (q', drop_cell val)) l) q x
  = if mem_pos q l then prune_cell val x else x.
Proof.
  unfold cell_ops. revert x. induction l as [|q' l IH]; intros x Hnd; simpl; [reflexivity|].
  unfold mem_pos in *. simpl.
  destruct (pos_eqb q' q) eqn:E.
  - assert (E' : pos_eqb q q' = true) by (apply pos_eqb_eq; apply pos_eqb_eq in E; congruence).
    rewrite E'. simpl. rewrite drop_cell_prune by assumption.
    rewrite IH by now apply prune_cell_NoDup.
    destruct (existsb (pos_eqb q) l); [apply prune_cell_idem|reflexivity].
  - assert (E' : pos_eqb q q' = false).
    { destruct (pos_eqb q q') eqn:E2; [|reflexivity].
      apply pos_eqb_eq in E2. subst q'.
      assert (pos_eqb q q = true) by now apply pos_eqb_eq. congruence. }
    rewrite E'. simpl. now apply IH.
Qed.

Lemma in_visited p q : In q (visited p) <-> In q (scan p).
Proof.
  unfold visited, scan, row_unit, col_unit, block_unit.
  rewrite !in_app_iff, in_flat_map, !in_map_iff. split.
  - intros [(k & Hk & [<-|[<-|[]]])|Hb]; [left|right; left|right; right]; eauto.
  - intros [(k & <- & Hk)|[(k & <- & Hk)|Hb]]; [left|left|right]; try assumption.
    + exists k. split; [assumption|now left].
    + exists k. split; [assumption|right; now left].
Qed.

Lemma mem_pos_visited p q : mem_pos q (visited p) = mem_pos q (scan p).
Proof.
  destruct (mem_pos q (scan p)) eqn:E.
  - apply mem_pos_In. apply in_visited. now apply mem_pos_In.
  - destruct (mem_pos q (visited p)) eqn:E'; [|reflexivity].
    apply mem_pos_In, in_visited, mem_pos_In in E'. congruence.
Qed.

Lemma cell_ops_cons p (f : Cell -> Cell) ops q x :
  cell_ops ((p, f) :: ops) q x = cell_ops ops q (if pos_eqb p q then f x else x).
Proof. reflexivity. Qed.

(** One position of [filled]: every cell of the grid afterwards. *)
Lemma remove_filled_at_cell h p q :
  wf_grid h -> In q all_positions -> NoDup (candidates (cell h q)) ->
  cell (remove_filled_at h p) q = propagated (value (cell h p)) p q (cell h q).
Proof.
  intros Hwf Hq Hnd. rewrite remove_filled_at_ops, cell_apply_ops by assumption.
  unfold propagate_ops, propagated. rewrite cell_ops_cons.
  destruct (pos_eqb p q) eqn:E.
  - rewrite cell_ops_drop by (simpl; constructor).
    destruct (mem_pos q (visited p)); [|reflexivity].
    unfold prune_cell. destruct (value (cell h p)); [|reflexivity].
    now destruct (isNone _).
  - rewrite cell_ops_drop by assumption. now rewrite mem_pos_visited.
Qed.

End PropagationEffect.

Section PropagationRun.

Implicit Types (g h : grid) (p q : pos) (x : Cell).

Lemma prune_cell_value val x : value (prune_cell val x) = value x.
Proof. unfold prune_cell. destruct val; [|reflexivity]. now destruct (isNone _). Qed.

Lemma prune_cell_given val x : given (prune_cell val x) = given x.
Proof. unfold prune_cell. destruct val; [|reflexivity]. now destruct (isNone _). Qed.

Lemma propagated_value val p q x : value (propagated val p q x) = value x.
Proof.
  unfold propagated. destruct (pos_eqb p q); [reflexivity|].
  destruct (mem_pos q (scan p)); [apply prune_cell_value|reflexivity].
Qed.

Lemma propagated_given val p q x : given (propagated val p q x) = given x.
Proof.
  unfold propagated. destruct (pos_eqb p q); [reflexivity|].
  destruct (mem_pos q (scan p)); [apply prune_cell_given|reflexivity].
Qed.

Lemma propagated_NoDup val p q x :
  NoDup (candidates x) -> NoDup (candidates (propagated val p q x)).
Proof.
  intros Hnd. unfold propagated. destruct (pos_eqb p q); [constructor|].
  destruct (mem_pos q (scan p)); [now apply prune_cell_NoDup|assumption].
Qed.

Lemma remove_filled_at_wf h p : wf_grid h -> wf_grid (remove_filled_at h p).
Proof. intros Hwf. rewrite remove_filled_at_ops. now apply apply_ops_wf. Qed.

Lemma drop_cell_value val x : value (drop_cell val x) = value x.
Proof.
  unfold drop_cell. destruct val; [|reflexivity]. now destruct (_ && _).
Qed.

Lemma remove_filled_at_value h p q :
  value (cell (remove_filled_at h p) q) = value (cell h q).
Proof.
  rewrite remove_filled_at_ops. unfold apply_ops.
  apply (fold_left_inv (fun a => value (cell a q) = value (cell h q))); [reflexivity|].
  intros a [p' f] Hin Ha. cbn [fst snd].
  assert (Hf : forall y, value (f y) = value y).
  { unfold propagate_ops in Hin. destruct Hin as [[= <- <-]|Hin]; [reflexivity|].
    apply in_map_iff in Hin as (q' & [= <- <-] & _). intros y. apply drop_cell_value. }
  destruct (cell_upd_cases a p' q f) as [->|[-> ->]]; [assumption|].
  now rewrite Hf.
Qed.

(** The whole run, cell by cell. *)
Lemma remove_filled_candidates_cells g filled q :
  In q all_positions ->
  forall h, wf_grid h -> (forall q', value (cell h q') = value (cell g q')) ->
    NoDup (candidates (cell h q)) ->
    cell (remove_filled_candidates h filled) q = propagated_all g filled q (cell h q).
Proof.
  intros Hq. unfold remove_filled_candidates, propagated_all.
  induction filled as [|p filled IH]; intros h Hwf Hval Hnd; simpl; [reflexivity|].
  rewrite IH.
  - now rewrite (remove_filled_at_cell h p q Hwf Hq Hnd), Hval.
  - now apply remove_filled_at_wf.
  - intros q'. now rewrite remove_filled_at_value.
  - rewrite (remove_filled_at_cell h p q Hwf Hq Hnd). now apply propagated_NoDup.
Qed.

Lemma remove_filled_candidates_wf g filled :
  wf_grid g -> wf_grid (remove_filled_candidates g filled).
Proof.
  unfold remove_filled_candidates. revert g.
  induction filled as [|p filled IH]; intros g Hwf; simpl; [assumption|].
  apply IH. now apply remove_filled_at_wf.
Qed.

Lemma filter_swap (f f' : Z -> bool) (l : list Z) :
  List.filter f (List.filter f' l) = List.filter f' (List.filter f l).
Proof.
  induction l as [|y l IH]; simpl; [reflexivity|].
  destruct (f y) eqn:E, (f' y) eqn:E'; simpl; rewrite ?E, ?E'; now rewrite IH.
Qed.

Lemma prune_cell_swap v1 v2 x :
  prune_cell v1 (prune_cell v2 x) = prune_cell v2 (prune_cell v1 x).
Proof.
  unfold prune_cell. destruct v1 as [a|], v2 as [b|]; try reflexivity.
  destruct (isNone (value x)) eqn:E; simpl; rewrite ?E; [|reflexivity].
  unfold set_candidates. simpl. f_equal. apply filter_swap.
Qed.

Lemma prune_cell_cleared val x : prune_cell val (set_candidates [] x) = set_candidates [] x.
Proof.
  unfold prune_cell. destruct val; [|reflexivity]. simpl. now destruct (isNone _).
Qed.

Lemma cleared_prune_cell val x :
  set_candidates [] (prune_cell val x) = set_candidates [] x.
Proof.
  unfold set_candidates. now rewrite prune_cell_value, prune_cell_given.
Qed.

Lemma propagated_swap v1 p1 v2 p2 q x :
  propagated v1 p1 q (propagated v2 p2 q x) = propagated v2 p2 q (propagated v1 p1 q x).
Proof.
  unfold propagated.
  destruct (pos_eqb p1 q), (pos_eqb p2 q), (mem_pos q (scan p1)), (mem_pos q (scan p2));
    try reflexivity;
    rewrite ?prune_cell_cleared, ?cleared_prune_cell; try reflexivity.
  apply prune_cell_swap.
Qed.

Lemma fold_left_Permutation {A B} (f : A -> B -> A) (l l' : list B) :
  (forall a y z, f (f a y) z = f (f a z) y) ->
  Permutation l l' -> forall a, fold_left f l a = fold_left f l' a.
Proof.
  intros Hswap. induction 1 as [|y l l' _ IH|y z l|l1 l2 l3 _ IH1 _ IH2]; intros a; simpl.
  - reflexivity.
  - apply IH.
  - now rewrite Hswap.
  - now rewrite IH1.
Qed.

End PropagationRun.

(** X13: the order in which the filled positions are visited does not
    matter. [filled] is a Python set, whose iteration order is not fixed; on
    a grid of candidate sets any two orders give the same grid. *)
Theorem remove_filled_candidates_any_order (g : grid) (filled filled' : list pos) :
  wf_grid g -> candidate_sets g -> Permutation filled filled' ->
  remove_filled_candidates g filled = remove_filled_candidates g filled'.
Proof.
  intros Hwf Hsets Hperm.
  apply grid_ext; try now apply remove_filled_candidates_wf.
  intros q Hq.
  rewrite !(remove_filled_candidates_cells g _ q Hq g Hwf) by (auto using Hsets).
  unfold propagated_all. apply fold_left_Permutation; [|assumption].
  intros a y z. apply propagated_swap.
Qed.

Lemma remove_filled_candidates_any_order_witness :
  wf_grid after_first_pass /\ candidate_sets after_first_pass /\
  Permutation first_pass_fills (rev first_pass_fills) /\
  remove_filled_candidates after_first_pass first_pass_fills
    = remove_filled_candidates after_first_pass (rev first_pass_fills).
Proof.
  assert (Hs : candidate_sets after_first_pass)
    by (apply candidate_setsb_spec; vm_compute; reflexivity).
  split; [wf_tac|]. split; [exact Hs|]. split; [apply Permutation_rev|].
  apply (remove_filled_candidates_any_order after_first_pass);
    [wf_tac | exact Hs | apply Permutation_rev].
Defined.

Section PropagationMeaning.

Implicit Types (g h : grid) (p q : pos) (x : Cell).

Lemma propagated_all_value g l q x : value (propagated_all g l q x) = value x.
Proof.
  unfold propagated_all. revert x. induction l as [|p l IH]; intros x; simpl; [reflexivity|].
  now rewrite IH, propagated_value.
Qed.

Lemma propagated_all_given g l q x : given (propagated_all g l q x) = given x.
Proof.
  unfold propagated_all. revert x. induction l as [|p l IH]; intros x; simpl; [reflexivity|].
  now rewrite IH, propagated_given.
Qed.

Lemma propagated_all_empty g l q x :
  candidates x = [] -> candidates (propagated_all g l q x) = [].
Proof.
  unfold propagated_all. revert x. induction l as [|p l IH]; intros x Hx; simpl; [assumption|].
  apply IH. unfold propagated. destruct (pos_eqb p q); [reflexivity|].
  destruct (mem_pos q (scan p)); [|assumption].
  unfold prune_cell. destruct (value (cell g p)); [|assumption].
  destruct (isNone _); [|assumption]. simpl. now rewrite Hx.
Qed.

Lemma pos_eqb_sym p q : pos_eqb p q = pos_eqb q p.
Proof. unfold pos_eqb. now rewrite (Nat.eqb_sym p.1), (Nat.eqb_sym p.2). Qed.

Lemma propagated_all_filled g l q x :
  mem_pos q l = true -> candidates (propagated_all g l q x) = [].
Proof.
  revert x. induction l as [|p l IH]; intros x Hm; [discriminate|].
  unfold mem_pos in Hm. simpl in Hm. unfold propagated_all. simpl.
  fold (propagated_all g l q (propagated (value (cell g p)) p q x)).
  destruct (pos_eqb q p) eqn:E.
  - apply propagated_all_empty. unfold propagated. now rewrite pos_eqb_sym, E.
  - now apply IH.
Qed.

Lemma propagated_all_resolved g l q x :
  mem_pos q l = false -> isNone (value x) = false -> propagated_all g l q x = x.
Proof.
  revert x. induction l as [|p l IH]; intros x Hm Hx; [reflexivity|].
  unfold mem_pos in Hm. simpl in Hm. apply orb_false_iff in Hm as [E Hm].
  unfold propagated_all. simpl.
  fold (propagated_all g l q (propagated (value (cell g p)) p q x)).
  assert (Ex : propagated (value (cell g p)) p q x = x).
  { unfold propagated. rewrite pos_eqb_sym, E.
    destruct (mem_pos q (scan p)); [|reflexivity].
    unfold prune_cell. destruct (value (cell g p)); [|reflexivity]. now rewrite Hx. }
  rewrite Ex. now apply IH.
Qed.

Lemma in_prune_cell val x n :
  isNone (value x) = true ->
  (In n (candidates (prune_cell val x)) <-> In n (candidates x) /\ val <> Some n).
Proof.
  intros Hx. unfold prune_cell. destruct val as [v|]; [rewrite Hx; simpl|].
  - rewrite filter_In, negb_true_iff, Z.eqb_neq. split; intros [H1 H2]; split; congruence.
  - split; [intros H; split; [assumption|discriminate]|tauto].
Qed.

Lemma propagated_all_unresolved g l q x n :
  mem_pos q l = false -> isNone (value x) = true ->
  (In n (candidates (propagated_all g l q x)) <->
   In n (candidates x) /\
   ~ exists p, In p l /\ In q (scan p) /\ value (cell g p) = Some n).
Proof.
  revert x. induction l as [|p l IH]; intros x Hm Hx.
  { unfold propagated_all. cbn [fold_left].
    split; [intros H; split; [assumption|intros (p & [] & _)]|tauto]. }
  unfold mem_pos in Hm. simpl in Hm. apply orb_false_iff in Hm as [E Hm].
  unfold propagated_all. cbn [fold_left].
  fold (propagated_all g l q (propagated (value (cell g p)) p q x)).
  rewrite IH; [|assumption|now rewrite propagated_value].
  unfold propagated. rewrite pos_eqb_sym, E.
  destruct (mem_pos q (scan p)) eqn:Es.
  - apply mem_pos_In in Es. rewrite in_prune_cell by assumption. split.
    + intros [[Hin Hne] Hno]. split; [assumption|].
      intros (p' & [<-|Hp'] & Hq' & Hv'); [congruence|]. apply Hno. eauto.
    + intros [Hin Hno]. split; [split; [assumption|]|].
      * intros Hv. apply Hno. exists p. split; [now left|now split].
      * intros (p' & Hp' & H'). apply Hno. exists p'. split; [now right|assumption].
  - split.
    + intros [Hin Hno]. split; [assumption|].
      intros (p' & [<-|Hp'] & Hq' & Hv').
      * apply mem_pos_In in Hq'. congruence.
      * apply Hno. eauto.
    + intros [Hin Hno]. split; [assumption|].
      intros (p' & Hp' & H'). apply Hno. exists p'. split; [now right|assumption].
Qed.

Lemma mem_pos_false q l : ~ In q l -> mem_pos q l = false.
Proof.
  intros Hq. destruct (mem_pos q l) eqn:E; [|reflexivity].
  apply mem_pos_In in E. contradiction.
Qed.

End PropagationMeaning.

(** X14: what [remove_filled_candidates] does, cell by cell, on a grid of
    candidate sets. No value and no given flag changes. A cell of [filled]
    ends with no candidates; any other resolved cell is untouched; any other
    unresolved cell loses exactly the candidates that are the value of a
    filled position in its row, column or block, and keeps the rest. *)
Theorem remove_filled_candidates_effect (g : grid) (filled : list pos) (q : pos) :
  wf_grid g -> candidate_sets g ->
  (forall p, In p filled -> In p all_positions) -> In q all_positions ->
  value (cell (remove_filled_candidates g filled) q) = value (cell g q) /\
  given (cell (remove_filled_candidates g filled) q) = given (cell g q) /\
  (In q filled -> candidates (cell (remove_filled_candidates g filled) q) = []) /\
  (~ In q filled -> value (cell g q) <> None ->
     cell (remove_filled_candidates g filled) q = cell g q) /\
  (~ In q filled -> value (cell g q) = None ->
     forall n, In n (candidates (cell (remove_filled_candidates g filled) q)) <->
               In n (candidates (cell g q)) /\
               ~ exists p, In p filled /\ sees p q /\ value (cell g p) = Some n).
Proof.
  intros Hwf Hsets Hfilled Hq.
  rewrite (remove_filled_candidates_cells g filled q Hq g Hwf) by (auto using Hsets).
  split; [apply propagated_all_value|]. split; [apply propagated_all_given|].
  split; [|split].
  - intros Hin. apply propagated_all_filled. now apply mem_pos_In.
  - intros Hnin Hv. apply propagated_all_resolved; [now apply mem_pos_false|].
    now destruct (value (cell g q)).
  - intros Hnin Hv n.
    rewrite propagated_all_unresolved; [|now apply mem_pos_false|now rewrite Hv].
    split; intros [Hin Hno]; (split; [assumption|]); intros (p & Hp & Hs & Hval);
      apply Hno; exists p; (split; [assumption|]); (split; [|assumption]).
    + apply in_scan_sees; [now apply Hfilled|assumption].
    + apply in_scan_sees in Hs; [assumption|now apply Hfilled].
Qed.

Lemma remove_filled_candidates_effect_witness :
  wf_grid after_first_pass /\ candidate_sets after_first_pass /\
  (forall p, In p first_pass_fills -> In p all_positions) /\ In (4, 3) all_positions /\
  value (cell (remove_filled_candidates after_first_pass first_pass_fills) (4, 3))
    = value (cell after_first_pass (4, 3)) /\
  given (cell (remove_filled_candidates after_first_pass first_pass_fills) (4, 3))
    = given (cell after_first_pass (4, 3)) /\
  (In (4, 3) first_pass_fills ->
     candidates (cell (remove_filled_candidates after_first_pass first_pass_fills) (4, 3)) = []) /\
  (~ In (4, 3) first_pass_fills -> value (cell after_first_pass (4, 3)) <> None ->
     cell (remove_filled_candidates after_first_pass first_pass_fills) (4, 3)
     = cell after_first_pass (4, 3)) /\
  (~ In (4, 3) first_pass_fills -> value (cell after_first_pass (4, 3)) = None ->
     forall n,
       In n (candidates (cell (remove_filled_candidates after_first_pass first_pass_fills)
                              (4, 3))) <->
       In n (candidates (cell after_first_pass (4, 3))) /\
       ~ exists p, In p first_pass_fills /\ sees p (4, 3) /\
                   value (cell after_first_pass p) = Some n).
Proof.
  assert (Hs : candidate_sets after_first_pass)
    by (apply candidate_setsb_spec; vm_compute; reflexivity).
  assert (Hf : forall p, In p first_pass_fills -> In p all_positions).
  { intros p Hp. apply in_all_positions. simpl in Hp.
    repeat (destruct Hp as [<-|Hp]; [simpl; lia|]). destruct Hp. }
  assert (Hq : In (4, 3) all_positions) by (apply in_all_positions; simpl; lia).
  split; [wf_tac|]. split; [exact Hs|]. split; [exact Hf|]. split; [exact Hq|].
  apply (remove_filled_candidates_effect after_first_pass first_pass_fills (4, 3));
    [wf_tac | exact Hs | exact Hf | exact Hq].
Defined.

(** ** Strategy passes: invariants and the changed flag *)

Section PassInvariants.

Implicit Types (g h : grid) (p q : pos) (acc : bool * grid).

Lemma cell_upd_real g p (f : Cell -> Cell) :
  cell g p <> blank -> cell (upd g p f) p = f (cell g p).
Proof.
  intros Hreal. unfold cell, upd in *. rewrite list_lookup_alter_eq.
  destruct (g !! p.1) as [row|]; simpl; [|congruence].
  rewrite list_lookup_alter_eq. destruct (row !! p.2); simpl; [reflexivity|congruence].
Qed.

Lemma careful_refl g : careful g g.
Proof.
  split; [auto|]. split; [reflexivity|]. split; [auto|]. split; [auto|].
  intros q. apply Nat.le_refl.
Qed.

Lemma careful_trans g1 g2 g3 : careful g1 g2 -> careful g2 g3 -> careful g1 g3.
Proof.
  intros (W1 & U1 & G1 & N1 & L1) (W2 & U2 & G2 & N2 & L2).
  split; [auto|]. split; [|split; [auto|split; [auto|]]].
  - intros q Hv. rewrite U2; rewrite U1; auto.
  - intros q. etransitivity; [apply L2|apply L1].
Qed.

Lemma careful_upd g p (f : Cell -> Cell) :
  value (cell g p) = None ->
  (given (f (cell g p)) = true -> given (cell g p) = true) ->
  (NoDup (candidates (cell g p)) -> NoDup (candidates (f (cell g p)))) ->
  length (candidates (f (cell g p))) <= length (candidates (cell g p)) ->
  careful g (upd g p f).
Proof.
  intros Hv Hg Hn Hl. split; [apply wf_upd|].
  split; [|split; [|split]]; intros q;
    destruct (cell_upd_cases g p q f) as [->|[-> ->]]; auto; congruence.
Qed.

Lemma progress_trans_l g1 g2 g3 : progress g1 g2 -> careful g2 g3 -> progress g1 g3.
Proof.
  intros (q & H) (_ & U & _ & _ & L). exists q. destruct H as [[H1 H2]|H].
  - left. split; [assumption|]. rewrite U; assumption.
  - right. specialize (L q). lia.
Qed.

Lemma progress_trans_r g1 g2 g3 : careful g1 g2 -> progress g2 g3 -> progress g1 g3.
Proof.
  intros (_ & U & _ & _ & L) (q & H). exists q. destruct H as [[H1 H2]|H].
  - left. split; [|assumption].
    destruct (value (cell g1 q)) eqn:E; [|reflexivity].
    rewrite U in H1 by congruence. congruence.
  - right. specialize (L q). lia.
Qed.

Lemma pass_rel_refl acc : pass_rel acc acc.
Proof. split; [apply careful_refl|auto]. Qed.

Lemma pass_rel_trans acc1 acc2 acc3 :
  pass_rel acc1 acc2 -> pass_rel acc2 acc3 -> pass_rel acc1 acc3.
Proof.
  intros [C12 F12] [C23 F23]. split; [eapply careful_trans; eassumption|].
  intros H3. destruct (F23 H3) as [H2|P23].
  - destruct (F12 H2) as [H1|P12]; [now left|right].
    eapply progress_trans_l; eassumption.
  - right. eapply progress_trans_r; eassumption.
Qed.

Lemma pass_rel_fold {B} (f : bool * grid -> B -> bool * grid) (l : list B) :
  (forall acc x, In x l -> pass_rel acc (f acc x)) ->
  forall acc, pass_rel acc (fold_left f l acc).
Proof.
  induction l as [|x l IH]; intros Hf acc; simpl; [apply pass_rel_refl|].
  eapply pass_rel_trans; [apply Hf; now left|].
  apply IH. intros acc' y Hy. apply Hf. now right.
Qed.

Lemma pass_rel_for_box r0 r1 c0 c1 (f : bool * grid -> pos -> bool * grid) :
  (forall acc p, pass_rel acc (f acc p)) ->
  forall acc, pass_rel acc (for_box r0 r1 c0 c1 f acc).
Proof. intros Hf acc. rewrite for_box_fold. apply pass_rel_fold. auto. Qed.

Lemma pass_rel_fill changed g p n :
  wants g n p = true -> pass_rel (changed, g) (true, fill g p n).
Proof.
  intros Hw. pose proof (wants_unset g n p Hw) as Hu.
  assert (Hv : value (cell g p) = None)
    by (unfold unset in Hu; now destruct (value (cell g p))).
  split; cbn [fst snd].
  - unfold fill. apply careful_upd; simpl; auto; [discriminate|constructor|lia].
  - intros _. right. exists p. left. split; [assumption|].
    destruct (cell_fill g p n Hw) as [E _]. congruence.
Qed.

Lemma filter_shorter (f : Z -> bool) (l : list Z) :
  List.filter f l <> l -> length (List.filter f l) < length l.
Proof.
  induction l as [|y l IH]; simpl; [congruence|].
  destruct (f y); simpl.
  - intros H. assert (List.filter f l <> l) by congruence. specialize (IH H0). lia.
  - intros _. pose proof (filter_length_le f l). lia.
Qed.

Lemma pass_rel_eliminate gone skip acc p : pass_rel acc (eliminate gone skip acc p).
Proof.
  destruct acc as [changed g]. unfold eliminate.
  destruct (negb skip && unset g p) eqn:E; [|apply pass_rel_refl].
  apply andb_true_iff in E as [_ Hu].
  assert (Hv : value (cell g p) = None)
    by (unfold unset in Hu; now destruct (value (cell g p))).
  set (after := List.filter _ _).
  split; cbn [fst snd].
  - apply careful_upd; simpl; auto; [now apply NoDup_filter|apply filter_length_le].
  - destruct (list_eqb after (candidates (cell g p))) eqn:El; simpl; [now left|].
    intros _. right. exists p. right.
    assert (Hne : after <> candidates (cell g p)).
    { intros H. apply list_eqb_eq in H. congruence. }
    rewrite cell_upd_real.
    + simpl. now apply filter_shorter.
    + intros Hb. apply Hne. unfold after. now rewrite Hb.
Qed.

Lemma SingleCandidate_rel g : pass_rel (false, g) (SingleCandidateStrategy.apply g).
Proof.
  unfold SingleCandidateStrategy.apply. apply pass_rel_for_box.
  intros [changed h] p. unfold SingleCandidateStrategy.visit.
  destruct (isNone (value (cell h p)) && _) eqn:E; [|apply pass_rel_refl].
  apply andb_true_iff in E as [Hn Hl]. apply Nat.eqb_eq in Hl.
  assert (Hv : value (cell h p) = None) by now destruct (value (cell h p)).
  split; cbn [fst snd].
  - apply careful_upd; simpl; auto. discriminate.
  - intros _. right. exists p. left. split; [assumption|].
    rewrite cell_upd_real; [discriminate|].
    intros Hb. rewrite Hb in Hl. discriminate.
Qed.

Lemma hidden_single_step_rel acc un : pass_rel acc (hidden_single_step acc un).
Proof.
  destruct acc as [changed h], un as [u n]. unfold hidden_single_step.
  destruct (List.filter _ _) as [|p [|]] eqn:E; try apply pass_rel_refl.
  apply filter_singleton in E as [_ Hw]. now apply pass_rel_fill.
Qed.

Lemma hidden_single_pass_rel partition g :
  pass_rel (false, g) (hidden_single_pass partition g).
Proof. apply pass_rel_fold. intros a un _. apply hidden_single_step_rel. Qed.

Lemma NakedPairColumn_rel g : pass_rel (false, g) (NakedPairColumnStrategy.apply g).
Proof.
  unfold NakedPairColumnStrategy.apply. apply pass_rel_fold.
  intros [changed h] c _. unfold NakedPairColumnStrategy.visit.
  destruct (first_pair _) as [[[i1 i2] cand1]|]; [|apply pass_rel_refl].
  apply pass_rel_fold. intros a i _. apply pass_rel_eliminate.
Qed.

Lemma NakedPairRow_rel g : pass_rel (false, g) (NakedPairRowStrategy.apply g).
Proof.
  unfold NakedPairRowStrategy.apply. apply pass_rel_fold.
  intros [changed h] r _. unfold NakedPairRowStrategy.visit.
  destruct (first_pair _) as [[[j1 j2] cand1]|]; [|apply pass_rel_refl].
  apply pass_rel_fold. intros a j _. apply pass_rel_eliminate.
Qed.

Lemma NakedPairSubgrid_rel g : pass_rel (false, g) (NakedPairSubgridStrategy.apply g).
Proof.
  unfold NakedPairSubgridStrategy.apply.
  apply pass_rel_fold. intros a br _.
  apply pass_rel_fold. intros [changed h] bc _.
  unfold NakedPairSubgridStrategy.visit.
  destruct (first_pair _) as [[[p1 p2] cand1]|]; [|apply pass_rel_refl].
  apply pass_rel_for_box. intros a' p. apply pass_rel_eliminate.
Qed.

Lemma NakedTripletColumn_rel g : pass_rel (false, g) (NakedTripletColumnStrategy.apply g).
Proof.
  unfold NakedTripletColumnStrategy.apply. apply pass_rel_fold.
  intros [changed h] c _. unfold NakedTripletColumnStrategy.visit.
  destruct (first_triplet _) as [[idxs union]|]; [|apply pass_rel_refl].
  apply pass_rel_fold. intros a i _. apply pass_rel_eliminate.
Qed.

Lemma NakedTripletRow_rel g : pass_rel (false, g) (NakedTripletRowStrategy.apply g).
Proof.
  unfold NakedTripletRowStrategy.apply. apply pass_rel_fold.
  intros [changed h] r _. unfold NakedTripletRowStrategy.visit.
  destruct (first_triplet _) as [[idxs union]|]; [|apply pass_rel_refl].
  apply pass_rel_fold. intros a j _. apply pass_rel_eliminate.
Qed.

Lemma NakedTripletSubgrid_rel g :
  pass_rel (false, g) (NakedTripletSubgridStrategy.apply g).
Proof.
  unfold NakedTripletSubgridStrategy.apply.
  apply pass_rel_fold. intros a br _.
  apply pass_rel_fold. intros [changed h] bc _.
  unfold NakedTripletSubgridStrategy.visit.
  destruct (first_triplet _) as [[positions union]|]; [|apply pass_rel_refl].
  apply pass_rel_for_box. intros a' p. apply pass_rel_eliminate.
Qed.

Lemma strategy_rel s g : In s strateties -> pass_rel (false, g) (apply s g).
Proof.
  unfold strateties. simpl.
  intros [<-|[<-|[<-|[<-|[<-|[<-|[<-|[<-|[<-|[<-|[]]]]]]]]]]]; simpl.
  - apply SingleCandidate_rel.
  - rewrite SubgridSingle_refines. apply hidden_single_pass_rel.
  - rewrite RowSingle_refines. apply hidden_single_pass_rel.
  - rewrite ColumnSingle_refines. apply hidden_single_pass_rel.
  - apply NakedPairColumn_rel.
  - apply NakedPairRow_rel.
  - apply NakedPairSubgrid_rel.
  - apply NakedTripletColumn_rel.
  - apply NakedTripletRow_rel.
  - apply NakedTripletSubgrid_rel.
Qed.

Lemma progress_differs g g' : progress g g' -> g' <> g.
Proof.
  intros (q & [[H1 H2]|H]) ->; [congruence|lia].
Qed.

End PassInvariants.

(** X15: what every strategy pass keeps. The grid stays 9x9; a resolved
    cell is not written at all (value, flag and candidate list as before);
    no cell gets the given flag; a candidate list that is a set stays a
    set, and no candidate list gets longer. *)
Theorem strategy_pass_keeps (s : Strategy) (g : grid) :
  In s strateties -> careful g (snd (apply s g)).
Proof. intros Hs. exact (proj1 (strategy_rel s g Hs)). Qed.

Lemma strategy_pass_keeps_witness :
  In (nth 1 strateties (mkStrategy "" (fun g => (false, g)))) strateties /\
  careful (get_cell_candidates (grid_of classic_puzzle))
          (snd (apply (nth 1 strateties (mkStrategy "" (fun g => (false, g))))
                      (get_cell_candidates (grid_of classic_puzzle)))).
Proof.
  split; [simpl; tauto|].
  apply (strategy_pass_keeps (nth 1 strateties (mkStrategy "" (fun g => (false, g))))).
  simpl. tauto.
Defined.

(** X16: the changed flag tells the truth. For every strategy of the list,
    the pass reports changed exactly when the grid it returns differs from
    the grid it was given; when it does, some cell was filled or some
    candidate list got shorter. *)
Theorem strategy_changed_iff (s : Strategy) (g : grid) :
  In s strateties ->
  (fst (apply s g) = true <-> snd (apply s g) <> g) /\
  (fst (apply s g) = true -> progress g (snd (apply s g))).
Proof.
  intros Hs. destruct (strategy_rel s g Hs) as [_ Hflag].
  destruct (strategy_pass s g Hs) as [_ Hquiet]. cbn [fst snd] in *.
  assert (Hp : fst (apply s g) = true -> progress g (snd (apply s g))).
  { intros H. destruct (Hflag H) as [?|?]; [discriminate|assumption]. }
  split; [|exact Hp]. split.
  - intros H. now apply progress_differs, Hp.
  - intros Hne. destruct (fst (apply s g)); [reflexivity|].
    now destruct (Hquiet eq_refl).
Qed.

Lemma strategy_changed_iff_witness :
  In (nth 4 strateties (mkStrategy "" (fun g => (false, g)))) strateties /\
  (fst (apply (nth 4 strateties (mkStrategy "" (fun g => (false, g)))) two_pairs_grid) = true <->
   snd (apply (nth 4 strateties (mkStrategy "" (fun g => (false, g)))) two_pairs_grid)
     <> two_pairs_grid) /\
  (fst (apply (nth 4 strateties (mkStrategy "" (fun g => (false, g)))) two_pairs_grid) = true ->
   progress two_pairs_grid
     (snd (apply (nth 4 strateties (mkStrategy "" (fun g => (false, g)))) two_pairs_grid))).
Proof.
  split; [simpl; tauto|].
  apply (strategy_changed_iff (nth 4 strateties (mkStrategy "" (fun g => (false, g))))).
  simpl. tauto.
Defined.

(** ** Guided orchestrator: invariants and signals *)

Section Session.

Implicit Types (g h : grid) (p q : pos) (st : gstate).

Lemma propagated_all_NoDup g l q x :
  NoDup (candidates x) -> NoDup (candidates (propagated_all g l q x)).
Proof.
  unfold propagated_all. revert x. induction l as [|p l IH]; intros x Hx; simpl; [assumption|].
  apply IH. now apply propagated_NoDup.
Qed.

Lemma remove_filled_candidates_keeps g filled :
  wf_grid g -> candidate_sets g ->
  wf_grid (remove_filled_candidates g filled) /\
  candidate_sets (remove_filled_candidates g filled) /\
  forall q, In q all_positions ->
    value (cell (remove_filled_candidates g filled) q) = value (cell g q) /\
    given (cell (remove_filled_candidates g filled) q) = given (cell g q).
Proof.
  intros Hwf Hsets. split; [now apply remove_filled_candidates_wf|].
  split; intros q Hq;
    rewrite (remove_filled_candidates_cells g filled q Hq g Hwf) by (auto using Hsets).
  - apply propagated_all_NoDup. now apply Hsets.
  - split; [apply propagated_all_value|apply propagated_all_given].
Qed.

Lemma get_cell_candidates_keeps g :
  wf_grid g -> candidate_sets g ->
  wf_grid (get_cell_candidates g) /\ candidate_sets (get_cell_candidates g) /\
  forall q, In q all_positions ->
    value (cell (get_cell_candidates g) q) = value (cell g q) /\
    given (cell (get_cell_candidates g) q) = given (cell g q).
Proof.
  intros Hwf Hsets. destruct (get_cell_candidates_cells g Hwf) as (Hwf1 & Hval & Hcell & _).
  split; [assumption|]. split; intros q Hq; rewrite (Hcell q Hq); unfold recomputed.
  - destruct (unset g q); [|now apply Hsets]. simpl.
    unfold valid_digits. apply NoDup_filter, NoDup_digits.
  - now destruct (unset g q).
Qed.

Lemma session_ok_iteration g0 st :
  session_ok g0 st -> session_ok g0 (fst (guided_iteration st)).
Proof.
  intros (Hwf & Hsets & Hidx & Hclue & Hgiven). unfold guided_iteration.
  set (s := nth (strategies_idx st) strateties _).
  assert (Hs : In s strateties) by now apply nth_In.
  pose proof (strategy_rel s (g_cells st) Hs) as [(Cw & Cu & Cg & Cn & _) _].
  destruct (apply s (g_cells st)) as [changed g1]. cbn [fst snd] in *.
  set (last := List.filter _ (filled_positions g1)).
  set (g2 := match last with [] => g1 | _ :: _ => remove_filled_candidates g1 last end).
  assert (Hsets1 : candidate_sets g1) by (intros q Hq; apply Cn; now apply Hsets).
  assert (H2 : wf_grid g2 /\ candidate_sets g2 /\
               forall q, In q all_positions ->
                 value (cell g2 q) = value (cell g1 q) /\
                 given (cell g2 q) = given (cell g1 q)).
  { unfold g2. destruct last; [now auto|].
    apply remove_filled_candidates_keeps; auto. }
  destruct H2 as (Hwf2 & Hsets2 & Hsame2).
  assert (Hclue2 : forall q, In q all_positions -> value (cell g0 q) <> None ->
                     value (cell g2 q) = value (cell g0 q)).
  { intros q Hq Hv. rewrite (proj1 (Hsame2 q Hq)), <- (Hclue q Hq Hv).
    rewrite Cu; [reflexivity|]. rewrite (Hclue q Hq Hv). assumption. }
  assert (Hgiven2 : forall q, In q all_positions -> given (cell g2 q) = true ->
                      given (cell g0 q) = true).
  { intros q Hq Hg. apply (Hgiven q Hq), Cg. now rewrite <- (proj2 (Hsame2 q Hq)). }
  assert (Hmk : forall i l1 l2, i < length strateties ->
            session_ok g0 (mkState g2 i l1 l2)).
  { intros i l1 l2 Hi. split; [exact Hwf2|]. split; [exact Hsets2|].
    split; [exact Hi|]. split; assumption. }
  destruct changed; cbn [fst].
  - now apply Hmk.
  - destruct (length strateties <=? strategies_idx st + 1) eqn:E; cbn [fst].
    + apply Hmk. rewrite strateties_length. lia.
    + apply Nat.leb_gt in E. now apply Hmk.
Qed.

Lemma session_ok_loop g0 answers :
  forall st, session_ok g0 st -> session_ok g0 (snd (guided_loop answers st)).
Proof.
  induction answers as [|a answers IH]; intros st Hok; simpl;
    pose proof (session_ok_iteration g0 st Hok) as Hok';
    destruct (guided_iteration st) as [st' solved]; cbn [fst] in Hok';
    destruct solved; try assumption.
  destruct a; [now apply IH|assumption].
Qed.

Lemma guided_loop_signals answers :
  forall st,
    (fst (guided_loop answers st) = Some Solved ->
       find_empty (g_cells (snd (guided_loop answers st))) = None /\
       strategies_idx (snd (guided_loop answers st)) = 0) /\
    (fst (guided_loop answers st) = Some Stopped -> In false answers) /\
    (fst (guided_loop answers st) = None -> forall a, In a answers -> a = true).
Proof.
  assert (Hsolved : forall st st', guided_iteration st = (st', true) ->
            find_empty (g_cells st') = None /\ strategies_idx st' = 0).
  { intros st st'. unfold guided_iteration.
    destruct (apply _ (g_cells st)) as [changed g1].
    destruct changed; [discriminate|].
    destruct (length strateties <=? strategies_idx st + 1); [|discriminate].
    intros [= <- E]. cbn [g_cells strategies_idx]. split; [|reflexivity].
    now destruct (find_empty _). }
  induction answers as [|a answers IH]; intros st; simpl;
    destruct (guided_iteration st) as [st' solved] eqn:Eit; destruct solved; cbn [fst snd].
  - split; [intros _; now apply (Hsolved st)|]. split; [discriminate|discriminate].
  - split; [discriminate|]. split; [discriminate|]. intros _ a [].
  - split; [intros _; now apply (Hsolved st)|]. split; [discriminate|discriminate].
  - destruct a; cbn [fst snd].
    + destruct (IH st') as (I1 & I2 & I3). split; [assumption|].
      split; [intros H; right; now apply I2|].
      intros H a [<-|Ha]; [reflexivity|now apply I3].
    + split; [discriminate|]. split; [intros _; now left|discriminate].
Qed.

End Session.

(** X17: what holds at every prompt of a guided session, and at its end.
    Started on a 9x9 grid whose candidate lists are sets (a parsed puzzle
    has none), the session always has a 9x9 grid of candidate sets and a
    strategy index inside the strategy list; every clue still has its value
    and no cell has been flagged given. *)
Theorem guided_solver_keeps (g : grid) (answers : list bool) :
  wf_grid g -> candidate_sets g ->
  session_ok g (snd (guided_solver g answers)).
Proof.
  intros Hwf Hsets. unfold guided_solver.
  destruct (get_cell_candidates_keeps g Hwf Hsets) as (Hwf1 & Hsets1 & Hsame).
  assert (H0 : session_ok g (mkState (get_cell_candidates g) 0 [] [])).
  { split; [assumption|]. split; [assumption|]. split; [rewrite strateties_length; simpl; lia|].
    cbn [g_cells]. split; intros q Hq.
    - intros _. apply (Hsame q Hq).
    - rewrite (proj2 (Hsame q Hq)). auto. }
  now apply session_ok_loop.
Qed.

Lemma guided_solver_keeps_witness :
  wf_grid (grid_of classic_puzzle) /\ candidate_sets (grid_of classic_puzzle) /\
  session_ok (grid_of classic_puzzle)
             (snd (guided_solver (grid_of classic_puzzle) (repeat true 12))).
Proof.
  assert (Hs : candidate_sets (grid_of classic_puzzle))
    by (apply candidate_setsb_spec; vm_compute; reflexivity).
  split; [wf_tac|]. split; [exact Hs|].
  apply (guided_solver_keeps (grid_of classic_puzzle) (repeat true 12)); [wf_tac|exact Hs].
Defined.

(** X18: how a guided session ends. It ends as solved only right after the
    strategy index wrapped to 0 on a grid with no unresolved cell; it ends
    as stopped only if the caller answered no; and it is still waiting at
    the prompt only if every answer so far was yes. *)
Theorem guided_solver_signals (g : grid) (answers : list bool) :
  (fst (guided_solver g answers) = Some Solved ->
     find_empty (g_cells (snd (guided_solver g answers))) = None /\
     strategies_idx (snd (guided_solver g answers)) = 0) /\
  (fst (guided_solver g answers) = Some Stopped -> In false answers) /\
  (fst (guided_solver g answers) = None -> forall a, In a answers -> a = true).
Proof. unfold guided_solver. apply guided_loop_signals. Qed.

(** X19: once the session has ended, further answers are not read: with
    more answers appended the outcome and the final state are the same. *)
Theorem guided_solver_ignores_later_answers (g : grid) (answers more : list bool)
    (sig : signal) (st : gstate) :
  guided_solver g answers = (Some sig, st) ->
  guided_solver g (answers ++ more) = (Some sig, st).
Proof.
  unfold guided_solver. generalize (mkState (get_cell_candidates g) 0 [] []) as st0.
  assert (Hsolved : forall l st0 st', guided_iteration st0 = (st', true) ->
            guided_loop l st0 = (Some Solved, st')).
  { intros l st0 st' E. destruct l; simpl; now rewrite E. }
  induction answers as [|a answers IH]; intros st0.
  - simpl. destruct (guided_iteration st0) as [st' solved] eqn:E.
    destruct solved; [|discriminate]. intros [= <- <-]. now apply Hsolved.
  - cbn [app guided_loop]. destruct (guided_iteration st0) as [st' solved] eqn:E.
    destruct solved; [intros H; exact H|].
    destruct a; [apply IH|intros H; exact H].
Qed.

Lemma guided_solver_ignores_later_answers_witness :
  guided_solver (grid_of empty_puzzle) [true; true; false]
    = (Some Stopped, mkState (get_cell_candidates (grid_of empty_puzzle)) 3 [] []) /\
  guided_solver (grid_of empty_puzzle) ([true; true; false] ++ [true; true])
    = (Some Stopped, mkState (get_cell_candidates (grid_of empty_puzzle)) 3 [] []).
Proof.
  split; [vm_compute; reflexivity|].
  apply (guided_solver_ignores_later_answers (grid_of empty_puzzle) [true; true; false]).
  vm_compute. reflexivity.
Defined.

(** ** Single candidate: the whole pass *)

Section SinglePass.

Implicit Types (g h : grid) (p q : pos).

Lemma single_fold g (l : list pos) :
  NoDup l -> (forall p, In p l -> In p all_positions) ->
  forall c h, wf_grid h -> (forall q, In q l -> cell h q = cell g q) ->
    wf_grid (snd (fold_left SingleCandidateStrategy.visit l (c, h))) /\
    (forall q, In q l ->
       cell (snd (fold_left SingleCandidateStrategy.visit l (c, h))) q = single_filled g q) /\
    (forall q, ~ In q l ->
       cell (snd (fold_left SingleCandidateStrategy.visit l (c, h))) q = cell h q) /\
    fst (fold_left SingleCandidateStrategy.visit l (c, h)) = c || existsb (naked_single g) l.
Proof.
  induction 1 as [|p l Hnin Hnd IH]; intros Hin c h Hwf Hsame; cbn [fold_left].
  { split; [assumption|]. split; [intros q []|]. split; [reflexivity|].
    simpl. now rewrite orb_false_r. }
  pose proof (Hin p (or_introl eq_refl)) as Hp.
  pose proof Hp as Hp'. apply in_all_positions in Hp' as [H1 H2].
  assert (Ens : isNone (value (cell h p)) && (length (candidates (cell h p)) =? 1)
                = naked_single g p).
  { unfold naked_single, unset. now rewrite (Hsame p (or_introl eq_refl)). }
  unfold SingleCandidateStrategy.visit at 2 4 6 8. rewrite Ens.
  destruct (naked_single g p) eqn:En.
  - destruct (IH (fun q Hq => Hin q (or_intror Hq)) true
               (upd h p (fun x => mkCell (Some (hd 0%Z (candidates x))) false (candidates x))))
      as (Hw & Hl & Ho & Hf).
    { now apply wf_upd. }
    { intros q Hq. rewrite cell_upd_other; [apply Hsame; now right|].
      intros ->. contradiction. }
    split; [assumption|]. split; [|split].
    + intros q [<-|Hq]; [|now apply Hl]. rewrite Ho by assumption.
      rewrite cell_upd_same by assumption. unfold single_filled. rewrite En.
      now rewrite (Hsame p (or_introl eq_refl)).
    + intros q Hq. rewrite Ho by (intros Hq'; apply Hq; now right).
      apply cell_upd_other. intros ->. apply Hq. now left.
    + rewrite Hf. cbn [existsb]. rewrite En. now rewrite orb_true_r.
  - destruct (IH (fun q Hq => Hin q (or_intror Hq)) c h Hwf) as (Hw & Hl & Ho & Hf).
    { intros q Hq. apply Hsame. now right. }
    split; [assumption|]. split; [|split].
    + intros q [<-|Hq]; [|now apply Hl]. rewrite Ho by assumption.
      unfold single_filled. rewrite En. apply Hsame. now left.
    + intros q Hq. apply Ho. intros Hq'. apply Hq. now right.
    + rewrite Hf. cbn [existsb]. now rewrite En.
Qed.

End SinglePass.

(** X20: the single-candidate pass, cell by cell. Every unresolved cell
    that had exactly one candidate on entry gets that candidate as its
    value, with the given flag off and its candidate list left as it was;
    every other cell is untouched; and the pass reports changed exactly
    when the grid had such a cell. *)
Theorem single_candidate_pass (g : grid) :
  wf_grid g ->
  (forall p, In p all_positions ->
     cell (snd (SingleCandidateStrategy.apply g)) p = single_filled g p) /\
  fst (SingleCandidateStrategy.apply g) = existsb (naked_single g) all_positions.
Proof.
  intros Hwf. unfold SingleCandidateStrategy.apply. rewrite for_box_fold.
  fold all_positions.
  destruct (single_fold g all_positions all_positions_NoDup (fun p Hp => Hp) false g Hwf)
    as (_ & Hl & _ & Hf); [reflexivity|].
  split; [exact Hl|exact Hf].
Qed.

Lemma single_candidate_pass_witness :
  wf_grid (get_cell_candidates (grid_of classic_puzzle)) /\
  (forall p, In p all_positions ->
     cell (snd (SingleCandidateStrategy.apply (get_cell_candidates (grid_of classic_puzzle)))) p
     = single_filled (get_cell_candidates (grid_of classic_puzzle)) p) /\
  fst (SingleCandidateStrategy.apply (get_cell_candidates (grid_of classic_puzzle)))
    = existsb (naked_single (get_cell_candidates (grid_of classic_puzzle))) all_positions.
Proof.
  split; [wf_tac|].
  apply (single_candidate_pass (get_cell_candidates (grid_of classic_puzzle))). wf_tac.
Defined.

(** ** Detection of pairs and triplets *)

Section Detection.

Context {A : Type}.

Implicit Types (pairs entries : list (A * list Z)) (combo : list (A * list Z)).

Lemma set_eqb_same c1 c2 : set_eqb c1 c2 = true <-> same_set c1 c2.
Proof.
  unfold set_eqb, same_set. rewrite andb_true_iff, !forallb_forall. split.
  - intros [H1 H2] x. split; intros Hx; apply mem_In; auto.
  - intros H. split; intros x Hx; apply mem_In; now apply H.
Qed.

Lemma sublist_singleton {B} (x : B) (l : list B) : sublist [x] l <-> In x l.
Proof.
  induction l as [|y l IH].
  - rewrite sublist_nil_r. split; [discriminate|intros []].
  - rewrite sublist_cons_r, IH. simpl. split.
    + intros [H|(l' & [= -> <-] & _)]; [now right|now left].
    + intros [->|H]; [right; exists []; split; [reflexivity|apply sublist_nil_l]|now left].
Qed.

Lemma first_pair_Some pairs i1 i2 c1 :
  first_pair pairs = Some (i1, i2, c1) ->
  exists c2, sublist [(i1, c1); (i2, c2)] pairs /\ same_set c1 c2.
Proof.
  induction pairs as [|[a ca] rest IH]; simpl; [discriminate|].
  destruct (List.find _ rest) as [[b cb]|] eqn:E.
  - intros [= <- <- <-]. apply find_some in E as [Hin Heq]. simpl in Heq.
    exists cb. split; [|now apply set_eqb_same].
    apply sublist_skip. now apply sublist_singleton.
  - intros H. destruct (IH H) as (c2 & Hs & Hc). exists c2. split; [|assumption].
    now apply sublist_cons.
Qed.

Lemma first_pair_None pairs :
  first_pair pairs = None <->
  forall e1 e2, sublist [e1; e2] pairs -> ~ same_set (snd e1) (snd e2).
Proof.
  induction pairs as [|[a ca] rest IH]; simpl.
  - split; [|reflexivity]. intros _ e1 e2 H. apply sublist_nil_r in H. discriminate.
  - destruct (List.find _ rest) as [[b cb]|] eqn:E.
    + split; [discriminate|]. intros H. exfalso.
      apply find_some in E as [Hin Heq]. simpl in Heq.
      apply (H (a, ca) (b, cb)); [|now apply set_eqb_same].
      apply sublist_skip. now apply sublist_singleton.
    + rewrite IH. split.
      * intros H e1 e2 Hs. apply sublist_cons_r in Hs as [Hs|(l' & [= -> <-] & Hs)];
          [now apply H|].
        apply sublist_singleton in Hs. pose proof (find_none _ _ E e2 Hs) as Hn.
        simpl in Hn. intros Hc. apply set_eqb_same in Hc. simpl in Hc. congruence.
      * intros H e1 e2 Hs. apply H. now apply sublist_cons.
Qed.

Lemma in_combinations k (l c : list (A * list Z)) :
  In c (combinations k l) <-> sublist c l /\ length c = k.
Proof.
  revert k c. induction l as [|x xs IH]; intros k c.
  - simpl. rewrite sublist_nil_r. destruct k; simpl.
    + split; [intros [<-|[]]; now split|intros [-> _]; now left].
    + split; [intros []|intros [-> H]; discriminate].
  - destruct k as [|k].
    + simpl. split.
      * intros [<-|[]]. split; [apply sublist_nil_l|reflexivity].
      * intros [_ H]. left. symmetry. now apply length_zero_iff_nil.
    + cbn [combinations]. rewrite in_app_iff, in_map_iff, sublist_cons_r. split.
      * intros [(c' & <- & Hc')|Hc].
        -- apply IH in Hc' as [Hs Hl]. split; [|simpl; lia].
           right. exists c'. now split.
        -- apply IH in Hc as [Hs Hl]. split; [now left|assumption].
      * intros [[Hs|(c' & -> & Hs)] Hl].
        -- right. apply IH. now split.
        -- left. exists c'. split; [reflexivity|]. apply IH. split; [assumption|].
           simpl in Hl. lia.
Qed.

Lemma in_union_of (cs : list (list Z)) x :
  In x (union_of cs) <-> exists c, In c cs /\ In x c.
Proof.
  unfold union_of. rewrite nodup_In, in_concat. split; intros (c & H1 & H2); eauto.
Qed.

End Detection.

(** X21: what the pair scan finds. A pair it returns is made of two entries
    of the list, in list order, whose candidate lists have the same
    members, and the candidates returned are those of the first of the two;
    it returns nothing exactly when no two entries of the list have the
    same members. *)
Theorem first_pair_spec {A : Type} (pairs : list (A * list Z)) :
  (forall i1 i2 c1, first_pair pairs = Some (i1, i2, c1) ->
     exists c2, sublist [(i1, c1); (i2, c2)] pairs /\ same_set c1 c2) /\
  (first_pair pairs = None <->
   forall e1 e2, sublist [e1; e2] pairs -> ~ same_set (snd e1) (snd e2)).
Proof. split; [apply first_pair_Some|apply first_pair_None]. Qed.

(** X22: what the triplet scan finds. A triplet it returns comes from three
    entries of the list, in list order, whose candidate lists together hold
    exactly three numbers; the union returned lists those three numbers
    once each. It returns nothing exactly when no three entries of the list
    span exactly three numbers. *)
Theorem first_triplet_spec {A : Type} (entries : list (A * list Z)) :
  (forall idxs union, first_triplet entries = Some (idxs, union) ->
     exists combo, sublist combo entries /\ length combo = 3 /\
                   idxs = map fst combo /\ length union = 3 /\ NoDup union /\
                   forall x, In x union <-> exists e, In e combo /\ In x (snd e)) /\
  (first_triplet entries = None <->
   forall combo, sublist combo entries -> length combo = 3 ->
                 length (union_of (map snd combo)) <> 3).
Proof.
  unfold first_triplet. split.
  - intros idxs union.
    destruct (List.find _ (combinations 3 entries)) as [combo|] eqn:E; [|discriminate].
    intros [= <- <-]. apply find_some in E as [Hin Hlen].
    apply in_combinations in Hin as [Hs Hl]. apply Nat.eqb_eq in Hlen.
    exists combo. repeat split; try assumption.
    + apply NoDup_nodup.
    + intros Hx. apply in_union_of in Hx as (c & Hc & Hx).
      apply in_map_iff in Hc as (e & <- & He). now exists e.
    + intros (e & He & Hx). apply in_union_of. exists (snd e). split; [|assumption].
      now apply in_map.
  - destruct (List.find _ (combinations 3 entries)) as [combo|] eqn:E.
    + split; [discriminate|]. intros H. exfalso.
      apply find_some in E as [Hin Hlen].
      apply in_combinations in Hin as [Hs Hl]. apply Nat.eqb_eq in Hlen.
      now apply (H combo).
    + split; [|reflexivity]. intros _ combo Hs Hl.
      assert (Hin : In combo (combinations 3 entries)) by (apply in_combinations; now split).
      pose proof (find_none _ _ E combo Hin) as Hn. now apply Nat.eqb_neq in Hn.
Qed.

(** ** Display *)

Section Display.

Implicit Types (g cells : grid) (p q : pos) (st : gstate) (x : Cell).

Lemma row_parts_length (part : pos -> Cell -> string) cells i :
  length (row_parts part cells i) = 11.
Proof. reflexivity. Qed.

Lemma row_parts_ext (part1 part2 : pos -> Cell -> string) cells i :
  (forall j, part1 (i, j) (cell cells (i, j)) = part2 (i, j) (cell cells (i, j))) ->
  row_parts part1 cells i = row_parts part2 cells i.
Proof.
  intros H. unfold row_parts. apply flat_map_ext. intros j. now rewrite H.
Qed.

Lemma guided_part_plain last prev p x :
  (In p last \/ In p prev -> value x = None \/ given x = true) ->
  guided_part last prev p x = plain_part p x.
Proof.
  intros H. unfold guided_part, plain_part.
  destruct (value x) as [v|] eqn:Ev; [|reflexivity].
  destruct (given x) eqn:Eg; [reflexivity|].
  destruct (mem_pos p last) eqn:El.
  { apply mem_pos_In in El. destruct H as [H|H]; [now left|discriminate..]. }
  destruct (mem_pos p prev) eqn:Ep; [|reflexivity].
  apply mem_pos_In in Ep. destruct H as [H|H]; [now right|discriminate..].
Qed.

Lemma not_green_str v : String.prefix "[green]" (str v) = false.
Proof.
  unfold str. destruct (Z.to_int v) as [d|d]; [destruct d|]; reflexivity.
Qed.

Lemma green_prefix (s : string) :
  String.prefix "[green]" ("[green]" ++ s)%string = true.
Proof. simpl. now destruct s. Qed.

Lemma red_prefix (s : string) :
  String.prefix "[green]" ("[red]" ++ s)%string = false.
Proof. reflexivity. Qed.

Lemma blue_prefix (s : string) :
  String.prefix "[green]" ("[blue]" ++ s)%string = false.
Proof. reflexivity. Qed.

Lemma sudoku_cells_ok (puzzle : text) g :
  sudoku_cells puzzle = inr g ->
  wf_grid g /\ forall p, In p all_positions -> parsed_cell (cell g p).
Proof.
  unfold sudoku_cells. fold (puzzle_chars puzzle).
  destruct (length (puzzle_chars puzzle) =? 81) eqn:E; simpl; [|discriminate].
  apply Nat.eqb_eq in E.
  destruct (parse_from 0 (puzzle_chars puzzle)) as [e|xs] eqn:Ep; [discriminate|].
  intros [= <-]. destruct (parse_from_inr _ _ _ Ep) as [Hlen Hnth].
  split; [apply rows_of_wf; lia|].
  intros [r c] Hp. apply in_all_positions in Hp as [Hr Hc].
  apply (parse_char_cell (nth (9 * r + c) (puzzle_chars puzzle) dot)).
  cbn [fst snd] in *. rewrite rows_of_lookup by lia. apply Hnth. lia.
Qed.

Lemma parsed_cell_given x : parsed_cell x -> given x = true -> value x <> None.
Proof. intros [->|(d & _ & ->)]; simpl; [discriminate|intros _; discriminate]. Qed.

Lemma parsed_cell_sets g :
  (forall p, In p all_positions -> parsed_cell (cell g p)) -> candidate_sets g.
Proof.
  intros H q Hq. destruct (H q Hq) as [->|(d & _ & ->)]; simpl; constructor.
Qed.

Lemma session_ok_start g :
  wf_grid g -> candidate_sets g ->
  session_ok g (mkState (get_cell_candidates g) 0 [] []).
Proof.
  intros Hwf Hsets.
  destruct (get_cell_candidates_keeps g Hwf Hsets) as (Hwf1 & Hsets1 & Hsame).
  split; [assumption|]. split; [assumption|].
  split; [rewrite strateties_length; simpl; lia|].
  cbn [g_cells]. split; intros q Hq.
  - intros _. apply (Hsame q Hq).
  - rewrite (proj2 (Hsame q Hq)). auto.
Qed.

Lemma iteration_fills g0 st p :
  session_ok g0 st -> In p all_positions ->
  (mem_pos p (last_changes (fst (guided_iteration st))) = true <->
   value (cell (g_cells st) p) = None /\
   value (cell (g_cells (fst (guided_iteration st))) p) <> None).
Proof.
  intros (Hwf & Hsets & Hidx & _ & _) Hp. unfold guided_iteration.
  set (s := nth (strategies_idx st) strateties _).
  assert (Hs : In s strateties) by now apply nth_In.
  pose proof (strategy_rel s (g_cells st) Hs) as [(Cw & Cu & Cg & Cn & _) _].
  destruct (apply s (g_cells st)) as [changed g1]. cbn [fst snd] in *.
  set (last := List.filter _ (filled_positions g1)).
  set (g2 := match last with [] => g1 | _ :: _ => remove_filled_candidates g1 last end).
  assert (Hsets1 : candidate_sets g1) by (intros q Hq; apply Cn; now apply Hsets).
  assert (Hval : value (cell g2 p) = value (cell g1 p)).
  { unfold g2. destruct last; [reflexivity|].
    now apply (remove_filled_candidates_keeps g1 _ (Cw Hwf) Hsets1). }
  assert (Hlast : mem_pos p last = true <->
                  value (cell (g_cells st) p) = None /\ value (cell g2 p) <> None).
  { rewrite Hval, mem_pos_In. unfold last, filled_positions.
    rewrite !filter_In, negb_true_iff.
    change (existsb (pos_eqb p) ?l) with (mem_pos p l).
    rewrite negb_true_iff, <- (not_true_iff_false (mem_pos _ _)), mem_pos_In, filter_In,
      negb_true_iff.
    unfold unset. split.
    - intros [[_ H1] H0]. split.
      + destruct (value (cell (g_cells st) p)); [|reflexivity].
        destruct H0. now split.
      + now destruct (value (cell g1 p)).
    - intros [H0 H1]. split; [split; [assumption|now destruct (value (cell g1 p))]|].
      intros [_ H]. rewrite H0 in H. discriminate. }
  destruct changed; cbn [fst last_changes g_cells]; [exact Hlast|].
  destruct (length strateties <=? strategies_idx st + 1);
    cbn [fst last_changes g_cells]; exact Hlast.
Qed.

End Display.

(** X23: the two grid displays compared. [display_grid] prints the nine
    rows and never a separator line (its separator test stands after the
    loop). [display_grid_guided], when no shown cell is highlighted (no
    filled, non-given cell is in either set), prints the same nine rows with
    a line of 21 dashes after the third and after the sixth. *)
Theorem display_grid_guided_plain (cells : grid) (last_changes prev_changes : list pos) :
  wf_grid cells ->
  (forall p, In p last_changes \/ In p prev_changes ->
             value (cell cells p) = None \/ given (cell cells p) = true) ->
  length (display_grid cells) = 9 /\
  display_grid_guided cells last_changes prev_changes
  = take 3 (display_grid cells) ++ [dashes 21]
    ++ take 3 (drop 3 (display_grid cells)) ++ [dashes 21]
    ++ drop 6 (display_grid cells).
Proof.
  intros _ Hplain. split; [reflexivity|].
  unfold display_grid_guided, display_grid.
  set (line := fun i => str_join " " (row_parts plain_part cells i)).
  assert (E : forall i, str_join " " (row_parts (guided_part last_changes prev_changes) cells i)
                        = line i).
  { intros i. unfold line. f_equal. apply row_parts_ext. intros j.
    apply guided_part_plain, Hplain. }
  rewrite (flat_map_ext _ (fun i => line i ::
             (if (i <? 8) && ((i + 1) mod 3 =? 0) then [dashes 21] else [])));
    [|intros i; cbv zeta; now rewrite E, row_parts_length].
  clearbody line. reflexivity.
Qed.

Lemma display_grid_guided_plain_witness :
  wf_grid (grid_of classic_puzzle) /\
  length (display_grid (grid_of classic_puzzle)) = 9 /\
  display_grid_guided (grid_of classic_puzzle) [(0, 0); (0, 2)] [(4, 4)]
  = take 3 (display_grid (grid_of classic_puzzle)) ++ [dashes 21]
    ++ take 3 (drop 3 (display_grid (grid_of classic_puzzle))) ++ [dashes 21]
    ++ drop 6 (display_grid (grid_of classic_puzzle)).
Proof.
  split; [wf_tac|].
  apply (display_grid_guided_plain (grid_of classic_puzzle) [(0, 0); (0, 2)] [(4, 4)]);
    [wf_tac|].
  intros p [[<-|[<-|[]]]|[<-|[]]]; vm_compute; auto.
Defined.

(** X24: what green means in the guided display. In the grid shown after a
    pass of a session started on a grid whose given cells all hold a value
    (a parsed puzzle), a cell is printed in green exactly when this pass
    filled it: it was unresolved when the pass began and holds a value
    now. *)
Theorem guided_display_green (g0 : grid) (st : gstate) (p : pos) :
  session_ok g0 st ->
  (forall q, In q all_positions -> given (cell g0 q) = true -> value (cell g0 q) <> None) ->
  In p all_positions ->
  (String.prefix "[green]"
     (guided_part (last_changes (fst (guided_iteration st))) (prev_changes st) p
                  (cell (g_cells (fst (guided_iteration st))) p)) = true <->
   value (cell (g_cells st) p) = None /\
   value (cell (g_cells (fst (guided_iteration st))) p) <> None).
Proof.
  intros Hok Hg0 Hp.
  pose proof (iteration_fills g0 st p Hok Hp) as Hlast.
  pose proof (session_ok_iteration g0 st Hok) as (_ & _ & _ & _ & Hgiven').
  destruct Hok as (_ & _ & _ & Hclue & _).
  rewrite <- Hlast. unfold guided_part.
  destruct (value (cell (g_cells (fst (guided_iteration st))) p)) as [v|] eqn:Ev.
  - destruct (given (cell (g_cells (fst (guided_iteration st))) p)) eqn:Eg.
    + rewrite red_prefix. split; [discriminate|]. intros Hm. exfalso.
      apply Hlast in Hm as [Hnone _].
      pose proof (Hg0 p Hp (Hgiven' p Hp Eg)) as Hv0.
      rewrite (Hclue p Hp Hv0) in Hnone. contradiction.
    + destruct (mem_pos p _) eqn:Em; [now rewrite green_prefix|].
      destruct (mem_pos p (prev_changes st)); [now rewrite blue_prefix|].
      now rewrite not_green_str.
  - split; [discriminate|]. intros Hm. apply Hlast in Hm as [_ Hm]. contradiction.
Qed.

Lemma guided_display_green_witness :
  session_ok (grid_of classic_puzzle) classic_start /\
  (String.prefix "[green]"
     (guided_part (last_changes (fst (guided_iteration classic_start)))
                  (prev_changes classic_start) (4, 4)
                  (cell (g_cells (fst (guided_iteration classic_start))) (4, 4))) = true <->
   value (cell (g_cells classic_start) (4, 4)) = None /\
   value (cell (g_cells (fst (guided_iteration classic_start))) (4, 4)) <> None).
Proof.
  assert (Hparse : sudoku_cells (text_of classic_puzzle) = inr (grid_of classic_puzzle))
    by (vm_compute; reflexivity).
  destruct (sudoku_cells_ok (text_of classic_puzzle) _ Hparse) as [Hwf Hcells].
  assert (Hok : session_ok (grid_of classic_puzzle) classic_start)
    by (apply session_ok_start; [assumption|now apply parsed_cell_sets]).
  split; [exact Hok|].
  apply (guided_display_green (grid_of classic_puzzle) classic_start (4, 4) Hok).
  - intros q Hq. apply parsed_cell_given. now apply Hcells.
  - apply in_all_positions. simpl. lia.
Defined.

(** ** Entry point *)

Lemma solve_true_completion (g g' : grid) :
  wf_grid g -> consistent g -> solve g = Some (true, g') -> completion g g'.
Proof.
  intros Hwf Hcons Hs. split.
  - destruct (solve_fuel_frame _ _ _ _ Hwf Hs) as (_ & _ & _ & Hval).
    intros p _. apply Hval.
  - exact (solve_fuel_sound 82 g g' Hwf Hcons Hs).
Qed.

Lemma solve_finds_completion (g s : grid) :
  wf_grid g -> completion g s -> exists g', solve g = Some (true, g').
Proof.
  intros Hwf [Hext Hsol].
  destruct (solve_fuel_first 82 g s Hwf) as (g' & Hs & _);
    [pose proof (count_empty_le g); lia|assumption..|].
  now exists g'.
Qed.

(** X25: the plain mode end to end. For a puzzle text that parses to a grid
    whose clues are consistent, [sudoku] without [--guide] prints the
    header "Solved puzzle:" followed by the nine rows of a completion of
    the puzzle when the puzzle has one, and the single line "No solution
    found for the given puzzle." when it has none. *)
Theorem sudoku_plain_report (puzzle : text) (cells : grid) (answers : list bool) :
  sudoku_cells puzzle = inr cells -> consistent cells ->
  ((exists s, completion cells s) ->
     exists s, completion cells s /\
               sudoku false puzzle answers = Some (Printed (solved_header :: display_grid s)) /\
               length (display_grid s) = 9) /\
  (~ (exists s, completion cells s) ->
     sudoku false puzzle answers = Some (Printed [no_solution_line])).
Proof.
  intros Hparse Hcons. destruct (sudoku_cells_ok puzzle cells Hparse) as [Hwf _].
  unfold sudoku. rewrite Hparse. split.
  - intros (s & Hs). destruct (solve_finds_completion cells s Hwf Hs) as (g' & Hg').
    exists g'. split; [now apply solve_true_completion|]. rewrite Hg'. now split.
  - intros Hno. destruct (solve_total cells Hwf) as (b & g' & Hg'). rewrite Hg'.
    destruct b; [|reflexivity]. destruct Hno. exists g'.
    now apply solve_true_completion.
Qed.

Lemma sudoku_plain_report_witness :
  sudoku_cells (text_of dead_end_puzzle) = inr (grid_of dead_end_puzzle) /\
  consistent (grid_of dead_end_puzzle) /\
  ((exists s, completion (grid_of dead_end_puzzle) s) ->
     exists s, completion (grid_of dead_end_puzzle) s /\
               sudoku false (text_of dead_end_puzzle) []
               = Some (Printed (solved_header :: display_grid s)) /\
               length (display_grid s) = 9) /\
  (~ (exists s, completion (grid_of dead_end_puzzle) s) ->
     sudoku false (text_of dead_end_puzzle) [] = Some (Printed [no_solution_line])).
Proof.
  assert (Hp : sudoku_cells (text_of dead_end_puzzle) = inr (grid_of dead_end_puzzle))
    by (vm_compute; reflexivity).
  assert (Hc : consistent (grid_of dead_end_puzzle))
    by (apply consistentb_spec; vm_compute; reflexivity).
  split; [exact Hp|]. split; [exact Hc|].
  exact (sudoku_plain_report (text_of dead_end_puzzle) (grid_of dead_end_puzzle) [] Hp Hc).
Defined.

(** ** Soundness of the deductions *)

Lemma sublist_In {B} (l k : list B) (x : B) : sublist l k -> In x l -> In x k.
Proof.
  induction 1 as [|y l k _ IH|y l k _ IH]; simpl; [tauto| |]; intros H; auto.
  destruct H as [->|H]; auto.
Qed.

Lemma sublist_map {B C} (f : B -> C) (l k : list B) :
  sublist l k -> sublist (map f l) (map f k).
Proof. induction 1; simpl; constructor; assumption. Qed.

Lemma sublist_keeps_NoDup {B} (l k : list B) : sublist l k -> NoDup k -> NoDup l.
Proof.
  induction 1 as [|y l k Hsub IH|y l k Hsub IH]; intros Hnd; [constructor| |].
  - inversion Hnd as [|? ? Hnin Hnd']; subst. constructor; [|auto].
    intros Hin. apply Hnin. eapply sublist_In; eassumption.
  - inversion Hnd; subst. auto.
Qed.

Lemma NoDup_map_filter {B C} (f : B -> C) (P : B -> bool) (l : list B) :
  NoDup (map f l) -> NoDup (map f (List.filter P l)).
Proof.
  induction l as [|a l IH]; simpl; [auto|]. intros Hnd.
  inversion Hnd as [|? ? Hnin Hnd']; subst.
  destruct (P a); simpl; [|auto]. constructor; [|auto].
  intros Hin. apply Hnin. apply in_map_iff in Hin as (b & Hb & Hin).
  apply filter_In in Hin as [Hin _]. apply in_map_iff. now exists b.
Qed.

Section OnTrack.

Variable s : grid.
Hypothesis Hs : solved_grid s.

Implicit Types (g h : grid) (p q : pos) (u : list pos) (n v : Z).

Lemma solved_unit_distinct u p q :
  In u units -> In p u -> In q u -> p <> q -> value (cell s p) <> value (cell s q).
Proof.
  intros Hu Hp Hq Hne E.
  pose proof (units_positions u p Hu Hp) as Hpa.
  destruct (value (cell s p)) as [v|] eqn:Hv; [|now apply (proj1 Hs p Hpa)].
  pose proof (solved_values s p v Hs Hpa Hv) as Hd.
  pose proof (proj2 Hs u v Hu Hd) as Hone. unfold occurrences in Hone.
  pose proof (count_occ_map_two (fun p => value (cell s p)) (Some v) u p q
                Hp Hq Hne Hv (eq_sym E)).
  lia.
Qed.

Lemma solved_unit_has u n :
  In u units -> In n digits -> exists y, In y u /\ value (cell s y) = Some n.
Proof.
  intros Hu Hn. pose proof (proj2 Hs u n Hu Hn) as Hone. unfold occurrences in Hone.
  assert (Hin : In (Some n) (map (fun p => value (cell s p)) u)).
  { apply (count_occ_In value_eq_dec). lia. }
  apply in_map_iff in Hin as (y & Hy & Hyu). now exists y.
Qed.

Lemma on_track_upd h p (f : Cell -> Cell) :
  on_track s h ->
  (In p all_positions ->
     match value (f (cell h p)) with
     | Some v => value (cell s p) = Some v
     | None => exists v, value (cell s p) = Some v /\ In v (candidates (f (cell h p)))
     end) ->
  on_track s (upd h p f).
Proof.
  intros Ht Hf q Hq. destruct (cell_upd_cases h p q f) as [->|[-> ->]];
    [now apply Ht|now apply Hf].
Qed.

(** *** Single candidate *)

Lemma SingleCandidate_on_track g :
  on_track s g -> on_track s (snd (SingleCandidateStrategy.apply g)).
Proof.
  intros Ht. unfold SingleCandidateStrategy.apply. rewrite for_box_fold.
  apply (fold_left_inv (fun acc => on_track s (snd acc))); [assumption|].
  intros [changed h] p Hp Hh. cbn [snd] in *. unfold SingleCandidateStrategy.visit.
  destruct (isNone (value (cell h p)) && _) eqn:E; [|assumption]. cbn [snd].
  apply andb_true_iff in E as [Hn Hl]. apply Nat.eqb_eq in Hl.
  apply on_track_upd; [assumption|]. intros Hpa. cbn [value candidates].
  specialize (Hh p Hpa). destruct (value (cell h p)); [discriminate|].
  destruct Hh as (v & Hv & Hin).
  destruct (candidates (cell h p)) as [|c [|]]; try discriminate.
  destruct Hin as [->|[]]. assumption.
Qed.

(** *** Hidden singles *)

Lemma hidden_single_step_on_track c h u n :
  on_track s h -> In u units -> In n digits -> unit_pruned h u n ->
  on_track s (snd (hidden_single_step (c, h) (u, n))) /\
  (snd (hidden_single_step (c, h) (u, n)) = h \/
   exists p, In p u /\ snd (hidden_single_step (c, h) (u, n)) = fill h p n).
Proof.
  intros Ht Hu Hn Hup. unfold hidden_single_step.
  destruct (List.filter (wants h n) u) as [|p [|]] eqn:E; cbn [snd];
    try (split; [assumption|now left]).
  destruct (filter_singleton _ _ _ E) as [Hpu Hw].
  destruct (solved_unit_has u n Hu Hn) as (y & Hyu & Hy).
  assert (Hyp : y = p).
  { pose proof (Ht y (units_positions u y Hu Hyu)) as Hty.
    destruct (value (cell h y)) as [v|] eqn:Hv.
    - rewrite Hy in Hty. injection Hty as <-.
      rewrite (Hup y p Hyu Hpu Hv) in Hw. discriminate.
    - destruct Hty as (v & Hv' & Hin). rewrite Hy in Hv'. injection Hv' as <-.
      assert (Hyf : In y (List.filter (wants h n) u)).
      { apply filter_In. split; [assumption|]. unfold wants, unset. rewrite Hv.
        simpl. now apply mem_In. }
      rewrite E in Hyf. destruct Hyf as [->|[]]. reflexivity. }
  subst y. split; [|right; exists p; now split].
  unfold fill. apply on_track_upd; [assumption|]. intros _. exact Hy.
Qed.

Lemma unit_pruned_fill h u' n' p n :
  unit_pruned h u' n' -> (~ In p u' \/ n <> n') -> unit_pruned (fill h p n) u' n'.
Proof.
  intros Hup Hor y q Hy Hq Hval. unfold wants, unset, fill in *.
  destruct (cell_upd_cases h p q (fun _ => mkCell (Some n) false [])) as [Eq|[-> Eq]];
    rewrite Eq; [|reflexivity].
  apply (Hup y q Hy Hq).
  destruct (cell_upd_cases h p y (fun _ => mkCell (Some n) false [])) as [Ey|[-> Ey]];
    rewrite Ey in Hval; [assumption|].
  injection Hval as ->. destruct Hor as [H|H]; [now destruct H|now destruct H].
Qed.

Lemma hidden_single_unit_on_track u (later : list (list pos)) :
  In u units ->
  (forall p u', In p u -> In u' later -> ~ In p u') ->
  forall ns, NoDup ns -> incl ns digits ->
  forall c h, on_track s h ->
    (forall n, In n ns -> unit_pruned h u n) ->
    (forall u' n, In u' later -> unit_pruned h u' n) ->
    on_track s (snd (fold_left (fun acc n => hidden_single_step acc (u, n)) ns (c, h))) /\
    (forall u' n, In u' later ->
       unit_pruned (snd (fold_left (fun acc n => hidden_single_step acc (u, n)) ns (c, h)))
                   u' n).
Proof.
  intros Hu Hapart. induction ns as [|n ns IH]; intros Hnd Hincl c h Ht Hnow Hlater.
  { split; assumption. }
  cbn [fold_left]. inversion Hnd as [|? ? Hnin Hnd']; subst.
  destruct (hidden_single_step_on_track c h u n Ht Hu (Hincl n (or_introl eq_refl))
              (Hnow n (or_introl eq_refl))) as [Ht' Hcase].
  destruct (hidden_single_step (c, h) (u, n)) as [c' h'] eqn:E. cbn [snd] in *.
  apply IH; [assumption|intros k Hk; apply Hincl; now right|assumption| |].
  - intros k Hk. destruct Hcase as [->|(p & Hp & ->)]; [apply Hnow; now right|].
    apply unit_pruned_fill; [apply Hnow; now right|]. right. intros ->. contradiction.
  - intros u' k Hu'. destruct Hcase as [->|(p & Hp & ->)]; [now apply Hlater|].
    apply unit_pruned_fill; [now apply Hlater|]. left. now apply Hapart.
Qed.

Lemma hidden_single_units_on_track (us : list (list pos)) :
  apart us = true -> incl us units ->
  forall c h, on_track s h ->
    (forall u n, In u us -> unit_pruned h u n) ->
    on_track s (snd (fold_left
      (fun acc u => fold_left (fun acc n => hidden_single_step acc (u, n)) digits acc)
      us (c, h))).
Proof.
  induction us as [|u us IH]; intros Hap Hincl c h Ht Hup; [assumption|].
  cbn [fold_left]. cbn [apart] in Hap. apply andb_true_iff in Hap as [Hhere Hap].
  rewrite forallb_forall in Hhere.
  destruct (hidden_single_unit_on_track u us (Hincl u (or_introl eq_refl))) with
    (ns := digits) (c := c) (h := h) as [Ht' Hlater'].
  - intros p u' Hp Hu' Hin. specialize (Hhere p Hp). rewrite forallb_forall in Hhere.
    specialize (Hhere u' Hu'). apply negb_true_iff in Hhere.
    apply mem_pos_In in Hin. congruence.
  - apply NoDup_digits.
  - intros n Hn. exact Hn.
  - assumption.
  - intros n _. apply Hup. now left.
  - intros u' n Hu'. apply Hup. now right.
  - destruct (fold_left _ digits (c, h)) as [c' h']. cbn [snd] in *.
    apply IH; [assumption|intros u' Hu'; apply Hincl; now right|assumption|].
    intros u' n Hu'. now apply Hlater'.
Qed.

Lemma pruned_unit g u n : pruned g -> In u units -> unit_pruned g u n.
Proof.
  intros Hpr Hu y p Hy Hp Hval. unfold wants, unset.
  destruct (value (cell g p)) eqn:Hv; [reflexivity|]. simpl.
  destruct (mem n (candidates (cell g p))) eqn:Em; [|reflexivity].
  apply mem_In in Em. exfalso.
  pose proof (units_positions u p Hu Hp) as Hpa.
  apply (Hpr p y n Hpa); try assumption.
  apply in_scan_sees; [assumption|]. now apply (units_scan u).
Qed.

Lemma hidden_single_pass_on_track partition g :
  apart partition = true -> incl partition units ->
  on_track s g -> pruned g ->
  on_track s (snd (hidden_single_pass partition g)).
Proof.
  intros Hap Hincl Ht Hpr. rewrite hidden_single_pass_nested.
  apply hidden_single_units_on_track; try assumption.
  intros u n Hu. apply pruned_unit; [assumption|now apply Hincl].
Qed.

End OnTrack.

Lemma col_unit_in_units c : c < 9 -> In (col_unit c) units.
Proof.
  intros Hc. unfold units, columns. apply in_or_app. right. apply in_or_app. left.
  apply in_map. apply in_range. lia.
Qed.

Lemma in_col_unit r c : r < 9 -> In (r, c) (col_unit c).
Proof.
  intros Hr. unfold col_unit. apply in_map_iff. exists r.
  split; [reflexivity|apply in_range; lia].
Qed.

Lemma block_unit_in_units br bc :
  In br block_starts -> In bc block_starts -> In (block_unit br bc) units.
Proof.
  intros Hbr Hbc. unfold units, blocks. apply in_or_app. right. apply in_or_app. right.
  apply in_flat_map. exists br. split; [assumption|]. now apply in_map.
Qed.

Section NakedSets.

Variable s : grid.
Hypothesis Hs : solved_grid s.

Context {A : Type}.
Variable pos_of : A -> pos.

Implicit Types (g h : grid) (p q : pos) (u : list pos) (n v : Z) (ks : list A).

Lemma eliminate_on_track gone skip (acc : bool * grid) p :
  on_track s (snd acc) ->
  (skip = false -> forall v, value (cell s p) = Some v -> ~ In v gone) ->
  on_track s (snd (eliminate gone skip acc p)).
Proof.
  destruct acc as [c h]. cbn [snd]. intros Ht Hgone. unfold eliminate.
  destruct (negb skip && unset h p) eqn:E; [|assumption]. cbn [snd].
  apply andb_true_iff in E as [Hskip Hu]. apply negb_true_iff in Hskip.
  apply on_track_upd; [assumption|]. intros Hpa. cbn [set_candidates value candidates].
  specialize (Ht p Hpa). unfold unset in Hu.
  destruct (value (cell h p)); [discriminate|].
  destruct Ht as (v & Hv & Hin). exists v. split; [assumption|].
  apply filter_In. split; [assumption|].
  destruct (mem v gone) eqn:Em; [|reflexivity].
  apply mem_In in Em. now destruct (Hgone Hskip v Hv).
Qed.

(** The entries a scan collects in a unit: the cells that pass [keep], each
    with its candidate list. *)
Lemma entry_cell (keep : grid -> pos -> bool) h ks (e : A * list Z) :
  In e (map (fun k => (k, candidates (cell h (pos_of k))))
            (List.filter (fun k => keep h (pos_of k)) ks)) ->
  In (fst e) ks /\ keep h (pos_of (fst e)) = true /\
  snd e = candidates (cell h (pos_of (fst e))).
Proof.
  intros H. apply in_map_iff in H as (k & <- & Hk). apply filter_In in Hk as [Hk Hkeep].
  now split.
Qed.

Lemma entries_NoDup (keep : grid -> pos -> bool) h ks :
  NoDup (map pos_of ks) ->
  NoDup (map (fun e : A * list Z => pos_of (fst e))
             (map (fun k => (k, candidates (cell h (pos_of k))))
                  (List.filter (fun k => keep h (pos_of k)) ks))).
Proof.
  intros Hnd. rewrite map_map. cbn [fst].
  now apply (NoDup_map_filter pos_of (fun k => keep h (pos_of k))).
Qed.

(** The number [s] has in an unresolved cell of the scan is in the list the
    scan holds for it. *)
Lemma entry_value (keep : grid -> pos -> bool) h ks u (e : A * list Z) :
  (forall g p, keep g p = true -> unset g p = true) ->
  (forall k, In k ks -> In (pos_of k) u) -> In u units ->
  on_track s h ->
  In e (map (fun k => (k, candidates (cell h (pos_of k))))
            (List.filter (fun k => keep h (pos_of k)) ks)) ->
  exists v, value (cell s (pos_of (fst e))) = Some v /\ In v (snd e).
Proof.
  intros Hkeep Hks Hu Ht He. destruct (entry_cell keep h ks e He) as (Hk & Hkp & ->).
  pose proof (Ht _ (units_positions u _ Hu (Hks _ Hk))) as Hp.
  apply Hkeep in Hkp. unfold unset in Hkp.
  destruct (value (cell h (pos_of (fst e)))); [discriminate|]. exact Hp.
Qed.

Lemma naked_pair_locked h ks u k1 k2 cand1 :
  In u units -> (forall k, In k ks -> In (pos_of k) u) -> NoDup (map pos_of ks) ->
  on_track s h ->
  first_pair (map (fun k => (k, candidates (cell h (pos_of k))))
                  (List.filter (fun k => exactly_two h (pos_of k)) ks))
    = Some (k1, k2, cand1) ->
  forall p, In p u -> p <> pos_of k1 -> p <> pos_of k2 ->
  forall v, value (cell s p) = Some v -> ~ In v cand1.
Proof.
  intros Hu Hks Hnd Ht Hfp p Hp Hp1 Hp2 v Hv Hin.
  set (entries := map _ _) in Hfp.
  destruct (first_pair_Some entries k1 k2 cand1 Hfp) as (c2 & Hsub & Hsame).
  assert (Hunset : forall g q, exactly_two g q = true -> unset g q = true).
  { intros g q H. unfold exactly_two in H. now apply andb_true_iff in H as [H _]. }
  assert (He1 : In (k1, cand1) entries) by (eapply sublist_In; [exact Hsub|now left]).
  assert (He2 : In (k2, c2) entries) by (eapply sublist_In; [exact Hsub|right; now left]).
  destruct (entry_value exactly_two h ks u _ Hunset Hks Hu Ht He1) as (v1 & Hv1 & Hin1).
  destruct (entry_value exactly_two h ks u _ Hunset Hks Hu Ht He2) as (v2 & Hv2 & Hin2).
  destruct (entry_cell exactly_two h ks _ He1) as (Hk1 & Hx1 & Hc1).
  destruct (entry_cell exactly_two h ks _ He2) as (Hk2 & _ & _).
  cbn [fst snd] in *.
  assert (Hlen : length cand1 = 2).
  { unfold exactly_two in Hx1. apply andb_true_iff in Hx1 as [_ Hx1].
    apply Nat.eqb_eq in Hx1. now rewrite Hc1. }
  assert (Hne12 : pos_of k1 <> pos_of k2).
  { pose proof (sublist_keeps_NoDup _ _
      (sublist_map (fun e : A * list Z => pos_of (fst e)) _ _ Hsub)
      (entries_NoDup exactly_two h ks Hnd)) as Hnd2.
    cbn [map fst] in Hnd2. inversion Hnd2 as [|? ? Hnin _]; subst.
    intros E. apply Hnin. left. now symmetry. }
  assert (D12 : v1 <> v2).
  { intros E. apply (solved_unit_distinct s Hs u (pos_of k1) (pos_of k2)); auto. congruence. }
  assert (D1 : v <> v1).
  { intros E. apply (solved_unit_distinct s Hs u p (pos_of k1)); auto. congruence. }
  assert (D2 : v <> v2).
  { intros E. apply (solved_unit_distinct s Hs u p (pos_of k2)); auto. congruence. }
  assert (Hthree : NoDup [v; v1; v2]).
  { repeat constructor; simpl; intuition congruence. }
  assert (Hincl : incl [v; v1; v2] cand1).
  { intros x [<-|[<-|[<-|[]]]]; [assumption..|]. now apply Hsame. }
  pose proof (NoDup_incl_length Hthree Hincl) as Hle. simpl in Hle. lia.
Qed.

Lemma naked_triplet_locked h ks u idxs union :
  In u units -> (forall k, In k ks -> In (pos_of k) u) -> NoDup (map pos_of ks) ->
  on_track s h ->
  first_triplet (map (fun k => (k, candidates (cell h (pos_of k))))
                     (List.filter (fun k => two_or_three h (pos_of k)) ks))
    = Some (idxs, union) ->
  forall p, In p u -> (forall k, In k idxs -> p <> pos_of k) ->
  forall v, value (cell s p) = Some v -> ~ In v union.
Proof.
  intros Hu Hks Hnd Ht Hft p Hp Hout v Hv Hin.
  set (entries := map _ _) in Hft. unfold first_triplet in Hft.
  destruct (List.find _ (combinations 3 entries)) as [combo|] eqn:E; [|discriminate].
  injection Hft as <- <-. apply find_some in E as [Hc Hlen].
  apply in_combinations in Hc as [Hsub Hl3]. apply Nat.eqb_eq in Hlen.
  assert (Hunset : forall g q, two_or_three g q = true -> unset g q = true).
  { intros g q H. unfold two_or_three in H. now apply andb_true_iff in H as [H _]. }
  assert (Hval : forall e, In e combo ->
            exists w, value (cell s (pos_of (fst e))) = Some w /\ In w (union_of (map snd combo)) /\
                      In (pos_of (fst e)) u).
  { intros e He. assert (He' : In e entries) by (eapply sublist_In; eassumption).
    destruct (entry_value two_or_three h ks u e Hunset Hks Hu Ht He') as (w & Hw & Hwin).
    destruct (entry_cell two_or_three h ks e He') as (Hk & _ & _).
    exists w. split; [assumption|]. split; [|now apply Hks].
    apply in_union_of. exists (snd e). split; [now apply in_map|assumption]. }
  pose proof (sublist_keeps_NoDup _ _
      (sublist_map (fun e : A * list Z => pos_of (fst e)) _ _ Hsub)
      (entries_NoDup two_or_three h ks Hnd)) as Hnd3.
  destruct combo as [|e1 [|e2 [|e3 [|]]]]; try discriminate.
  destruct (Hval e1) as (w1 & H1 & U1 & P1); [simpl; tauto|].
  destruct (Hval e2) as (w2 & H2 & U2 & P2); [simpl; tauto|].
  destruct (Hval e3) as (w3 & H3 & U3 & P3); [simpl; tauto|].
  cbn [map] in Hnd3. inversion Hnd3 as [|? ? N1 Hnd2]; subst.
  inversion Hnd2 as [|? ? N2 _]; subst. simpl in N1, N2.
  assert (D12 : w1 <> w2).
  { intros Eq. refine (solved_unit_distinct s Hs u _ _ Hu P1 P2 _ _);
      [intuition congruence|congruence]. }
  assert (D13 : w1 <> w3).
  { intros Eq. refine (solved_unit_distinct s Hs u _ _ Hu P1 P3 _ _);
      [intuition congruence|congruence]. }
  assert (D23 : w2 <> w3).
  { intros Eq. refine (solved_unit_distinct s Hs u _ _ Hu P2 P3 _ _);
      [intuition congruence|congruence]. }
  assert (D : forall e w, In e [e1; e2; e3] -> value (cell s (pos_of (fst e))) = Some w ->
                          In (pos_of (fst e)) u -> v <> w).
  { intros e w He Hw Hpu Eq. refine (solved_unit_distinct s Hs u p _ Hu Hp Hpu _ _);
      [|congruence]. apply Hout. now apply in_map. }
  assert (Hfour : NoDup [v; w1; w2; w3]).
  { pose proof (D e1 w1 (or_introl eq_refl) H1 P1).
    pose proof (D e2 w2 (or_intror (or_introl eq_refl)) H2 P2).
    pose proof (D e3 w3 (or_intror (or_intror (or_introl eq_refl))) H3 P3).
    repeat constructor; simpl; intuition congruence. }
  assert (Hincl : incl [v; w1; w2; w3] (union_of (map snd [e1; e2; e3]))).
  { intros x [<-|[<-|[<-|[<-|[]]]]]; assumption. }
  pose proof (NoDup_incl_length Hfour Hincl) as Hle. rewrite Hlen in Hle.
  cbn [length] in Hle. lia.
Qed.

End NakedSets.

Section NakedPasses.

Variable s : grid.
Hypothesis Hs : solved_grid s.

Implicit Types (g h : grid) (p q : pos).

Lemma col_unit_NoDup c : c < 9 -> NoDup (map (fun i => (i, c)) (range 0 9)).
Proof. intros Hc. apply (units_NoDup (col_unit c)). now apply col_unit_in_units. Qed.

Lemma row_unit_NoDup r : r < 9 -> NoDup (map (fun j => (r, j)) (range 0 9)).
Proof. intros Hr. apply (units_NoDup (row_unit r)). now apply row_unit_in_units. Qed.

Lemma block_unit_NoDup br bc :
  In br block_starts -> In bc block_starts ->
  NoDup (map (fun p : pos => p) (box br (br + 3) bc (bc + 3))).
Proof.
  intros Hbr Hbc. rewrite map_id. apply (units_NoDup (block_unit br bc)).
  now apply block_unit_in_units.
Qed.

Lemma not_among (i : nat) (idxs : list nat) :
  existsb (Nat.eqb i) idxs = false -> forall k, In k idxs -> i <> k.
Proof.
  intros H k Hk ->. assert (existsb (Nat.eqb k) idxs = true); [|congruence].
  apply existsb_exists. exists k. split; [assumption|apply Nat.eqb_refl].
Qed.

Lemma not_among_pos p (l : list pos) :
  existsb (pos_eqb p) l = false -> forall k, In k l -> p <> k.
Proof.
  intros H k Hk ->. assert (mem_pos k l = true) by now apply mem_pos_In.
  unfold mem_pos in *. congruence.
Qed.

Lemma NakedPairColumn_on_track g :
  on_track s g -> on_track s (snd (NakedPairColumnStrategy.apply g)).
Proof.
  intros Ht. unfold NakedPairColumnStrategy.apply.
  apply (fold_left_inv (fun acc => on_track s (snd acc))); [assumption|].
  intros [changed h] c Hc Hh. cbn [snd] in Hh. unfold NakedPairColumnStrategy.visit.
  apply in_range in Hc.
  destruct (first_pair _) as [[[i1 i2] cand1]|] eqn:Hfp; [|assumption].
  apply (fold_left_inv (fun acc => on_track s (snd acc))); [assumption|].
  intros acc i Hi Hacc. apply in_range in Hi. apply eliminate_on_track; [assumption|].
  intros Hskip. apply orb_false_iff in Hskip as [H1 H2]. apply Nat.eqb_neq in H1, H2.
  apply (naked_pair_locked s Hs (fun i => (i, c)) h (range 0 9) (col_unit c) i1 i2 cand1).
  - apply col_unit_in_units. lia.
  - intros k Hk. apply in_range in Hk. apply in_col_unit. lia.
  - apply col_unit_NoDup. lia.
  - exact Hh.
  - exact Hfp.
  - apply in_col_unit. lia.
  - intros [= E]. contradiction.
  - intros [= E]. contradiction.
Qed.

Lemma NakedPairRow_on_track g :
  on_track s g -> on_track s (snd (NakedPairRowStrategy.apply g)).
Proof.
  intros Ht. unfold NakedPairRowStrategy.apply.
  apply (fold_left_inv (fun acc => on_track s (snd acc))); [assumption|].
  intros [changed h] r Hr Hh. cbn [snd] in Hh. unfold NakedPairRowStrategy.visit.
  apply in_range in Hr.
  destruct (first_pair _) as [[[j1 j2] cand1]|] eqn:Hfp; [|assumption].
  apply (fold_left_inv (fun acc => on_track s (snd acc))); [assumption|].
  intros acc j Hj Hacc. apply in_range in Hj. apply eliminate_on_track; [assumption|].
  intros Hskip. apply orb_false_iff in Hskip as [H1 H2]. apply Nat.eqb_neq in H1, H2.
  apply (naked_pair_locked s Hs (fun j => (r, j)) h (range 0 9) (row_unit r) j1 j2 cand1).
  - apply row_unit_in_units. lia.
  - intros k Hk. apply in_range in Hk. apply in_row_unit. lia.
  - apply row_unit_NoDup. lia.
  - exact Hh.
  - exact Hfp.
  - apply in_row_unit. lia.
  - intros [= E]. contradiction.
  - intros [= E]. contradiction.
Qed.

Lemma NakedPairSubgrid_on_track g :
  on_track s g -> on_track s (snd (NakedPairSubgridStrategy.apply g)).
Proof.
  intros Ht. unfold NakedPairSubgridStrategy.apply.
  apply (fold_left_inv (fun acc => on_track s (snd acc))); [assumption|].
  intros acc br Hbr Hacc.
  apply (fold_left_inv (fun acc => on_track s (snd acc))); [assumption|].
  intros [changed h] bc Hbc Hh. cbn [snd] in Hh. unfold NakedPairSubgridStrategy.visit.
  unfold NakedPairSubgridStrategy.block_pairs.
  destruct (first_pair _) as [[[p1 p2] cand1]|] eqn:Hfp; [|assumption].
  rewrite for_box_fold.
  apply (fold_left_inv (fun acc => on_track s (snd acc))); [assumption|].
  intros acc' p Hp Hacc'. apply eliminate_on_track; [assumption|].
  intros Hskip. apply orb_false_iff in Hskip as [H1 H2].
  apply (naked_pair_locked s Hs (fun p : pos => p) h (box br (br + 3) bc (bc + 3))
           (block_unit br bc) p1 p2 cand1).
  - now apply block_unit_in_units.
  - intros k Hk. exact Hk.
  - now apply block_unit_NoDup.
  - exact Hh.
  - exact Hfp.
  - exact Hp.
  - intros E. apply pos_eqb_eq in E. congruence.
  - intros E. apply pos_eqb_eq in E. congruence.
Qed.

Lemma NakedTripletColumn_on_track g :
  on_track s g -> on_track s (snd (NakedTripletColumnStrategy.apply g)).
Proof.
  intros Ht. unfold NakedTripletColumnStrategy.apply.
  apply (fold_left_inv (fun acc => on_track s (snd acc))); [assumption|].
  intros [changed h] c Hc Hh. cbn [snd] in Hh. unfold NakedTripletColumnStrategy.visit.
  apply in_range in Hc.
  destruct (first_triplet _) as [[idxs union]|] eqn:Hft; [|assumption].
  apply (fold_left_inv (fun acc => on_track s (snd acc))); [assumption|].
  intros acc i Hi Hacc. apply in_range in Hi. apply eliminate_on_track; [assumption|].
  intros Hskip.
  apply (naked_triplet_locked s Hs (fun i => (i, c)) h (range 0 9) (col_unit c) idxs union).
  - apply col_unit_in_units. lia.
  - intros k Hk. apply in_range in Hk. apply in_col_unit. lia.
  - apply col_unit_NoDup. lia.
  - exact Hh.
  - exact Hft.
  - apply in_col_unit. lia.
  - intros k Hk [= E]. now apply (not_among i idxs Hskip k).
Qed.

Lemma NakedTripletRow_on_track g :
  on_track s g -> on_track s (snd (NakedTripletRowStrategy.apply g)).
Proof.
  intros Ht. unfold NakedTripletRowStrategy.apply.
  apply (fold_left_inv (fun acc => on_track s (snd acc))); [assumption|].
  intros [changed h] r Hr Hh. cbn [snd] in Hh. unfold NakedTripletRowStrategy.visit.
  apply in_range in Hr.
  destruct (first_triplet _) as [[idxs union]|] eqn:Hft; [|assumption].
  apply (fold_left_inv (fun acc => on_track s (snd acc))); [assumption|].
  intros acc j Hj Hacc. apply in_range in Hj. apply eliminate_on_track; [assumption|].
  intros Hskip.
  apply (naked_triplet_locked s Hs (fun j => (r, j)) h (range 0 9) (row_unit r) idxs union).
  - apply row_unit_in_units. lia.
  - intros k Hk. apply in_range in Hk. apply in_row_unit. lia.
  - apply row_unit_NoDup. lia.
  - exact Hh.
  - exact Hft.
  - apply in_row_unit. lia.
  - intros k Hk [= E]. now apply (not_among j idxs Hskip k).
Qed.

Lemma NakedTripletSubgrid_on_track g :
  on_track s g -> on_track s (snd (NakedTripletSubgridStrategy.apply g)).
Proof.
  intros Ht. unfold NakedTripletSubgridStrategy.apply.
  apply (fold_left_inv (fun acc => on_track s (snd acc))); [assumption|].
  intros acc br Hbr Hacc.
  apply (fold_left_inv (fun acc => on_track s (snd acc))); [assumption|].
  intros [changed h] bc Hbc Hh. cbn [snd] in Hh. unfold NakedTripletSubgridStrategy.visit.
  destruct (first_triplet _) as [[positions union]|] eqn:Hft; [|assumption].
  rewrite for_box_fold.
  apply (fold_left_inv (fun acc => on_track s (snd acc))); [assumption|].
  intros acc' p Hp Hacc'. apply eliminate_on_track; [assumption|].
  intros Hskip.
  apply (naked_triplet_locked s Hs (fun p : pos => p) h (box br (br + 3) bc (bc + 3))
           (block_unit br bc) positions union).
  - now apply block_unit_in_units.
  - intros k Hk. exact Hk.
  - now apply block_unit_NoDup.
  - exact Hh.
  - exact Hft.
  - exact Hp.
  - now apply not_among_pos.
Qed.

Lemma blocks_in_units : incl blocks units.
Proof. intros u Hu. unfold units. apply in_or_app. right. apply in_or_app. now right. Qed.

Lemma rows_in_units : incl rows units.
Proof. intros u Hu. unfold units. apply in_or_app. now left. Qed.

Lemma columns_in_units : incl columns units.
Proof. intros u Hu. unfold units. apply in_or_app. right. apply in_or_app. now left. Qed.

Lemma strategy_on_track st g :
  In st strateties -> on_track s g -> pruned g -> on_track s (snd (apply st g)).
Proof.
  unfold strateties. simpl.
  intros [<-|[<-|[<-|[<-|[<-|[<-|[<-|[<-|[<-|[<-|[]]]]]]]]]]] Ht Hpr; cbn [apply].
  - now apply SingleCandidate_on_track.
  - rewrite SubgridSingle_refines.
    apply hidden_single_pass_on_track; auto using blocks_in_units.
  - rewrite RowSingle_refines.
    apply hidden_single_pass_on_track; auto using rows_in_units.
  - rewrite ColumnSingle_refines.
    apply hidden_single_pass_on_track; auto using columns_in_units.
  - now apply NakedPairColumn_on_track.
  - now apply NakedPairRow_on_track.
  - now apply NakedPairSubgrid_on_track.
  - now apply NakedTripletColumn_on_track.
  - now apply NakedTripletRow_on_track.
  - now apply NakedTripletSubgrid_on_track.
Qed.

End NakedPasses.

(** ** Soundness of a guided session *)

Section SoundSession.

Variable s : grid.
Hypothesis Hs : solved_grid s.

Implicit Types (g h : grid) (p q : pos) (st : gstate).

Lemma on_track_start g :
  wf_grid g -> extends g s ->
  on_track s (get_cell_candidates g) /\ pruned (get_cell_candidates g).
Proof.
  intros Hwf Hext. destruct (get_cell_candidates_cells g Hwf) as (_ & Hval & Hcell & _).
  split.
  - intros p Hp. rewrite (Hval p). destruct (value (cell g p)) as [v|] eqn:Hv.
    + rewrite <- Hv. apply Hext; [assumption|]. congruence.
    + destruct (value (cell s p)) as [k|] eqn:Hk; [|now destruct (proj1 Hs p Hp)].
      exists k. split; [reflexivity|]. rewrite (Hcell p Hp). unfold recomputed, unset.
      rewrite Hv. cbn [isNone set_candidates candidates]. apply filter_In.
      split; [now apply (solved_values s p)|now apply (completion_is_valid g s)].
  - intros p q v Hp Hsees Hnone Hq Hin. rewrite (Hval p) in Hnone. rewrite (Hval q) in Hq.
    rewrite (Hcell p Hp) in Hin. unfold recomputed, unset in Hin. rewrite Hnone in Hin.
    cbn [isNone set_candidates candidates] in Hin. apply filter_In in Hin as [Hd Hvalid].
    apply in_digits in Hd.
    apply (is_valid_true g v p q Hvalid); [lia| |assumption].
    now apply in_scan_sees.
Qed.

Lemma newly_filled_In g g1 p :
  In p (List.filter (fun p => negb (existsb (pos_eqb p) (filled_positions g)))
                    (filled_positions g1)) <->
  In p all_positions /\ value (cell g p) = None /\ value (cell g1 p) <> None.
Proof.
  unfold filled_positions. rewrite !filter_In, negb_true_iff.
  change (existsb (pos_eqb p) ?l) with (mem_pos p l).
  rewrite negb_true_iff, <- (not_true_iff_false (mem_pos _ _)), mem_pos_In, filter_In,
    negb_true_iff.
  unfold unset. split.
  - intros [[Hp H1] H0]. split; [assumption|]. split.
    + destruct (value (cell g p)); [|reflexivity]. destruct H0. now split.
    + now destruct (value (cell g1 p)).
  - intros (Hp & H0 & H1). split; [split; [assumption|now destruct (value (cell g1 p))]|].
    intros [_ H]. rewrite H0 in H. discriminate.
Qed.

Lemma propagate_on_track g1 (last : list pos) :
  wf_grid g1 -> candidate_sets g1 -> on_track s g1 ->
  (forall p, In p last -> In p all_positions /\ value (cell g1 p) <> None) ->
  on_track s (remove_filled_candidates g1 last).
Proof.
  intros Hwf Hsets Ht Hlast q Hq.
  rewrite (remove_filled_candidates_cells g1 last q Hq g1 Hwf (fun _ => eq_refl)
             (Hsets q Hq)).
  rewrite propagated_all_value. pose proof (Ht q Hq) as Htq.
  destruct (value (cell g1 q)) as [v|] eqn:Hv; [assumption|].
  destruct Htq as (v & Hsv & Hin). exists v. split; [assumption|].
  assert (Hmem : mem_pos q last = false).
  { destruct (mem_pos q last) eqn:Em; [|reflexivity].
    apply mem_pos_In, Hlast in Em as [_ Em]. congruence. }
  apply propagated_all_unresolved; [assumption|now rewrite Hv|].
  split; [assumption|]. intros (p & Hp & Hscan & Hpv).
  destruct (Hlast p Hp) as [Hpa _].
  destruct (scan_units p q Hpa Hscan) as (u & Hu & Hpu & Hqu).
  apply (solved_unit_distinct s Hs u p q Hu Hpu Hqu); [intros ->; congruence|].
  rewrite Hsv. pose proof (Ht p Hpa) as Htp. now rewrite Hpv in Htp.
Qed.

Lemma propagate_pruned g g1 (last : list pos) :
  wf_grid g1 -> candidate_sets g1 -> pruned g -> shrinks g g1 ->
  (forall p, In p last <->
             In p all_positions /\ value (cell g p) = None /\ value (cell g1 p) <> None) ->
  pruned (remove_filled_candidates g1 last).
Proof.
  intros Hwf Hsets Hpr Hsh Hlast p q v Hp Hsees Hnone Hq Hin.
  assert (Hqa : In q all_positions).
  { apply in_all_positions. destruct Hsees as (H1 & H2 & _). now split. }
  rewrite (remove_filled_candidates_cells g1 last p Hp g1 Hwf (fun _ => eq_refl)
             (Hsets p Hp)) in Hnone, Hin.
  rewrite (remove_filled_candidates_cells g1 last q Hqa g1 Hwf (fun _ => eq_refl)
             (Hsets q Hqa)) in Hq.
  rewrite propagated_all_value in Hnone, Hq.
  assert (Hmem : mem_pos p last = false).
  { destruct (mem_pos p last) eqn:Em; [|reflexivity].
    apply mem_pos_In, Hlast in Em as (_ & _ & Em). congruence. }
  apply propagated_all_unresolved in Hin as [Hin Hno]; [|assumption|now rewrite Hnone].
  destruct (Hsh p) as [Hincl Hkeep]. destruct (Hsh q) as [_ Hkeepq].
  assert (Hgp : value (cell g p) = None).
  { destruct (value (cell g p)) eqn:E; [|reflexivity].
    rewrite Hkeep in Hnone by discriminate. discriminate. }
  destruct (value (cell g q)) as [w|] eqn:Hgq.
  - rewrite Hkeepq in Hq by discriminate. injection Hq as ->.
    apply (Hpr p q v Hp Hsees Hgp Hgq). now apply Hincl.
  - apply Hno. exists q. split; [|split; [|assumption]].
    + apply Hlast. split; [assumption|]. split; [assumption|congruence].
    + apply in_scan_sees; [assumption|]. now apply sees_sym.
Qed.

Lemma session_on_track_iteration st :
  session_on_track s st -> session_on_track s (fst (guided_iteration st)).
Proof.
  intros (Hwf & Hsets & Hidx & Ht & Hpr). unfold guided_iteration.
  set (st0 := nth (strategies_idx st) strateties _).
  assert (Hst : In st0 strateties) by now apply nth_In.
  pose proof (strategy_rel st0 (g_cells st) Hst) as [(Cw & _ & _ & Cn & _) _].
  pose proof (strategy_pass st0 (g_cells st) Hst) as [Hsh _].
  pose proof (strategy_on_track s Hs st0 (g_cells st) Hst Ht Hpr) as Ht1.
  destruct (apply st0 (g_cells st)) as [changed g1]. cbn [fst snd] in *.
  set (last := List.filter _ (filled_positions g1)).
  set (g2 := match last with [] => g1 | _ :: _ => remove_filled_candidates g1 last end).
  assert (Hg2 : g2 = remove_filled_candidates g1 last) by (unfold g2; now destruct last).
  assert (Hsets1 : candidate_sets g1) by (intros q Hq; apply Cn; now apply Hsets).
  assert (Hlast : forall p, In p last <->
            In p all_positions /\ value (cell (g_cells st) p) = None /\
            value (cell g1 p) <> None) by (intros p; apply newly_filled_In).
  destruct (remove_filled_candidates_keeps g1 last (Cw Hwf) Hsets1) as (Hwf2 & Hsets2 & _).
  assert (Hmk : forall i l1 l2, i < length strateties ->
            session_on_track s (mkState g2 i l1 l2)).
  { intros i l1 l2 Hi. rewrite Hg2. split; [exact Hwf2|]. split; [exact Hsets2|].
    split; [exact Hi|]. cbn [g_cells]. split.
    - apply propagate_on_track; auto. intros p Hp. apply Hlast in Hp. tauto.
    - exact (propagate_pruned (g_cells st) g1 last (Cw Hwf) Hsets1 Hpr Hsh Hlast). }
  destruct changed; cbn [fst].
  - now apply Hmk.
  - destruct (length strateties <=? strategies_idx st + 1) eqn:E; cbn [fst].
    + apply Hmk. rewrite strateties_length. lia.
    + apply Nat.leb_gt in E. now apply Hmk.
Qed.

Lemma session_on_track_loop answers :
  forall st, session_on_track s st -> session_on_track s (snd (guided_loop answers st)).
Proof.
  induction answers as [|a answers IH]; intros st Hok; simpl;
    pose proof (session_on_track_iteration st Hok) as Hok';
    destruct (guided_iteration st) as [st' solved]; cbn [fst] in Hok';
    destruct solved; try assumption.
  destruct a; [now apply IH|assumption].
Qed.

Lemma session_on_track_solver g answers :
  wf_grid g -> candidate_sets g -> extends g s ->
  session_on_track s (snd (guided_solver g answers)).
Proof.
  intros Hwf Hsets Hext. unfold guided_solver. apply session_on_track_loop.
  destruct (get_cell_candidates_keeps g Hwf Hsets) as (Hwf1 & Hsets1 & _).
  destruct (on_track_start g Hwf Hext) as [Ht Hpr].
  split; [assumption|]. split; [assumption|].
  split; [rewrite strateties_length; simpl; lia|]. now split.
Qed.

End SoundSession.

(** X26: every strategy pass is sound. Take a solved grid [s] and a grid on
    the way to it: each value it holds is the one of [s], and each
    unresolved cell lists its number of [s] among its candidates. If no
    unresolved cell lists a value already standing in its row, column or
    block, then after a pass of any strategy of the list the grid is still
    on the way to [s]: no wrong number was filled in and no right one was
    eliminated. *)
Theorem strategy_pass_sound (s g : grid) (st : Strategy) :
  In st strateties -> wf_grid g -> solved_grid s ->
  on_track s g -> pruned g ->
  on_track s (snd (apply st g)).
Proof. intros Hst _ Hs Ht Hpr. now apply strategy_on_track. Qed.

Lemma strategy_pass_sound_witness :
  In (nth 2 strateties (mkStrategy "" (fun g => (false, g)))) strateties /\
  wf_grid (get_cell_candidates (grid_of classic_puzzle)) /\
  solved_grid (grid_of classic_solution) /\
  on_track (grid_of classic_solution) (get_cell_candidates (grid_of classic_puzzle)) /\
  pruned (get_cell_candidates (grid_of classic_puzzle)) /\
  on_track (grid_of classic_solution)
    (snd (apply (nth 2 strateties (mkStrategy "" (fun g => (false, g))))
                (get_cell_candidates (grid_of classic_puzzle)))).
Proof.
  assert (Hs : solved_grid (grid_of classic_solution))
    by (apply solved_gridb_spec; vm_compute; reflexivity).
  assert (Hwf : wf_grid (grid_of classic_puzzle)) by wf_tac.
  assert (Hext : extends (grid_of classic_puzzle) (grid_of classic_solution))
    by (apply extendsb_spec; vm_compute; reflexivity).
  destruct (on_track_start _ Hs _ Hwf Hext) as [Ht Hpr].
  assert (Hin : In (nth 2 strateties (mkStrategy "" (fun g => (false, g)))) strateties)
    by (simpl; tauto).
  assert (Hwf1 : wf_grid (get_cell_candidates (grid_of classic_puzzle))) by wf_tac.
  split; [exact Hin|]. split; [exact Hwf1|]. split; [exact Hs|].
  split; [exact Ht|]. split; [exact Hpr|].
  exact (strategy_pass_sound _ _ _ Hin Hwf1 Hs Ht Hpr).
Defined.

(** X27: a guided session never goes wrong. On a puzzle with a completion
    [s], at every prompt and at the end of the session each value in the
    grid is the one [s] has there, and each unresolved cell still has its
    number of [s] among its candidates. *)
Theorem guided_solver_sound (g s : grid) (answers : list bool) :
  wf_grid g -> candidate_sets g -> completion g s ->
  on_track s (g_cells (snd (guided_solver g answers))).
Proof.
  intros Hwf Hsets [Hext Hs].
  now destruct (session_on_track_solver s Hs g answers Hwf Hsets Hext) as (_ & _ & _ & Ht & _).
Qed.

Lemma guided_solver_sound_witness :
  wf_grid (grid_of classic_puzzle) /\ candidate_sets (grid_of classic_puzzle) /\
  completion (grid_of classic_puzzle) (grid_of classic_solution) /\
  on_track (grid_of classic_solution)
           (g_cells (snd (guided_solver (grid_of classic_puzzle) (repeat true 7)))).
Proof.
  assert (Hwf : wf_grid (grid_of classic_puzzle)) by wf_tac.
  assert (Hsets : candidate_sets (grid_of classic_puzzle))
    by (apply candidate_setsb_spec; vm_compute; reflexivity).
  assert (Hc : completion (grid_of classic_puzzle) (grid_of classic_solution)).
  { split; [apply extendsb_spec|apply solved_gridb_spec]; vm_compute; reflexivity. }
  split; [exact Hwf|]. split; [exact Hsets|]. split; [exact Hc|].
  exact (guided_solver_sound _ _ (repeat true 7) Hwf Hsets Hc).
Defined.

(** X28: a session that ends as solved ends on the solution, and only a
    puzzle with one solution can be finished: when [guided_solver] leaves
    its loop through "Puzzle solved!", the grid holds, cell for cell, the
    numbers of every completion of the puzzle, so the puzzle has no two
    different completions. *)
Theorem guided_solver_solved_unique (g s : grid) (answers : list bool) :
  wf_grid g -> candidate_sets g -> completion g s ->
  fst (guided_solver g answers) = Some Solved ->
  flat (g_cells (snd (guided_solver g answers))) = flat s /\
  forall s', completion g s' -> flat s' = flat s.
Proof.
  intros Hwf Hsets Hc Hsolved.
  assert (Hall : forall t, completion g t ->
            flat (g_cells (snd (guided_solver g answers))) = flat t).
  { intros t [Hext Ht].
    destruct (session_on_track_solver t Ht g answers Hwf Hsets Hext)
      as (_ & _ & _ & Hon & _).
    destruct (guided_loop_signals answers (mkState (get_cell_candidates g) 0 [] []))
      as (Hfull & _).
    destruct (Hfull Hsolved) as [Hnone _]. fold (guided_solver g answers) in Hnone.
    unfold flat. apply map_ext_in. intros p Hp. specialize (Hon p Hp).
    pose proof (find_empty_None _ p Hnone Hp) as Hv.
    destruct (value (cell (g_cells (snd (guided_solver g answers))) p)) as [v|];
      [now rewrite Hon|contradiction]. }
  split; [now apply Hall|]. intros s' Hc'. rewrite <- (Hall s' Hc'). now apply Hall.
Qed.

Lemma guided_solver_solved_unique_witness :
  wf_grid (grid_of classic_puzzle) /\ candidate_sets (grid_of classic_puzzle) /\
  completion (grid_of classic_puzzle) (grid_of classic_solution) /\
  fst (guided_solver (grid_of classic_puzzle) (repeat true 30)) = Some Solved /\
  flat (g_cells (snd (guided_solver (grid_of classic_puzzle) (repeat true 30))))
    = flat (grid_of classic_solution) /\
  forall s', completion (grid_of classic_puzzle) s' ->
             flat s' = flat (grid_of classic_solution).
Proof.
  assert (Hwf : wf_grid (grid_of classic_puzzle)) by wf_tac.
  assert (Hsets : candidate_sets (grid_of classic_puzzle))
    by (apply candidate_setsb_spec; vm_compute; reflexivity).
  assert (Hc : completion (grid_of classic_puzzle) (grid_of classic_solution)).
  { split; [apply extendsb_spec|apply solved_gridb_spec]; vm_compute; reflexivity. }
  assert (Hsolved : fst (guided_solver (grid_of classic_puzzle) (repeat true 30))
                    = Some Solved) by (vm_compute; reflexivity).
  split; [exact Hwf|]. split; [exact Hsets|]. split; [exact Hc|]. split; [exact Hsolved|].
  exact (guided_solver_solved_unique _ _ (repeat true 30) Hwf Hsets Hc Hsolved).
Defined.

(** ** A puzzle with one solution *)

(** The guided session solves [classic_puzzle]; by the soundness of the
    session every completion of the puzzle then has the numbers of
    [classic_solution]. *)
Lemma solved_session_flat (g t : grid) (answers : list bool) :
  wf_grid g -> candidate_sets g -> completion g t ->
  fst (guided_solver g answers) = Some Solved ->
  flat (g_cells (snd (guided_solver g answers))) = flat t.
Proof.
  intros Hwf Hsets [Hext Ht] Hsolved.
  destruct (session_on_track_solver t Ht g answers Hwf Hsets Hext) as (_ & _ & _ & Hon & _).
  destruct (guided_loop_signals answers (mkState (get_cell_candidates g) 0 [] []))
    as (Hfull & _).
  destruct (Hfull Hsolved) as [Hnone _]. fold (guided_solver g answers) in Hnone.
  unfold flat. apply map_ext_in. intros p Hp. specialize (Hon p Hp).
  pose proof (find_empty_None _ p Hnone Hp) as Hv.
  destruct (value (cell (g_cells (snd (guided_solver g answers))) p)) as [v|];
    [now rewrite Hon|contradiction].
Qed.

Lemma classic_puzzle_unique (s' : grid) :
  completion (grid_of classic_puzzle) s' -> flat s' = flat (grid_of classic_solution).
Proof.
  intros Hc.
  assert (Hwf : wf_grid (grid_of classic_puzzle)) by wf_tac.
  assert (Hsets : candidate_sets (grid_of classic_puzzle))
    by (apply candidate_setsb_spec; vm_compute; reflexivity).
  assert (Hsolved : fst (guided_solver (grid_of classic_puzzle) (repeat true 30))
                    = Some Solved) by (vm_compute; reflexivity).
  rewrite <- (solved_session_flat _ s' _ Hwf Hsets Hc Hsolved).
  vm_compute. reflexivity.
Qed.

Lemma solve_unique_completion_witness :
  wf_grid (grid_of classic_puzzle) /\
  completion (grid_of classic_puzzle) (grid_of classic_solution) /\
  (forall s', completion (grid_of classic_puzzle) s' ->
              flat s' = flat (grid_of classic_solution)) /\
  exists g', solve (grid_of classic_puzzle) = Some (true, g') /\
             flat g' = flat (grid_of classic_solution).
Proof.
  assert (Hwf : wf_grid (grid_of classic_puzzle)) by wf_tac.
  assert (Hc : completion (grid_of classic_puzzle) (grid_of classic_solution)).
  { split; [apply extendsb_spec|apply solved_gridb_spec]; vm_compute; reflexivity. }
  split; [exact Hwf|]. split; [exact Hc|]. split; [exact classic_puzzle_unique|].
  exact (solve_unique_completion (grid_of classic_puzzle) (grid_of classic_solution)
           Hwf Hc classic_puzzle_unique).
Defined.
